(** * The query/answer bridge of [php-queries.cpp]

    A shallow embedding of the request-scoped query memory allocator
    ([qmem]), the slot window, the [StaticQueue] ring buffers, the answer
    generators and the last-net-error buffer, followed by the properties
    proved about them.

    Conventions.  A C++ [assert] that fails aborts the process: every
    function that contains one returns [option], and [None] is the abort.
    Undefined behaviour (signed overflow) is [None] as well.  Unsigned
    arithmetic on [size_t] wraps modulo [2^64] and is written out. *)

From Stdlib Require Import String Ascii.
From Stdlib Require Import ZArith List Lia Bool Permutation Sorted.
Import ListNotations.
Open Scope Z_scope.

(* ================================================================== *)
(** * Part I: the program                                              *)
(* ================================================================== *)

(** ** A small error monad for aborting code *)

Definition bind {A B : Type} (m : option A) (k : A -> option B) : option B :=
  match m with
  | Some a => k a
  | None => None
  end.

Notation "'do' x <- m ; k" := (bind m (fun x => k))
  (at level 10, x pattern, m at level 100, k at level 200).

(** [assert (c)] *)
Definition assert (c : bool) : option unit := if c then Some tt else None.

(** ** Machine integers *)

Definition SIZE_MOD : Z := 2 ^ 64.
Definition LLONG_MAX : Z := 2 ^ 63 - 1.
Definition INT_MAX : Z := 2 ^ 31 - 1.
Definition INT_MIN : Z := - 2 ^ 31.

(** arithmetic on [size_t] *)
Definition size_add (a b : Z) : Z := (a + b) mod SIZE_MOD.

(** conversion of a [size_t] to [int] (two's complement, as gcc and clang do) *)
Definition int_of_size (a : Z) : Z :=
  let r := a mod 2 ^ 32 in if r <=? INT_MAX then r else r - 2 ^ 32.

(** conversion of an [int] to [size_t] *)
Definition size_of_int (a : Z) : Z := a mod SIZE_MOD.

(** [x++] on a [long long]; overflow is undefined *)
Definition llong_incr (x : Z) : option Z :=
  if x <? LLONG_MAX then Some (x + 1) else None.

(** ** QUERY MEMORY ALLOCATOR *)

Module qmem.

(** Memory is a collection of disjoint blocks: the two static pages and
    what [malloc] returns.  [malloc] returns a block that no earlier call
    returned; [heap k] is the block of the [k]-th call. *)
Inductive block : Type :=
| static_memory (i : nat)
| heap (k : nat).

(** [void *]: a block and a byte offset in it *)
Definition ptr : Type := (block * Z)%type.

Definition ptr_add (p : ptr) (d : Z) : ptr := (fst p, snd p + d).

(* constants *)
Definition static_pages_n : nat := 2.
Definition page_size : Z := Z.shiftl 1 22.
Definition max_mem : Z := Z.shiftl 1 27.
Definition max_pages_n : nat := 1000.

Inductive state_t : Type := st_empty | st_inited.

(** The variables of the allocator.  The arrays [pages] and [pages_size]
    are kept as the list of their entries below [pages_n] (no entry at or
    above [pages_n] is read before it is written), so [pages_n] is the
    length of [pages].  [heap_top] counts the calls of [malloc].  The
    global [qmem_generation] lives in the same record. *)
Record vars : Type := mk_vars {
  pages : list (block * Z);
  cur_mem : Z;
  used_mem : Z;
  state : state_t;
  left : list (Z * ptr);
  heap_top : nat;
  qmem_generation : Z
}.

Definition pages_n (v : vars) : nat := length (pages v).

Definition set_left (l : list (Z * ptr)) (v : vars) : vars :=
  mk_vars (pages v) (cur_mem v) (used_mem v) (state v) l (heap_top v)
          (qmem_generation v).

Definition set_used_mem (u : Z) (v : vars) : vars :=
  mk_vars (pages v) (cur_mem v) u (state v) (left v) (heap_top v)
          (qmem_generation v).

Definition set_cur_mem (c : Z) (v : vars) : vars :=
  mk_vars (pages v) c (used_mem v) (state v) (left v) (heap_top v)
          (qmem_generation v).

Definition set_state (s : state_t) (v : vars) : vars :=
  mk_vars (pages v) (cur_mem v) (used_mem v) s (left v) (heap_top v)
          (qmem_generation v).

Definition set_pages (ps : list (block * Z)) (v : vars) : vars :=
  mk_vars ps (cur_mem v) (used_mem v) (state v) (left v) (heap_top v)
          (qmem_generation v).

Definition set_generation (g : Z) (v : vars) : vars :=
  mk_vars (pages v) (cur_mem v) (used_mem v) (state v) (left v) (heap_top v) g.

(** [malloc (size)]: a fresh block, recorded at [pages[pages_n]] with its
    size by the caller.  A [malloc] that returns a null pointer fails the
    assertion that follows it; the system allocator is outside the
    program, and this case is left out. *)
Definition malloc (v : vars) : block * vars :=
  (heap (heap_top v),
   mk_vars (pages v) (cur_mem v) (used_mem v) (state v) (left v)
           (S (heap_top v)) (qmem_generation v)).

(** *** [std::multimap<size_t, void *>]

    The entries in key order; entries with equal keys in insertion order. *)

(** [insert]: after the last entry whose key is not greater *)
Fixpoint multimap_insert (e : Z * ptr) (m : list (Z * ptr)) : list (Z * ptr) :=
  match m with
  | [] => [e]
  | x :: m' => if fst e <? fst x then e :: x :: m'
               else x :: multimap_insert e m'
  end.

(** [lower_bound (n)]: the first entry whose key is not less than [n] *)
Fixpoint lower_bound (n : Z) (m : list (Z * ptr)) : option (Z * ptr) :=
  match m with
  | [] => None
  | x :: m' => if n <=? fst x then Some x else lower_bound n m'
  end.

(** [erase (lower_bound (n))] *)
Fixpoint erase_lower_bound (n : Z) (m : list (Z * ptr)) : list (Z * ptr) :=
  match m with
  | [] => []
  | x :: m' => if n <=? fst x then m' else x :: erase_lower_bound n m'
  end.

(** the order the multimap keeps *)
Definition keys_sorted (m : list (Z * ptr)) : Prop :=
  StronglySorted (fun x y => fst x <= fst y) m.

(* private functions *)
Definition reg (p : ptr) (ptr_size : Z) (v : vars) : vars :=
  set_left (multimap_insert (ptr_size, p) (left v)) v.

Definition alloc_at_least (n use : Z) (v : vars) : option (ptr * vars) :=
  let alloc_size := if n >=? page_size then n else page_size in
  if (Nat.eqb (pages_n v) max_pages_n)
     || (alloc_size >? max_mem)
     || (size_add alloc_size (cur_mem v) >? max_mem)
  then None
  else
    let '(b, v) := malloc v in
    let p : ptr := (b, 0) in
    let v := set_pages (pages v ++ [(b, alloc_size)]) v in
    let v := if use <? alloc_size
             then reg (ptr_add p use) (alloc_size - use) v
             else v in
    Some (p, v).

End qmem.

(* public functions *)

(** [pages_n = static_pages_n] and the loop that fills the first entries
    of [pages] and [pages_size] build the list of the static pages. *)
Definition qmem_init (v : qmem.vars) : option qmem.vars :=
  do _ <- assert (match qmem.state v with qmem.st_empty => true | _ => false end);
  do _ <- assert (match qmem.left v with [] => true | _ => false end);
  let v := qmem.set_cur_mem 0 v in
  let v := qmem.set_pages [] v in
  let v :=
    fold_left
      (fun v i =>
         let v := qmem.set_pages
                    (qmem.pages v ++ [(qmem.static_memory i, qmem.page_size)]) v in
         let v := qmem.set_cur_mem (size_add (qmem.cur_mem v) qmem.page_size) v in
         qmem.reg (qmem.static_memory i, 0) qmem.page_size v)
      (seq 0 qmem.static_pages_n) v in
  Some (qmem.set_state qmem.st_inited v).

Definition qmem_malloc (n : Z) (v : qmem.vars) : option (qmem.ptr * qmem.vars) :=
  let i := qmem.lower_bound n (qmem.left v) in
  let v := qmem.set_used_mem (size_add (qmem.used_mem v) n) v in
  match i with
  | None => qmem.alloc_at_least n n v
  | Some (ptr_size, p) =>
      let v := qmem.set_left (qmem.erase_lower_bound n (qmem.left v)) v in
      let ptr_size := ptr_size - n in
      let v := if ptr_size >? 0
               then qmem.reg (qmem.ptr_add p n) ptr_size v
               else v in
      Some (p, v)
  end.

Definition qmem_malloc_tmp (n : Z) (v : qmem.vars) : option (qmem.ptr * qmem.vars) :=
  match qmem.lower_bound n (qmem.left v) with
  | None => qmem.alloc_at_least n 0 v
  | Some (_, p) => Some (p, v)
  end.

(** The [memset] writes inside the returned block only; the contents of
    blocks are not part of the allocator's variables. *)
Definition qmem_malloc0 (n : Z) (v : qmem.vars) : option (qmem.ptr * qmem.vars) :=
  qmem_malloc n v.

Definition qmem_free_ptrs (v : qmem.vars) : option qmem.vars :=
  let v :=
    if size_add (qmem.used_mem v) (qmem.used_mem v) >? qmem.cur_mem v
    then
      let v := qmem.set_left [] v in
      let v := qmem.set_used_mem 0 v in
      fold_left (fun v pg => qmem.reg (fst pg, 0) (snd pg) v) (qmem.pages v) v
    else v in
  do g <- llong_incr (qmem.qmem_generation v);
  Some (qmem.set_generation g v).

(** [free (pages[i])] gives the dynamic pages back; [pages_n] and the
    arrays keep their values until the next [qmem_init]. *)
Definition qmem_clear (v : qmem.vars) : option qmem.vars :=
  do _ <- assert (match qmem.state v with qmem.st_inited => true | _ => false end);
  let v := qmem.set_left [] v in
  let v := qmem.set_used_mem 0 v in
  let v := qmem.set_state qmem.st_empty v in
  do g <- llong_incr (qmem.qmem_generation v);
  Some (qmem.set_generation g v).

(** The variables as the program starts: static storage is zeroed. *)
Definition qmem_start : qmem.vars :=
  qmem.mk_vars [] 0 0 qmem.st_empty [] 0 0.

(** ** Calls of the allocator, with the allocations that are in use

    The allocator keeps no record of the blocks it handed out.  To speak
    about them, a run carries the list [live] of the blocks returned by
    [qmem_malloc] and [qmem_malloc0] since the last reclaim that took
    place; [qmem_malloc_tmp] commits nothing and adds nothing. *)

Definition allocation : Type := (qmem.ptr * Z)%type.

Record arena : Type := mk_arena {
  pool : qmem.vars;
  live : list allocation
}.

Inductive arena_op : Type :=
| op_init
| op_allocate (n : Z)
| op_zero_allocate (n : Z)
| op_allocate_peek (n : Z)
| op_soft_reclaim
| op_hard_reclaim.

(** the test of [qmem_free_ptrs] *)
Definition soft_reclaim_fires (v : qmem.vars) : bool :=
  size_add (qmem.used_mem v) (qmem.used_mem v) >? qmem.cur_mem v.

Definition arena_step (o : arena_op) (a : arena) : option arena :=
  match o with
  | op_init =>
      do v <- qmem_init (pool a); Some (mk_arena v (live a))
  | op_allocate n =>
      do (p, v) <- qmem_malloc n (pool a); Some (mk_arena v ((p, n) :: live a))
  | op_zero_allocate n =>
      do (p, v) <- qmem_malloc0 n (pool a); Some (mk_arena v ((p, n) :: live a))
  | op_allocate_peek n =>
      do (_, v) <- qmem_malloc_tmp n (pool a); Some (mk_arena v (live a))
  | op_soft_reclaim =>
      do v <- qmem_free_ptrs (pool a);
      Some (mk_arena v (if soft_reclaim_fires (pool a) then [] else live a))
  | op_hard_reclaim =>
      do v <- qmem_clear (pool a); Some (mk_arena v [])
  end.

(** the states after each call, up to the first call that aborts *)
Fixpoint arena_trace (ops : list arena_op) (a : arena) : list arena :=
  match ops with
  | [] => []
  | o :: ops' =>
      match arena_step o a with
      | None => []
      | Some a' => a' :: arena_trace ops' a'
      end
  end.

(** the state after all calls, if none aborts *)
Fixpoint arena_run (ops : list arena_op) (a : arena) : option arena :=
  match ops with
  | [] => Some a
  | o :: ops' => do a' <- arena_step o a; arena_run ops' a'
  end.

Definition arena_start : arena := mk_arena qmem_start [].

(** a [size_t] argument *)
Definition size_t_range (n : Z) : Prop := 0 <= n < SIZE_MOD.

Definition arena_op_wf (o : arena_op) : Prop :=
  match o with
  | op_allocate n | op_zero_allocate n | op_allocate_peek n => size_t_range n
  | _ => True
  end.

Definition is_reclaim (o : arena_op) : bool :=
  match o with
  | op_soft_reclaim | op_hard_reclaim => true
  | _ => false
  end.

Definition is_hard_reclaim (o : arena_op) : bool :=
  match o with
  | op_hard_reclaim => true
  | _ => false
  end.

(** *** What the accounting claim speaks about *)

(** the byte at [x] belongs to [a] *)
Definition in_allocation (x : qmem.ptr) (a : allocation) : Prop :=
  fst x = fst (fst a) /\ snd (fst a) <= snd x < snd (fst a) + snd a.

Definition overlap (a b : allocation) : Prop :=
  exists x, in_allocation x a /\ in_allocation x b.

Definition no_two_overlap (l : list allocation) : Prop :=
  forall i j a b, i <> j -> nth_error l i = Some a -> nth_error l j = Some b ->
                  ~ overlap a b.

Definition sum_Z (l : list Z) : Z := fold_right Z.add 0 l.

(** sum of the sizes of the free blocks *)
Definition free_bytes (v : qmem.vars) : Z := sum_Z (map fst (qmem.left v)).

(** sum of the sizes of the pages held, static and dynamic *)
Definition total_reserved_bytes (v : qmem.vars) : Z :=
  sum_Z (map snd (qmem.pages v)).

Definition accounting (a : arena) : Prop :=
  no_two_overlap (live a) /\
  qmem.used_mem (pool a) + free_bytes (pool a) = total_reserved_bytes (pool a).

(** the claim as it is stated: the accounting holds after every call of
    any sequence of calls of [qmem_init], [qmem_malloc], [qmem_malloc0],
    [qmem_malloc_tmp] and [qmem_free_ptrs], from the pool as the program
    starts *)
Definition accounting_any_sequence : Prop :=
  forall ops,
    Forall arena_op_wf ops ->
    Forall (fun o => is_hard_reclaim o = false) ops ->
    Forall accounting (arena_trace ops arena_start).

(** a block of one page taken before the first [qmem_init] *)
Definition allocate_before_init_ops : list arena_op :=
  [op_allocate qmem.page_size; op_init].


(** *** The invariant behind the accounting claim *)

(** disjointness of two blocks in closed form *)
Definition disjoint (a b : allocation) : Prop :=
  fst (fst a) <> fst (fst b) \/
  snd (fst a) + snd a <= snd (fst b) \/
  snd (fst b) + snd b <= snd (fst a).

Fixpoint pairwise_disjoint (l : list allocation) : Prop :=
  match l with
  | [] => True
  | a :: l' => Forall (disjoint a) l' /\ pairwise_disjoint l'
  end.

(** the free blocks as address ranges *)
Definition free_ranges (v : qmem.vars) : list allocation :=
  map (fun e => (snd e, fst e)) (qmem.left v).

(** every range the allocator knows: the free blocks and the blocks in use *)
Definition ranges (a : arena) : list allocation :=
  free_ranges (pool a) ++ live a.

(** the range lies inside one of the pages *)
Definition within (pages : list (qmem.block * Z)) (r : allocation) : Prop :=
  exists sz, In (fst (fst r), sz) pages /\
             0 <= snd (fst r) /\ 0 <= snd r /\ snd (fst r) + snd r <= sz.

(** the block was handed out already *)
Definition block_known (top : nat) (b : qmem.block) : Prop :=
  match b with
  | qmem.heap k => (k < top)%nat
  | qmem.static_memory _ => True
  end.

Record arena_inv (a : arena) : Prop := mk_arena_inv {
  inv_state : qmem.state (pool a) = qmem.st_inited;
  inv_pages_n : (length (qmem.pages (pool a)) <= qmem.max_pages_n)%nat;
  inv_page_sizes :
    Forall (fun pg => 0 < snd pg <= qmem.max_mem) (qmem.pages (pool a));
  inv_nodup : NoDup (map fst (qmem.pages (pool a)));
  inv_known :
    Forall (fun pg => block_known (qmem.heap_top (pool a)) (fst pg))
           (qmem.pages (pool a));
  inv_within : Forall (within (qmem.pages (pool a))) (ranges a);
  inv_disjoint : pairwise_disjoint (ranges a);
  inv_used : 0 <= qmem.used_mem (pool a);
  inv_account :
    qmem.used_mem (pool a) + free_bytes (pool a) = total_reserved_bytes (pool a);
  inv_sorted : qmem.keys_sorted (qmem.left (pool a))
}.

(** the pool after [qmem_init] at the start of the program *)
Definition arena_inited : arena :=
  mk_arena
    (qmem.mk_vars
       [(qmem.static_memory 0, qmem.page_size); (qmem.static_memory 1, qmem.page_size)]
       (2 * qmem.page_size) 0 qmem.st_inited
       [(qmem.page_size, (qmem.static_memory 0, 0));
        (qmem.page_size, (qmem.static_memory 1, 0))]
       0 0)
    [].


(** a short run used to exercise the allocator *)
Definition arena_demo_ops : list arena_op :=
  [op_allocate 100; op_allocate_peek 5000000; op_zero_allocate 8000000;
   op_allocate 4194204; op_soft_reclaim; op_allocate 3].

(** *** What the claim on [qmem_malloc_tmp] speaks about *)

(** no free block of size at least [n] *)
Definition no_free_block (n : Z) (v : qmem.vars) : Prop :=
  Forall (fun e => fst e < n) (qmem.left v).

(** the test of [alloc_at_least] for a request of [n] bytes *)
Definition ceilings_exceeded (n : Z) (v : qmem.vars) : bool :=
  Nat.eqb (qmem.pages_n v) qmem.max_pages_n
  || (Z.max n qmem.page_size >? qmem.max_mem)
  || (size_add (Z.max n qmem.page_size) (qmem.cur_mem v) >? qmem.max_mem).

(** the pool after a new page of [max (n, page_size)] bytes was acquired
    and registered whole as a free block *)
Definition with_new_free_page (n : Z) (v : qmem.vars) : qmem.vars :=
  qmem.mk_vars
    (qmem.pages v ++ [(qmem.heap (qmem.heap_top v), Z.max n qmem.page_size)])
    (qmem.cur_mem v) (qmem.used_mem v) (qmem.state v)
    (qmem.multimap_insert
       (Z.max n qmem.page_size, (qmem.heap (qmem.heap_top v), 0)) (qmem.left v))
    (S (qmem.heap_top v)) (qmem.qmem_generation v).

(** ** str_buffer *)

(** What a [data_reader_t] delivers: [read] copies [len] bytes, here the
    string itself, and [len] is its length. *)
Definition data_reader_t : Type := string.

Definition reader_len (reader : data_reader_t) : Z :=
  Z.of_nat (String.length reader).

Definition int_range (x : Z) : bool := (INT_MIN <=? x) && (x <=? INT_MAX).

(** [buf] is [None] while the pointer is not set; [contents] are the bytes
    [buf[0 .. len)]. *)
Record str_buf_t : Type := mk_str_buf {
  buf : option qmem.ptr;
  buf_len : Z;
  len : Z;
  contents : string
}.

Definition str_buf_create (sizeof_str_buf : Z) (v : qmem.vars)
  : option (str_buf_t * qmem.vars) :=
  do (_, v) <- qmem_malloc sizeof_str_buf v;
  Some (mk_str_buf None 0 0 EmptyString, v).

Definition str_buf_append (v : qmem.vars) (b : str_buf_t) (reader : data_reader_t)
  : option (str_buf_t * qmem.vars) :=
  let need := reader_len reader + len b in
  do _ <- assert (int_range need);
  do (b, v) <-
    (if need >=? buf_len b
     then
       let need := need * 2 + 1 in
       do _ <- assert (int_range need);
       do (new_buf, v) <- qmem_malloc (size_of_int need) v;
       Some (mk_str_buf (Some new_buf) need (len b) (contents b), v)
     else Some (b, v));
  Some (mk_str_buf (buf b) (buf_len b) (len b + reader_len reader)
                   (contents b ++ reader)%string, v).

(** writes the terminator at [buf[len]], which has to be inside the buffer *)
Definition str_buf_cstr (b : str_buf_t) : option string :=
  if len b <? buf_len b then Some (contents b) else None.

Definition str_buf_len (b : str_buf_t) : Z := len b.

(** ** net answer generator *)

Inductive ansgen_state_t : Type :=
| st_ansgen_done
| st_ansgen_error
| st_ansgen_wait.

Inductive nq_state_t : Type := nq_error | nq_ok.

(** [php_net_query_packet_answer_t], without the field that only the SQL
    generator writes; [res] is [None] for a null pointer. *)
Module answer.
Record t : Type := mk {
  state : nq_state_t;
  res : option string;
  res_len : Z;
  desc : option string
}.
End answer.

Module net_ansgen.
Record t : Type := mk {
  qmem_req_generation : Z;
  state : ansgen_state_t;
  ans : answer.t
}.
End net_ansgen.

Definition net_ansgen_is_alive (base_self : net_ansgen.t) (v : qmem.vars) : bool :=
  net_ansgen.qmem_req_generation base_self =? qmem.qmem_generation v.

Definition is_wait (s : ansgen_state_t) : bool :=
  match s with st_ansgen_wait => true | _ => false end.

Definition net_ansgen_timeout (v : qmem.vars) (base_self : net_ansgen.t)
  : option net_ansgen.t :=
  do _ <- assert (is_wait (net_ansgen.state base_self));
  if net_ansgen_is_alive base_self v
  then
    let a := net_ansgen.ans base_self in
    Some (net_ansgen.mk (-1) (net_ansgen.state base_self)
            (answer.mk nq_error (Some "Timeout"%string)
                       (answer.res_len a) (answer.desc a)))
  else Some base_self.

Definition net_ansgen_error (v : qmem.vars) (base_self : net_ansgen.t) (val : string)
  : option net_ansgen.t :=
  do _ <- assert (is_wait (net_ansgen.state base_self));
  let a := net_ansgen.ans base_self in
  let a := if net_ansgen_is_alive base_self v
           then answer.mk nq_error (Some val) (answer.res_len a) (answer.desc a)
           else a in
  Some (net_ansgen.mk (net_ansgen.qmem_req_generation base_self) st_ansgen_error a).

Definition net_ansgen_set_desc (v : qmem.vars) (base_self : net_ansgen.t) (val : string)
  : net_ansgen.t :=
  if net_ansgen_is_alive base_self v
  then
    let a := net_ansgen.ans base_self in
    net_ansgen.mk (net_ansgen.qmem_req_generation base_self)
                  (net_ansgen.state base_self)
                  (answer.mk (answer.state a) (answer.res a) (answer.res_len a)
                             (Some val))
  else base_self.

(** ** memcached answer generators *)

Definition CRLF : string :=
  String (ascii_of_nat 13) (String (ascii_of_nat 10) EmptyString).

Definition dquote : string := String (ascii_of_nat 34) EmptyString.

(** the readers set up by [init_readers] *)
Definition end_reader : data_reader_t := ("END" ++ CRLF)%string.
Definition stored_reader : data_reader_t := ("STORED" ++ CRLF)%string.
Definition notstored_reader : data_reader_t := ("NOT_STORED" ++ CRLF)%string.

Inductive mc_ansgen_packet_state_t : Type :=
| ap_any
| ap_get
| ap_store
| ap_version
| ap_other.

Definition ap_eqb (a b : mc_ansgen_packet_state_t) : bool :=
  match a, b with
  | ap_any, ap_any | ap_get, ap_get | ap_store, ap_store
  | ap_version, ap_version | ap_other, ap_other => true
  | _, _ => false
  end.

Module mc_ansgen_packet.
Record t : Type := mk {
  base : net_ansgen.t;
  state : mc_ansgen_packet_state_t;
  str_buf : str_buf_t
}.

Definition set_base (b : net_ansgen.t) (self : t) : t :=
  mk b (state self) (str_buf self).

Definition set_state (s : mc_ansgen_packet_state_t) (self : t) : t :=
  mk (base self) s (str_buf self).
End mc_ansgen_packet.

(** [base_self->state = s] *)
Definition set_base_state (s : ansgen_state_t) (self : mc_ansgen_packet.t)
  : mc_ansgen_packet.t :=
  let b := mc_ansgen_packet.base self in
  mc_ansgen_packet.set_base
    (net_ansgen.mk (net_ansgen.qmem_req_generation b) s (net_ansgen.ans b)) self.

(** the block shared by the generators that finalize on a fragment:
    [str_buf_append]; [ans->state = nq_ok]; [ans->res = str_buf_cstr];
    [ans->res_len = str_buf_len] *)
Definition append_and_finalize (v : qmem.vars) (self : mc_ansgen_packet.t)
           (reader : data_reader_t) : option (mc_ansgen_packet.t * qmem.vars) :=
  do (sb, v) <- str_buf_append v (mc_ansgen_packet.str_buf self) reader;
  do s <- str_buf_cstr sb;
  let b := mc_ansgen_packet.base self in
  let a := net_ansgen.ans b in
  Some (mc_ansgen_packet.mk
          (net_ansgen.mk (net_ansgen.qmem_req_generation b) (net_ansgen.state b)
             (answer.mk nq_ok (Some s) (str_buf_len sb) (answer.desc a)))
          (mc_ansgen_packet.state self) sb,
        v).

(** [base_self->func->error (base_self, val)]: the table of
    [get_mc_net_ansgen_functions] holds [net_ansgen_error] *)
Definition raise_error (v : qmem.vars) (self : mc_ansgen_packet.t) (val : string)
  : option (mc_ansgen_packet.t * qmem.vars) :=
  do b <- net_ansgen_error v (mc_ansgen_packet.base self) val;
  Some (mc_ansgen_packet.set_base b self, v).

Definition mc_ansgen_packet_xstored (v : qmem.vars) (self : mc_ansgen_packet.t)
           (is_stored : bool) : option (mc_ansgen_packet.t * qmem.vars) :=
  let self := if ap_eqb (mc_ansgen_packet.state self) ap_any
              then mc_ansgen_packet.set_state ap_store self else self in
  if negb (ap_eqb (mc_ansgen_packet.state self) ap_store)
  then raise_error v self "Unexpected STORED"
  else
    do (self, v) <-
      (if net_ansgen_is_alive (mc_ansgen_packet.base self) v
       then append_and_finalize v self
              (if is_stored then stored_reader else notstored_reader)
       else Some (self, v));
    Some (set_base_state st_ansgen_done self, v).

Definition mc_ansgen_packet_value (v : qmem.vars) (self : mc_ansgen_packet.t)
           (reader : data_reader_t) : option (mc_ansgen_packet.t * qmem.vars) :=
  let self := if ap_eqb (mc_ansgen_packet.state self) ap_any
              then mc_ansgen_packet.set_state ap_get self else self in
  if negb (ap_eqb (mc_ansgen_packet.state self) ap_get)
  then raise_error v self "Unexpected VALUE"
  else if net_ansgen_is_alive (mc_ansgen_packet.base self) v
  then
    do (sb, v) <- str_buf_append v (mc_ansgen_packet.str_buf self) reader;
    Some (mc_ansgen_packet.mk (mc_ansgen_packet.base self)
                              (mc_ansgen_packet.state self) sb, v)
  else Some (self, v).

Definition mc_ansgen_packet_version (v : qmem.vars) (self : mc_ansgen_packet.t)
           (reader : data_reader_t) : option (mc_ansgen_packet.t * qmem.vars) :=
  if negb (ap_eqb (mc_ansgen_packet.state self) ap_version)
  then Some (self, v)
  else
    do (self, v) <-
      (if net_ansgen_is_alive (mc_ansgen_packet.base self) v
       then append_and_finalize v self reader
       else Some (self, v));
    Some (set_base_state st_ansgen_done self, v).

Definition mc_ansgen_packet_set_query_type (v : qmem.vars)
           (self : mc_ansgen_packet.t) (query_type : Z)
  : option (mc_ansgen_packet.t * qmem.vars) :=
  let new_state := ap_any in
  let new_state := if query_type =? 1 then ap_version else new_state in
  if ap_eqb new_state ap_any
  then Some (self, v)
  else
    let self := if ap_eqb (mc_ansgen_packet.state self) ap_any
                then mc_ansgen_packet.set_state new_state self else self in
    if negb (ap_eqb (mc_ansgen_packet.state self) new_state)
    then raise_error v self "Can't determine query type"
    else Some (self, v).

Definition mc_ansgen_packet_other (v : qmem.vars) (self : mc_ansgen_packet.t)
           (reader : data_reader_t) : option (mc_ansgen_packet.t * qmem.vars) :=
  let self := if ap_eqb (mc_ansgen_packet.state self) ap_any
              then mc_ansgen_packet.set_state ap_other self else self in
  if negb (ap_eqb (mc_ansgen_packet.state self) ap_other)
  then raise_error v self ("Unexpected " ++ dquote ++ "other" ++ dquote ++ " command")
  else
    do (self, v) <-
      (if net_ansgen_is_alive (mc_ansgen_packet.base self) v
       then append_and_finalize v self reader
       else Some (self, v));
    Some (set_base_state st_ansgen_done self, v).

Definition mc_ansgen_packet_end (v : qmem.vars) (self : mc_ansgen_packet.t)
  : option (mc_ansgen_packet.t * qmem.vars) :=
  do _ <- assert (is_wait (net_ansgen.state (mc_ansgen_packet.base self)));
  let self := if ap_eqb (mc_ansgen_packet.state self) ap_any
              then mc_ansgen_packet.set_state ap_get self else self in
  if negb (ap_eqb (mc_ansgen_packet.state self) ap_get)
  then raise_error v self "Unexpected END"
  else
    do (self, v) <-
      (if net_ansgen_is_alive (mc_ansgen_packet.base self) v
       then append_and_finalize v self end_reader
       else Some (self, v));
    Some (set_base_state st_ansgen_done self, v).

(** [sizeof_answer] and [sizeof_str_buf] are the sizes of
    [php_net_query_packet_answer_t] and [str_buf_t], and [zeroed] is the
    answer that [qmem_malloc0] leaves: the declarations are in a header. *)
Definition mc_ansgen_packet_create (sizeof_answer sizeof_str_buf : Z)
           (zeroed : answer.t) (v : qmem.vars)
  : option (mc_ansgen_packet.t * qmem.vars) :=
  let generation := qmem.qmem_generation v in
  do (_, v) <- qmem_malloc0 sizeof_answer v;
  do (sb, v) <- str_buf_create sizeof_str_buf v;
  Some (mc_ansgen_packet.mk
          (net_ansgen.mk generation st_ansgen_wait zeroed) ap_any sb,
        v).

(** The fragments the engine delivers, one per entry of the table of
    [get_mc_ansgen_functions]. *)
Inductive mc_fragment : Type :=
| frag_value (reader : data_reader_t)
| frag_end
| frag_xstored (is_stored : bool)
| frag_other (reader : data_reader_t)
| frag_version (reader : data_reader_t).

Definition mc_deliver (f : mc_fragment) (v : qmem.vars) (self : mc_ansgen_packet.t)
  : option (mc_ansgen_packet.t * qmem.vars) :=
  match f with
  | frag_value reader => mc_ansgen_packet_value v self reader
  | frag_end => mc_ansgen_packet_end v self
  | frag_xstored is_stored => mc_ansgen_packet_xstored v self is_stored
  | frag_other reader => mc_ansgen_packet_other v self reader
  | frag_version reader => mc_ansgen_packet_version v self reader
  end.

(** the number of reclaim calls in a run *)
Definition count_reclaims (ops : list arena_op) : Z :=
  Z.of_nat (length (filter is_reclaim ops)).

(** an answer generator in its first state, for the examples *)
Definition example_answer : answer.t := answer.mk nq_ok None 0 None.

Definition example_ansgen : net_ansgen.t :=
  net_ansgen.mk 0 st_ansgen_wait example_answer.

(** the claim on [timeout] as it is stated: the call takes a live, waiting
    generator out of the waiting state *)
Definition timeout_leaves_waiting : Prop :=
  forall v base_self base_self',
    net_ansgen.state base_self = st_ansgen_wait ->
    net_ansgen_is_alive base_self v = true ->
    net_ansgen_timeout v base_self = Some base_self' ->
    net_ansgen.state base_self' <> st_ansgen_wait.

(** *** What the claim on the memcached sub-states speaks about *)

(** the sub-state a fragment of this kind belongs to *)
Definition commit_state (f : mc_fragment) : mc_ansgen_packet_state_t :=
  match f with
  | frag_value _ | frag_end => ap_get
  | frag_xstored _ => ap_store
  | frag_other _ => ap_other
  | frag_version _ => ap_version
  end.

(** the bytes the fragment adds to the buffer *)
Definition payload (f : mc_fragment) : data_reader_t :=
  match f with
  | frag_value reader | frag_other reader | frag_version reader => reader
  | frag_end => end_reader
  | frag_xstored is_stored => if is_stored then stored_reader else notstored_reader
  end.

(** the text of the error raised on a fragment of this kind *)
Definition unexpected_message (f : mc_fragment) : option string :=
  match f with
  | frag_value _ => Some "Unexpected VALUE"%string
  | frag_end => Some "Unexpected END"%string
  | frag_xstored _ => Some "Unexpected STORED"%string
  | frag_other _ =>
      Some ("Unexpected " ++ dquote ++ "other" ++ dquote ++ " command")%string
  | frag_version _ => None
  end.

Definition is_version (f : mc_fragment) : bool :=
  match f with frag_version _ => true | _ => false end.

Definition base_state (self : mc_ansgen_packet.t) : ansgen_state_t :=
  net_ansgen.state (mc_ansgen_packet.base self).

(** the generator after [net_ansgen_error] with the text [msg] *)
Definition errored (v : qmem.vars) (self : mc_ansgen_packet.t) (msg : string)
  : mc_ansgen_packet.t :=
  let b := mc_ansgen_packet.base self in
  let a := net_ansgen.ans b in
  mc_ansgen_packet.mk
    (net_ansgen.mk (net_ansgen.qmem_req_generation b) st_ansgen_error
       (if net_ansgen_is_alive b v
        then answer.mk nq_error (Some msg) (answer.res_len a) (answer.desc a)
        else a))
    (mc_ansgen_packet.state self) (mc_ansgen_packet.str_buf self).

(** the claim as it is stated, for every kind of fragment: a waiting
    generator commits on the first fragment and raises an error on a
    fragment that does not match the committed sub-state *)
Definition commit_or_error_all_kinds : Prop :=
  forall f v self self' v',
    base_state self = st_ansgen_wait ->
    mc_deliver f v self = Some (self', v') ->
    (mc_ansgen_packet.state self = ap_any ->
     mc_ansgen_packet.state self' = commit_state f) /\
    (mc_ansgen_packet.state self <> ap_any ->
     mc_ansgen_packet.state self <> commit_state f ->
     base_state self' = st_ansgen_error).

(** a memcached generator, waiting, with the given sub-state *)
Definition example_mc (s : mc_ansgen_packet_state_t) : mc_ansgen_packet.t :=
  mc_ansgen_packet.mk example_ansgen s (mk_str_buf None 0 0 EmptyString).

(** ** new rpc interface: the slot window *)

Definition max_slot_id : Z := 1000000000.

(** the two static variables *)
Record slots : Type := mk_slots {
  begin_slot_id : Z;
  end_slot_id : Z
}.

(** as the program starts *)
Definition slots_start : slots := mk_slots 0 0.

(** [lrand48] is outside the program: the value its next call returns is
    an argument ([r], a non-negative [long] below [2^31]). *)
Definition init_slots (r : Z) (s : slots) : slots :=
  let x := Z.rem r (Z.quot max_slot_id 4) + 1 in
  mk_slots x x.

(** returns [-1] when no slot is left *)
Definition create_slot (s : slots) : Z * slots :=
  if end_slot_id s >? max_slot_id
  then (-1, s)
  else (end_slot_id s, mk_slots (begin_slot_id s) (end_slot_id s + 1)).

Definition is_valid_slot (slot_id : Z) (s : slots) : bool :=
  (begin_slot_id s <=? slot_id) && (slot_id <? end_slot_id s).

Definition clear_slots (r : Z) (s : slots) : slots :=
  let s := mk_slots (end_slot_id s) (end_slot_id s) in
  if begin_slot_id s >? Z.quot max_slot_id 2
  then init_slots r s
  else s.

(** *** Calls on the slot window, with the slots that were issued

    [issued] are the slots [create_slot] returned since the last
    [clear_slots] (or since [init_slots]), [issued_before] those it
    returned earlier, and [reseeded] tells whether a [clear_slots] took
    the branch that calls [init_slots]. *)

Inductive slot_op : Type :=
| slot_create
| slot_invalidate_all (r : Z).

Record slot_history : Type := mk_slot_history {
  window : slots;
  issued : list Z;
  issued_before : list Z;
  reseeded : bool
}.

Definition slot_step (o : slot_op) (h : slot_history) : slot_history :=
  match o with
  | slot_create =>
      let '(id, w) := create_slot (window h) in
      if id =? -1
      then mk_slot_history w (issued h) (issued_before h) (reseeded h)
      else mk_slot_history w (id :: issued h) (issued_before h) (reseeded h)
  | slot_invalidate_all r =>
      mk_slot_history
        (clear_slots r (window h)) [] (issued h ++ issued_before h)
        (reseeded h || (end_slot_id (window h) >? Z.quot max_slot_id 2))
  end.

Definition slot_run (ops : list slot_op) (h : slot_history) : slot_history :=
  fold_left (fun h o => slot_step o h) ops h.

(** after [init_slots] in [init_drivers] *)
Definition slot_history_start (r : Z) : slot_history :=
  mk_slot_history (init_slots r slots_start) [] [] false.

(** a value [lrand48] can return *)
Definition lrand48_range (r : Z) : Prop := 0 <= r < 2 ^ 31.

Definition slot_op_wf (o : slot_op) : Prop :=
  match o with
  | slot_create => True
  | slot_invalidate_all r => lrand48_range r
  end.

(** the claim as it is stated: valid exactly when issued since the last
    invalidation, and no slot issued before it is valid, reseeding or not *)
Definition slot_validity_across_reseed : Prop :=
  forall r ops s,
    lrand48_range r -> Forall slot_op_wf ops ->
    (is_valid_slot s (window (slot_run ops (slot_history_start r))) = true <->
     In s (issued (slot_run ops (slot_history_start r)))) /\
    (In s (issued_before (slot_run ops (slot_history_start r))) ->
     is_valid_slot s (window (slot_run ops (slot_history_start r))) = false).

(** the run of the counterexample: half a billion slots, an invalidation
    that reseeds, and one more slot *)
Definition reseed_ops : list slot_op :=
  repeat slot_create (Z.to_nat 500000000) ++ [slot_invalidate_all 0; slot_create].

Definition slot_invariant (h : slot_history) : Prop :=
  1 <= begin_slot_id (window h) <= end_slot_id (window h) /\
  end_slot_id (window h) <= max_slot_id + 1 /\
  (forall s, In s (issued h) <->
             begin_slot_id (window h) <= s < end_slot_id (window h)) /\
  (reseeded h = false ->
   forall s, In s (issued_before h) -> s < begin_slot_id (window h)).

(** ** [StaticQueue<DataT, N>] *)

Module StaticQueue.
Section StaticQueue.
Variable DataT : Type.
Variable N : Z.

(** The array [q] is a function of the index; the methods use the
    indices from [0] to [N - 1].  A [DataT *] into the array is the
    index of its element, and [None] is the null pointer. *)
Record t : Type := mk {
  q : Z -> DataT;
  begin : Z;
  end_ : Z;
  cnt : Z
}.

Definition clear (sq : t) : t := mk (q sq) 0 0 0.

Definition empty (sq : t) : bool := cnt sq =? 0.

(** the constructor, on the storage [q0] *)
Definition new (q0 : Z -> DataT) : t := mk q0 0 0 0.

Definition create (sq : t) : option Z * t :=
  if cnt sq =? N
  then (None, sq)
  else
    let res := end_ sq in
    let e := end_ sq + 1 in
    let c := cnt sq + 1 in
    let e := if e =? N then 0 else e in
    (Some res, mk (q sq) (begin sq) e c).

Definition undo_create (event : Z) (sq : t) : option t :=
  let old_end := end_ sq - 1 in
  let old_end := if old_end =? -1 then N - 1 else old_end in
  do _ <- assert (event =? old_end);
  Some (mk (q sq) (begin sq) old_end (cnt sq - 1)).

Definition pop (sq : t) : option Z * t :=
  if empty sq
  then (None, sq)
  else
    let res := begin sq in
    let b := begin sq + 1 in
    let c := cnt sq - 1 in
    let b := if b =? N then 0 else b in
    (Some res, mk (q sq) b (end_ sq) c).

(** [*event = x], what the callers do with the pointer they get *)
Definition store (event : Z) (x : DataT) (sq : t) : t :=
  mk (fun i => if i =? event then x else q sq i) (begin sq) (end_ sq) (cnt sq).

(** [event->field = ...] *)
Definition update (event : Z) (f : DataT -> DataT) (sq : t) : t :=
  store event (f (q sq event)) sq.

(** *** The records in the queue *)

(** the index [i] places after [b], around the end of the array *)
Definition idx (b i : Z) : Z := if b + i <? N then b + i else b + i - N.

(** the records created and not popped, oldest first *)
Definition records (sq : t) : list DataT :=
  map (fun i => q sq (idx (begin sq) (Z.of_nat i))) (seq 0 (Z.to_nat (cnt sq))).

Definition wf (sq : t) : Prop :=
  0 <= begin sq < N /\ 0 <= cnt sq <= N /\ end_ sq = idx (begin sq) (cnt sq).

(** *** Runs of [create] and [pop] *)

Inductive op : Type :=
| op_create (x : DataT)
| op_pop.

Inductive result : Type :=
| created
| queue_full
| popped (x : DataT)
| none.

(** [create] followed by filling the record in; [pop] followed by
    reading the record *)
Definition step (o : op) (sq : t) : result * t :=
  match o with
  | op_create x =>
      match create sq with
      | (Some event, sq) => (created, store event x sq)
      | (None, sq) => (queue_full, sq)
      end
  | op_pop =>
      match pop sq with
      | (Some event, sq) => (popped (q sq event), sq)
      | (None, sq) => (none, sq)
      end
  end.

Fixpoint run (ops : list op) (sq : t) : list result :=
  match ops with
  | [] => []
  | o :: ops' => let '(r, sq') := step o sq in r :: run ops' sq'
  end.

(** The queue of the specification: a FIFO list of at most [N]
    records.  [create] fails on [N] records and leaves them; [pop]
    removes the oldest record or returns nothing. *)
Definition fifo_step (o : op) (l : list DataT) : result * list DataT :=
  match o with
  | op_create x =>
      if Z.of_nat (length l) =? N then (queue_full, l) else (created, l ++ [x])
  | op_pop =>
      match l with
      | [] => (none, [])
      | x :: l' => (popped x, l')
      end
  end.

Fixpoint fifo_run (ops : list op) (l : list DataT) : list result :=
  match ops with
  | [] => []
  | o :: ops' => let '(r, l') := fifo_step o l in r :: fifo_run ops' l'
  end.

End StaticQueue.

Arguments mk {DataT}.
Arguments q {DataT}.
Arguments begin {DataT}.
Arguments end_ {DataT}.
Arguments cnt {DataT}.
Arguments clear {DataT}.
Arguments empty {DataT}.
Arguments new {DataT}.
Arguments create {DataT}.
Arguments undo_create {DataT}.
Arguments pop {DataT}.
Arguments store {DataT}.
Arguments update {DataT}.
Arguments records {DataT}.
Arguments wf {DataT}.
Arguments op_create {DataT}.
Arguments op_pop {DataT}.
Arguments created {DataT}.
Arguments queue_full {DataT}.
Arguments popped {DataT}.
Arguments none {DataT}.
Arguments step {DataT}.
Arguments run {DataT}.
Arguments fifo_step {DataT}.
Arguments fifo_run {DataT}.

End StaticQueue.

(** ** net events *)

Inductive net_event_type_t : Type := ne_rpc_answer | ne_rpc_error.

(** the fields of [net_event_t] that this file writes; [result] is the
    address of the payload or [None] for a null pointer *)
Record net_event_t : Type := mk_net_event {
  slot_id : Z;
  type : net_event_type_t;
  result : option Z;
  result_len : Z;
  error_code : Z;
  error_message : option string
}.

Definition set_slot_id (x : Z) (e : net_event_t) : net_event_t :=
  mk_net_event x (type e) (result e) (result_len e) (error_code e) (error_message e).

Definition set_type (x : net_event_type_t) (e : net_event_t) : net_event_t :=
  mk_net_event (slot_id e) x (result e) (result_len e) (error_code e)
               (error_message e).

Definition set_result (x : option Z) (e : net_event_t) : net_event_t :=
  mk_net_event (slot_id e) (type e) x (result_len e) (error_code e)
               (error_message e).

Definition set_result_len (x : Z) (e : net_event_t) : net_event_t :=
  mk_net_event (slot_id e) (type e) (result e) x (error_code e) (error_message e).

Definition set_error_code (x : Z) (e : net_event_t) : net_event_t :=
  mk_net_event (slot_id e) (type e) (result e) (result_len e) x (error_message e).

Definition set_error_message (x : option string) (e : net_event_t) : net_event_t :=
  mk_net_event (slot_id e) (type e) (result e) (result_len e) (error_code e) x.

(** [static StaticQueue<net_event_t, 2000000> net_events] *)
Definition net_events_N : Z := 2000000.

Definition net_events_t : Type := StaticQueue.t net_event_t.

(** [dl::allocate] and [PHPScriptBase::ml_flag] are outside this file:
    [dl_allocate size] is the address the allocator returns, or [None],
    and [ml_flag] is the value of the flag.  The three header words and
    the terminator are written into the new block, which is no part of
    the state modelled here. *)
Definition dl_allocate_safe (ml_flag : bool) (dl_allocate : Z -> option Z) (size : Z)
  : option (option Z) :=
  if (size =? 0) || ml_flag
  then Some None
  else
    do _ <- assert (size <=? Z.shiftl 1 30 - 13);
    match dl_allocate (size + 13) with
    | None => Some None
    | Some dest => Some (Some (dest + 12))
    end.

(** returns the status and what it leaves in [*res] *)
Definition alloc_net_event (s : slots) (net_events : net_events_t)
           (slot : Z) (ty : net_event_type_t)
  : Z * option Z * net_events_t :=
  if negb (is_valid_slot slot s)
  then (0, None, net_events)
  else
    match StaticQueue.create net_events_N net_events with
    | (None, net_events) => (-2, None, net_events)
    | (Some event, net_events) =>
        let net_events := StaticQueue.update event (set_slot_id slot) net_events in
        let net_events := StaticQueue.update event (set_type ty) net_events in
        (1, Some event, net_events)
    end.

Definition unalloc_net_event (event : Z) (net_events : net_events_t)
  : option net_events_t :=
  StaticQueue.undo_create net_events_N event net_events.

(** [res_given] tells whether the caller passed a non-null [res] *)
Definition create_rpc_error_event (s : slots) (net_events : net_events_t)
           (slot : Z) (code : Z) (message : option string) (res_given : bool)
  : Z * option Z * net_events_t :=
  match alloc_net_event s net_events slot ne_rpc_error with
  | (status, Some event, net_events) =>
      if status <=? 0
      then (status, None, net_events)
      else
        let net_events := StaticQueue.update event (set_error_code code) net_events in
        let net_events :=
          StaticQueue.update event (set_error_message message) net_events in
        (1, if res_given then Some event else None, net_events)
  | (status, None, net_events) => (status, None, net_events)
  end.

Definition create_rpc_answer_event (ml_flag : bool) (dl_allocate : Z -> option Z)
           (s : slots) (net_events : net_events_t)
           (slot : Z) (len : Z) (res_given : bool)
  : option (Z * option Z * net_events_t) :=
  match alloc_net_event s net_events slot ne_rpc_answer with
  | (status, Some event, net_events) =>
      if status <=? 0
      then Some (status, None, net_events)
      else
        do r <-
          (if negb (len =? 0)
           then
             do b <- dl_allocate_safe ml_flag dl_allocate (size_of_int len);
             match b with
             | None => Some None
             | Some p =>
                 Some (Some (StaticQueue.update event (set_result (Some p))
                                                net_events))
             end
           else Some (Some (StaticQueue.update event (set_result None) net_events)));
        match r with
        | None =>
            do net_events <- unalloc_net_event event net_events;
            Some (-1, None, net_events)
        | Some net_events =>
            let net_events :=
              StaticQueue.update event (set_result_len len) net_events in
            do _ <- assert res_given;
            Some (1, Some event, net_events)
        end
  | (status, None, net_events) => Some (status, None, net_events)
  end.

(** a queue of three records, for the examples: empty, with [end] on the
    last element of the array *)
Definition example_queue : StaticQueue.t Z :=
  StaticQueue.mk (fun _ => 0) 2 2 0.

Definition example_queue_ops : list (StaticQueue.op Z) :=
  [StaticQueue.op_create 1; StaticQueue.op_create 2; StaticQueue.op_pop;
   StaticQueue.op_create 3; StaticQueue.op_create 4; StaticQueue.op_create 5;
   StaticQueue.op_pop; StaticQueue.op_pop; StaticQueue.op_pop; StaticQueue.op_pop].

Definition example_event : net_event_t :=
  mk_net_event 0 ne_rpc_error None 0 0 None.

(** the event queue with one event waiting and [end] on the last element *)
Definition example_net_events : net_events_t :=
  StaticQueue.mk (fun _ => example_event) 1999998 1999999 1.

(** ** The last net error *)

Definition MAX_NET_ERROR_LEN : Z := 128.

(** The buffer [last_net_error] is a list of [MAX_NET_ERROR_LEN + 1]
    characters.  A C string passed in is the list of its characters
    before the terminator, or [None] for a null pointer. *)
Definition last_net_error_size : nat := Z.to_nat (MAX_NET_ERROR_LEN + 1).

(** [memcpy (dst, src, l)] *)
Definition memcpy (dst src : list ascii) (l : nat) : list ascii :=
  firstn l src ++ skipn l dst.

(** [buf[i] = c] *)
Definition poke (buf : list ascii) (i : nat) (c : ascii) : list ascii :=
  firstn i buf ++ c :: skipn (S i) buf.

(** the C string that starts at the beginning of [buf] *)
Fixpoint c_str (buf : list ascii) : list ascii :=
  match buf with
  | [] => []
  | c :: buf' => if Ascii.eqb c zero then [] else c :: c_str buf'
  end.

(** [strlen (s)], converted to [int] *)
Definition strlen_int (s : list ascii) : Z := int_of_size (Z.of_nat (length s)).

(** A negative [l] would make [memcpy] run over the buffer: [None]. *)
Definition save_last_net_error (s : option (list ascii))
           (last_net_error : list ascii) : option (list ascii) :=
  match s with
  | None => Some (poke last_net_error 0 zero)
  | Some s =>
      let l := strlen_int s in
      let l := if l >=? MAX_NET_ERROR_LEN then MAX_NET_ERROR_LEN - 1 else l in
      do _ <- assert (0 <=? l);
      let last_net_error := memcpy last_net_error s (Z.to_nat l) in
      Some (poke last_net_error (Z.to_nat l) zero)
  end.

(** What [engine_mc_run_query] and [engine_sql_run_query] do to
    [last_net_error] with the answer [res] that the query returned; the
    message written to [stderr] and the callback are left out. *)
Definition engine_run_query_error (res : answer.t) (last_net_error : list ascii)
  : option (list ascii) :=
  match answer.state res with
  | nq_error =>
      save_last_net_error (option_map list_ascii_of_string (answer.res res))
                          last_net_error
  | nq_ok => Some last_net_error
  end.

(** a C string: no terminator inside, and a length that fits an [int] *)
Definition is_c_string (s : list ascii) : Prop :=
  Forall (fun c => c <> zero) s /\ Z.of_nat (length s) <= INT_MAX.

(** the claim as it is stated: a string of at most 128 bytes is stored
    whole *)
Definition stored_whole_up_to_128 : Prop :=
  forall s buf buf',
    is_c_string s -> length buf = last_net_error_size ->
    Z.of_nat (length s) <= MAX_NET_ERROR_LEN ->
    save_last_net_error (Some s) buf = Some buf' ->
    c_str buf' = s.

Definition letter_a : ascii := ascii_of_nat 97.

(** a short run on the slot window, for the examples *)
Definition example_slot_ops : list slot_op :=
  [slot_create; slot_create; slot_invalidate_all 7; slot_create].

(* ================================================================== *)
(** * Part I, continued: the rest of the file                          *)
(* ================================================================== *)

(** ** The allocator between [qmem_init] and [qmem_clear] *)

(** the invariant of the pool, with what [qmem_init] leaves in [cur_mem] *)
Definition pool_ok (a : arena) : Prop :=
  arena_inv a /\ qmem.cur_mem (pool a) = 2 * qmem.page_size.

(** every page as one free block *)
Definition pages_as_blocks (v : qmem.vars) : list (Z * qmem.ptr) :=
  map (fun pg => (snd pg, (fst pg, 0))) (qmem.pages v).

(** the pool after [qmem_init]: the two static pages, both free *)
Definition fresh_pool (top : nat) (generation : Z) : qmem.vars :=
  qmem.mk_vars
    [(qmem.static_memory 0, qmem.page_size); (qmem.static_memory 1, qmem.page_size)]
    (2 * qmem.page_size) 0 qmem.st_inited
    [(qmem.page_size, (qmem.static_memory 0, 0));
     (qmem.page_size, (qmem.static_memory 1, 0))]
    top generation.

(** the largest request that [alloc_at_least] serves in an initialised
    pool: [max_mem] less the two static pages *)
Definition max_request : Z := qmem.max_mem - 2 * qmem.page_size.

(** a run that takes two pages of 100 MiB *)
Definition big_pages_ops : list arena_op :=
  [op_allocate 104857600; op_allocate 104857600].

(** ** Sequences of appends to a string buffer *)

Fixpoint str_buf_appends (v : qmem.vars) (b : str_buf_t) (rs : list data_reader_t)
  : option (str_buf_t * qmem.vars) :=
  match rs with
  | [] => Some (b, v)
  | r :: rs' => do (b, v) <- str_buf_append v b r; str_buf_appends v b rs'
  end.

(** what a list of readers delivers, one after the other *)
Definition readers_text (rs : list data_reader_t) : string :=
  fold_right String.append EmptyString rs.

(** the buffer holds [len] bytes, the length of its contents, and
    [buf_len] is an [int] *)
Definition str_buf_wf (b : str_buf_t) : Prop :=
  len b = Z.of_nat (String.length (contents b)) /\ buf_len b <= INT_MAX.


(** ** Replies of a memcached server, fragment by fragment *)

Fixpoint mc_deliver_all (fs : list mc_fragment) (v : qmem.vars)
         (self : mc_ansgen_packet.t) : option (mc_ansgen_packet.t * qmem.vars) :=
  match fs with
  | [] => Some (self, v)
  | f :: fs' => do (self, v) <- mc_deliver f v self; mc_deliver_all fs' v self
  end.

(** the replies a server sends: values closed by [END], the answer to a
    store, any other line, the version *)
Inductive mc_reply : Type :=
| reply_get (values : list data_reader_t)
| reply_store (is_stored : bool)
| reply_other (reader : data_reader_t)
| reply_version (reader : data_reader_t).

Definition reply_fragments (rp : mc_reply) : list mc_fragment :=
  match rp with
  | reply_get values => map frag_value values ++ [frag_end]
  | reply_store is_stored => [frag_xstored is_stored]
  | reply_other reader => [frag_other reader]
  | reply_version reader => [frag_version reader]
  end.

Definition reply_kind (rp : mc_reply) : mc_ansgen_packet_state_t :=
  match rp with
  | reply_get _ => ap_get
  | reply_store _ => ap_store
  | reply_other _ => ap_other
  | reply_version _ => ap_version
  end.

(** the fragments after which the generator is done *)
Definition finalizes (f : mc_fragment) : bool :=
  match f with frag_value _ => false | _ => true end.

(** the generator [self] once its reply is complete, with the buffer [sb] *)
Definition finalized (self : mc_ansgen_packet.t) (kind : mc_ansgen_packet_state_t)
           (sb : str_buf_t) : mc_ansgen_packet.t :=
  let b := mc_ansgen_packet.base self in
  mc_ansgen_packet.mk
    (net_ansgen.mk (net_ansgen.qmem_req_generation b) st_ansgen_done
       (answer.mk nq_ok (Some (contents sb)) (len sb)
                  (answer.desc (net_ansgen.ans b))))
    kind sb.

(** ** net queries *)

(** the one value of [net_query_type_t] that this file uses *)
Inductive net_query_type_t : Type := nq_rpc_send.

(** the fields of [net_query_t] that this file writes; [request] is the
    address of the request or [None] for a null pointer *)
Module net_query.
Record t : Type := mk {
  type : net_query_type_t;
  slot_id : Z;
  host_num : Z;
  request : option Z;
  request_size : Z;
  timeout_ms : Z
}.

Definition set_type (x : net_query_type_t) (e : t) : t :=
  mk x (slot_id e) (host_num e) (request e) (request_size e) (timeout_ms e).

Definition set_slot_id (x : Z) (e : t) : t :=
  mk (type e) x (host_num e) (request e) (request_size e) (timeout_ms e).

Definition set_host_num (x : Z) (e : t) : t :=
  mk (type e) (slot_id e) x (request e) (request_size e) (timeout_ms e).

Definition set_request (x : option Z) (e : t) : t :=
  mk (type e) (slot_id e) (host_num e) x (request_size e) (timeout_ms e).

Definition set_request_size (x : Z) (e : t) : t :=
  mk (type e) (slot_id e) (host_num e) (request e) x (timeout_ms e).

Definition set_timeout_ms (x : Z) (e : t) : t :=
  mk (type e) (slot_id e) (host_num e) (request e) (request_size e) x.
End net_query.

(** [static StaticQueue<net_query_t, 2000000> net_queries] *)
Definition net_queries_N : Z := 2000000.

Definition net_queries_t : Type := StaticQueue.t net_query.t.

Definition net_events_empty (net_events : net_events_t) : bool :=
  StaticQueue.empty net_events.

Definition create_net_query (net_queries : net_queries_t) (ty : net_query_type_t)
  : option Z * net_queries_t :=
  match StaticQueue.create net_queries_N net_queries with
  | (None, net_queries) => (None, net_queries)
  | (Some query, net_queries) =>
      (Some query, StaticQueue.update query (net_query.set_type ty) net_queries)
  end.

Definition unalloc_net_query (query : Z) (net_queries : net_queries_t)
  : option net_queries_t :=
  StaticQueue.undo_create net_queries_N query net_queries.

Definition pop_net_query (net_queries : net_queries_t)
  : option Z * net_queries_t :=
  StaticQueue.pop net_queries_N net_queries.

Definition engine_pop_net_event (net_events : net_events_t)
  : option Z * net_events_t :=
  StaticQueue.pop net_events_N net_events.

(** returns the slot, or [-1] *)
Definition engine_rpc_send_query (s : slots) (net_queries : net_queries_t)
           (host_num : Z) (request : option Z) (request_size timeout_ms : Z)
  : option (Z * slots * net_queries_t) :=
  match create_net_query net_queries nq_rpc_send with
  | (None, net_queries) => Some (-1, s, net_queries)
  | (Some query, net_queries) =>
      let '(id, s) := create_slot s in
      let net_queries :=
        StaticQueue.update query (net_query.set_slot_id id) net_queries in
      if net_query.slot_id (StaticQueue.q net_queries query) =? -1
      then
        do net_queries <- unalloc_net_query query net_queries;
        Some (-1, s, net_queries)
      else
        let net_queries :=
          StaticQueue.update query (net_query.set_host_num host_num) net_queries in
        let net_queries :=
          StaticQueue.update query (net_query.set_request request) net_queries in
        let net_queries :=
          StaticQueue.update query (net_query.set_request_size request_size)
                             net_queries in
        let net_queries :=
          StaticQueue.update query (net_query.set_timeout_ms timeout_ms)
                             net_queries in
        Some (net_query.slot_id (StaticQueue.q net_queries query), s, net_queries)
  end.

(** a query queue of three records with two queries waiting, [end] on
    the last element *)
Definition example_query : net_query.t :=
  net_query.mk nq_rpc_send 0 0 None 0 0.

(** ** The state of the file between requests *)

(** the static variables of the allocator, the slot window and the two
    queues *)
Record engine_state : Type := mk_engine_state {
  e_qmem : qmem.vars;
  e_slots : slots;
  e_net_events : net_events_t;
  e_net_queries : net_queries_t
}.

Definition php_queries_start (st : engine_state) : option engine_state :=
  do v <- qmem_init (e_qmem st);
  Some (mk_engine_state v (e_slots st) (e_net_events st) (e_net_queries st)).

(** [r] is what [lrand48] returns if [clear_slots] calls [init_slots] *)
Definition php_queries_finish (r : Z) (st : engine_state) : option engine_state :=
  do v <- qmem_clear (e_qmem st);
  let s := clear_slots r (e_slots st) in
  let net_events := StaticQueue.clear (e_net_events st) in
  let net_queries := StaticQueue.clear (e_net_queries st) in
  Some (mk_engine_state v s net_events net_queries).

(** the window is within the slot range *)
Definition slots_wf (s : slots) : Prop :=
  1 <= begin_slot_id s <= end_slot_id s /\ end_slot_id s <= max_slot_id + 1.

(** ** chain *)

Definition block_eqb (a b : qmem.block) : bool :=
  match a, b with
  | qmem.static_memory i, qmem.static_memory j => Nat.eqb i j
  | qmem.heap i, qmem.heap j => Nat.eqb i j
  | _, _ => false
  end.

(** [a == b] on pointers *)
Definition ptr_eqb (a b : qmem.ptr) : bool :=
  block_eqb (fst a) (fst b) && (snd a =? snd b).

(** [chain_t]: a node of a circular list with both links.  [data] are
    the bytes [buf[0 .. len)]. *)
Module chain.
Record t : Type := mk {
  next : qmem.ptr;
  prev : qmem.ptr;
  buf : qmem.ptr;
  len : Z;
  data : string
}.

Definition set_next (x : qmem.ptr) (n : t) : t :=
  mk x (prev n) (buf n) (len n) (data n).

Definition set_prev (x : qmem.ptr) (n : t) : t :=
  mk (next n) x (buf n) (len n) (data n).

Definition set_buf (x : qmem.ptr) (n : t) : t :=
  mk (next n) (prev n) x (len n) (data n).

Definition set_len (x : Z) (n : t) : t :=
  mk (next n) (prev n) (buf n) x (data n).

Definition set_data (x : string) (n : t) : t :=
  mk (next n) (prev n) (buf n) (len n) x.
End chain.

(** The nodes in memory, by their address.  What is read at an address
    that was never written is whatever the memory holds there. *)
Definition chain_mem : Type := qmem.ptr -> chain.t.

(** [p->field = ...] *)
Definition chain_write (p : qmem.ptr) (f : chain.t -> chain.t) (mem : chain_mem)
  : chain_mem :=
  fun q => if ptr_eqb q p then f (mem p) else mem q.

Definition chain_conn (a b : qmem.ptr) (mem : chain_mem) : chain_mem :=
  let mem := chain_write a (chain.set_next b) mem in
  chain_write b (chain.set_prev a) mem.

(** [sizeof_chain] is the size of [chain_t], declared in a header *)
Definition chain_create (sizeof_chain : Z) (v : qmem.vars) (mem : chain_mem)
  : option (qmem.ptr * qmem.vars * chain_mem) :=
  do (chain, v) <- qmem_malloc sizeof_chain v;
  let mem := chain_conn chain chain mem in
  Some (chain, v, mem).

Definition chain_append (sizeof_chain : Z) (chain : qmem.ptr)
           (reader : data_reader_t) (v : qmem.vars) (mem : chain_mem)
  : option (qmem.vars * chain_mem) :=
  do (node, v) <- qmem_malloc sizeof_chain v;
  do (b, v) <- qmem_malloc (size_of_int (reader_len reader)) v;
  let mem := chain_write node (chain.set_buf b) mem in
  let mem := chain_write node (chain.set_len (reader_len reader)) mem in
  let mem := chain_write node (chain.set_data reader) mem in
  let mem := chain_conn (chain.prev (mem chain)) node mem in
  let mem := chain_conn node chain mem in
  Some (v, mem).

Fixpoint chain_appends (sizeof_chain : Z) (chain : qmem.ptr)
         (rs : list data_reader_t) (v : qmem.vars) (mem : chain_mem)
  : option (qmem.vars * chain_mem) :=
  match rs with
  | [] => Some (v, mem)
  | r :: rs' =>
      do (v, mem) <- chain_append sizeof_chain chain r v mem;
      chain_appends sizeof_chain chain rs' v mem
  end.

(** The loop of [engine_sql_run_query], from the node [cur] on: the
    arguments of the calls of [callback], in order.  The loop ends when
    it is back at [chain]; [fuel] bounds the number of tests of the loop
    condition. *)
Fixpoint chain_callbacks (fuel : nat) (mem : chain_mem) (chain cur : qmem.ptr)
  : option (list (string * Z)) :=
  match fuel with
  | O => None
  | S fuel' =>
      if negb (ptr_eqb cur chain)
      then
        do rest <- chain_callbacks fuel' mem chain (chain.next (mem cur));
        Some ((chain.data (mem cur), chain.len (mem cur)) :: rest)
      else Some []
  end.

(** the branch of [engine_sql_run_query] for an answer that is no error *)
Definition engine_sql_run_query_ok (fuel : nat) (mem : chain_mem)
           (chain : option qmem.ptr) : option (list (string * Z)) :=
  match chain with
  | None => None
  | Some chain => chain_callbacks fuel mem chain (chain.next (mem chain))
  end.

(** the nodes [ns] with the packets [rs] are linked from [from] to [to] *)
Fixpoint linked (mem : chain_mem) (from : qmem.ptr) (ns : list qmem.ptr)
         (rs : list data_reader_t) (to : qmem.ptr) : Prop :=
  match ns, rs with
  | [], [] => chain.next (mem from) = to
  | n :: ns', r :: rs' =>
      chain.next (mem from) = n /\
      chain.data (mem n) = r /\ chain.len (mem n) = reader_len r /\
      linked mem n ns' rs' to
  | _, _ => False
  end.

(** a memory for the examples *)
Definition example_chain_mem : chain_mem :=
  fun _ => chain.mk (qmem.static_memory 0, 0) (qmem.static_memory 0, 0)
                    (qmem.static_memory 0, 0) 0 EmptyString.

(** the chain with head [chain] holds the nodes [ns] with the packets
    [rs], every node in a block of its own that is in use *)
Definition chain_ok (sizeof_chain : Z) (a : arena) (mem : chain_mem)
           (chain : qmem.ptr) (ns : list qmem.ptr) (rs : list data_reader_t)
  : Prop :=
  arena_inv a /\
  linked mem chain ns rs chain /\
  chain.prev (mem chain) = last ns chain /\
  NoDup (chain :: ns) /\
  Forall (fun n => In (n, sizeof_chain) (live a)) (chain :: ns).

(** what [callback] is called with for the packets [rs] *)
Definition packets (rs : list data_reader_t) : list (string * Z) :=
  map (fun r => (r, reader_len r)) rs.

(** ** sql answer generator *)

Inductive sql_ansgen_packet_state_t : Type :=
| sql_ap_init
| sql_ap_wait_conn
| sql_ap_wait_ans.

(** [ans_chain] is the field [chain] of the answer [base.ans], which only
    this generator writes; [writer] is the address of the command, or
    [None] for a null pointer. *)
Module sql_ansgen_packet.
Record t : Type := mk {
  base : net_ansgen.t;
  ans_chain : option qmem.ptr;
  state : sql_ansgen_packet_state_t;
  writer : option Z;
  chain : qmem.ptr
}.
End sql_ansgen_packet.

Definition is_sql_ap (s expected : sql_ansgen_packet_state_t) : bool :=
  match s, expected with
  | sql_ap_init, sql_ap_init
  | sql_ap_wait_conn, sql_ap_wait_conn
  | sql_ap_wait_ans, sql_ap_wait_ans => true
  | _, _ => false
  end.

Definition sql_ansgen_packet_set_writer (self : sql_ansgen_packet.t)
           (writer : option Z) : option sql_ansgen_packet.t :=
  do _ <- assert (is_wait (net_ansgen.state (sql_ansgen_packet.base self)));
  do _ <- assert (is_sql_ap (sql_ansgen_packet.state self) sql_ap_init);
  Some (sql_ansgen_packet.mk (sql_ansgen_packet.base self)
          (sql_ansgen_packet.ans_chain self) sql_ap_wait_conn writer
          (sql_ansgen_packet.chain self)).

(** [writer->run (writer, data)] sends the query; what it does is
    outside this file *)
Definition sql_ansgen_packet_ready (self : sql_ansgen_packet.t)
  : option sql_ansgen_packet.t :=
  do _ <- assert (is_wait (net_ansgen.state (sql_ansgen_packet.base self)));
  do _ <- assert (is_sql_ap (sql_ansgen_packet.state self) sql_ap_wait_conn);
  Some (sql_ansgen_packet.mk (sql_ansgen_packet.base self)
          (sql_ansgen_packet.ans_chain self) sql_ap_wait_ans
          (sql_ansgen_packet.writer self) (sql_ansgen_packet.chain self)).

Definition sql_ansgen_packet_add_packet (sizeof_chain : Z) (v : qmem.vars)
           (mem : chain_mem) (self : sql_ansgen_packet.t) (reader : data_reader_t)
  : option (sql_ansgen_packet.t * qmem.vars * chain_mem) :=
  do _ <- assert (is_wait (net_ansgen.state (sql_ansgen_packet.base self)));
  do _ <- assert (is_sql_ap (sql_ansgen_packet.state self) sql_ap_wait_ans);
  if net_ansgen_is_alive (sql_ansgen_packet.base self) v
  then
    do (v, mem) <-
      chain_append sizeof_chain (sql_ansgen_packet.chain self) reader v mem;
    Some (self, v, mem)
  else Some (self, v, mem).

Definition sql_ansgen_packet_done (v : qmem.vars) (self : sql_ansgen_packet.t)
  : option sql_ansgen_packet.t :=
  do _ <- assert (is_wait (net_ansgen.state (sql_ansgen_packet.base self)));
  do _ <- assert (is_sql_ap (sql_ansgen_packet.state self) sql_ap_wait_ans);
  let b := sql_ansgen_packet.base self in
  let a := net_ansgen.ans b in
  let '(a, ans_chain) :=
    if net_ansgen_is_alive b v
    then (answer.mk nq_ok (answer.res a) (answer.res_len a) (answer.desc a),
          Some (sql_ansgen_packet.chain self))
    else (a, sql_ansgen_packet.ans_chain self) in
  Some (sql_ansgen_packet.mk
          (net_ansgen.mk (net_ansgen.qmem_req_generation b) st_ansgen_done a)
          ans_chain (sql_ansgen_packet.state self)
          (sql_ansgen_packet.writer self) (sql_ansgen_packet.chain self)).

(** [zeroed] is the answer that [qmem_malloc0] leaves, as for
    [mc_ansgen_packet_create]; its field [chain] is a null pointer. *)
Definition sql_ansgen_packet_create (sizeof_answer sizeof_chain : Z)
           (zeroed : answer.t) (v : qmem.vars) (mem : chain_mem)
  : option (sql_ansgen_packet.t * qmem.vars * chain_mem) :=
  let generation := qmem.qmem_generation v in
  do (_, v) <- qmem_malloc0 sizeof_answer v;
  do (c, v, mem) <- chain_create sizeof_chain v mem;
  Some (sql_ansgen_packet.mk
          (net_ansgen.mk generation st_ansgen_wait zeroed) None
          sql_ap_init None c,
        v, mem).

(** the calls of the engine, one per entry of the table of
    [get_sql_ansgen_functions] *)
Inductive sql_call : Type :=
| sql_set_writer (writer : option Z)
| sql_ready
| sql_packet (reader : data_reader_t)
| sql_done.

Definition sql_deliver (sizeof_chain : Z) (c : sql_call) (v : qmem.vars)
           (mem : chain_mem) (self : sql_ansgen_packet.t)
  : option (sql_ansgen_packet.t * qmem.vars * chain_mem) :=
  match c with
  | sql_set_writer writer =>
      do self <- sql_ansgen_packet_set_writer self writer; Some (self, v, mem)
  | sql_ready => do self <- sql_ansgen_packet_ready self; Some (self, v, mem)
  | sql_packet reader => sql_ansgen_packet_add_packet sizeof_chain v mem self reader
  | sql_done => do self <- sql_ansgen_packet_done v self; Some (self, v, mem)
  end.

Fixpoint sql_deliver_all (sizeof_chain : Z) (cs : list sql_call) (v : qmem.vars)
         (mem : chain_mem) (self : sql_ansgen_packet.t)
  : option (sql_ansgen_packet.t * qmem.vars * chain_mem) :=
  match cs with
  | [] => Some (self, v, mem)
  | c :: cs' =>
      do (sv, mem) <- sql_deliver sizeof_chain c v mem self;
      sql_deliver_all sizeof_chain cs' (snd sv) mem (fst sv)
  end.

(** the calls of a query that is answered with the packets [rs] *)
Definition sql_query_calls (writer : option Z) (rs : list data_reader_t)
  : list sql_call :=
  sql_set_writer writer :: sql_ready :: map sql_packet rs ++ [sql_done].

Definition is_set_writer (c : sql_call) : bool :=
  match c with sql_set_writer _ => true | _ => false end.

(** ** [engine_mc_run_query], from the answer on *)

(** [res] is the answer that [php_net_query_packet] returned, and
    [callback_given] tells whether [callback] is not null.  The result
    is [last_net_error] after the call and the arguments of the call of
    [callback], if it is called; the message written to [stderr] is left
    out. *)
Definition engine_mc_run_query (res : answer.t) (callback_given : bool)
           (last_net_error : list ascii)
  : option (list ascii * option (string * Z)) :=
  match answer.state res with
  | nq_error =>
      do e <- save_last_net_error
                (option_map list_ascii_of_string (answer.res res)) last_net_error;
      Some (e, None)
  | nq_ok =>
      do _ <- assert (match answer.res res with Some _ => true | None => false end);
      match answer.res res with
      | Some s =>
          Some (last_net_error,
                if callback_given then Some (s, answer.res_len res) else None)
      | None => None
      end
  end.

(** the text of a reply: what its fragments add to the buffer *)
Definition reply_text (rp : mc_reply) : string :=
  readers_text (map payload (reply_fragments rp)).

(** ** [qmem_pstr] *)

(** [formatted] is the text that the format and its arguments produce,
    as [vsnprintf] computes it: it stores at most [maxlen - 1] bytes of
    the text in [s] and returns the length of the whole text, an [int]
    (for a longer text it fails, and what follows is undefined: [None]).
    The result is the address of the copy and its bytes up to the
    terminator. *)
Definition qmem_pstr (formatted : string) (v : qmem.vars)
  : option (qmem.ptr * string * qmem.vars) :=
  let maxlen := 5000 in
  let s := substring 0 (Z.to_nat (maxlen - 1)) formatted in
  let len := reader_len formatted in
  do _ <- assert (int_range len);
  let len := if len >=? maxlen then maxlen - 1 else len in
  do (res, v) <- qmem_malloc (size_of_int (len + 1)) v;
  Some (res, substring 0 (Z.to_nat len) s, v).
(* ================================================================== *)
(** * Part II: properties                                              *)
(* ================================================================== *)

(** ** The allocator *)

Lemma sum_Z_app l1 l2 : sum_Z (l1 ++ l2) = sum_Z l1 + sum_Z l2.
Proof. induction l1; simpl; lia. Qed.

Lemma sum_Z_perm l1 l2 : Permutation l1 l2 -> sum_Z l1 = sum_Z l2.
Proof. induction 1; simpl; lia. Qed.

Lemma multimap_insert_perm e m :
  Permutation (qmem.multimap_insert e m) (e :: m).
Proof.
  induction m as [|x m IH]; simpl; [reflexivity|].
  destruct (fst e <? fst x); [reflexivity|].
  rewrite IH. apply perm_swap.
Qed.

Lemma lower_bound_some n m e :
  qmem.lower_bound n m = Some e ->
  n <= fst e /\ Permutation m (e :: qmem.erase_lower_bound n m).
Proof.
  induction m as [|x m IH]; simpl; [discriminate|].
  destruct (n <=? fst x) eqn:E.
  - intros [= <-]. split; [lia | reflexivity].
  - intros H. destruct (IH H) as [Hn Hp]. split; [exact Hn|].
    rewrite Hp at 1. apply perm_swap.
Qed.

Lemma lower_bound_none n m :
  qmem.lower_bound n m = None <-> Forall (fun e => fst e < n) m.
Proof.
  induction m as [|x m IH]; simpl.
  - split; auto.
  - destruct (n <=? fst x) eqn:E.
    + split; [discriminate|]. intros H. inversion H; subst. lia.
    + rewrite IH. split.
      * intros H. constructor; [lia | exact H].
      * intros H. inversion H; assumption.
Qed.


(** The list stays in key order, and [lower_bound] is the best fit: the
    first entry with the least key that is not less than [n]. *)
Lemma multimap_insert_sorted e m :
  qmem.keys_sorted m -> qmem.keys_sorted (qmem.multimap_insert e m).
Proof.
  unfold qmem.keys_sorted. induction 1 as [|x m S IH F]; simpl.
  - constructor; constructor.
  - destruct (Z.ltb_spec (fst e) (fst x)) as [L|G].
    + constructor; [constructor; assumption|].
      constructor; [lia|]. eapply Forall_impl; [|exact F].
      intros y Hy. simpl in Hy. lia.
    + constructor; [exact IH|].
      eapply Permutation_Forall; [symmetry; apply multimap_insert_perm|].
      constructor; [lia | exact F].
Qed.

Lemma erase_lower_bound_sorted n m :
  qmem.keys_sorted m -> qmem.keys_sorted (qmem.erase_lower_bound n m).
Proof.
  unfold qmem.keys_sorted. induction 1 as [|x m S IH F]; simpl.
  - constructor.
  - destruct (n <=? fst x); [exact S|].
    constructor; [exact IH|].
    destruct (qmem.lower_bound n m) as [e|] eqn:E.
    + destruct (lower_bound_some _ _ _ E) as [_ P].
      pose proof (Permutation_Forall P F) as F'. inversion F'; assumption.
    + assert (Same : qmem.erase_lower_bound n m = m).
      { apply lower_bound_none in E. clear - E.
        induction m as [|y m IHm]; simpl; [reflexivity|].
        inversion E; subst.
        destruct (Z.leb_spec n (fst y)); [lia|]. rewrite IHm; auto. }
      rewrite Same. exact F.
Qed.

Lemma lower_bound_best_fit n m e :
  qmem.keys_sorted m -> qmem.lower_bound n m = Some e ->
  n <= fst e /\ forall x, In x m -> n <= fst x -> fst e <= fst x.
Proof.
  unfold qmem.keys_sorted. induction 1 as [|y m S IH F]; simpl; [discriminate|].
  destruct (Z.leb_spec n (fst y)) as [L|G].
  - intros [= <-]. split; [exact L|].
    intros x [<-|Hx] _; [lia|]. rewrite Forall_forall in F. exact (F x Hx).
  - intros H. destruct (IH H) as [H1 H2]. split; [exact H1|].
    intros x [<-|Hx] Hn; [lia | exact (H2 x Hx Hn)].
Qed.

Lemma disjoint_sym a b : disjoint a b -> disjoint b a.
Proof. unfold disjoint. intros [H|[H|H]]; auto. Qed.

Lemma pairwise_disjoint_perm l l' :
  Permutation l l' -> pairwise_disjoint l -> pairwise_disjoint l'.
Proof.
  induction 1; simpl.
  - auto.
  - intros [H1 H2]. split; [eapply Permutation_Forall; eauto | auto].
  - intros [H1 [H2 H3]]. inversion H1; subst.
    repeat split; auto. constructor; auto using disjoint_sym.
  - auto.
Qed.

Lemma pairwise_disjoint_app_r l1 l2 :
  pairwise_disjoint (l1 ++ l2) -> pairwise_disjoint l2.
Proof. induction l1; simpl; [auto | intros [_ H]; auto]. Qed.

Lemma disjoint_no_overlap a b : disjoint a b -> ~ overlap a b.
Proof.
  unfold disjoint, overlap, in_allocation.
  intros H [x [[Ha1 Ha2] [Hb1 Hb2]]].
  destruct H as [H|[H|H]]; [congruence | lia | lia].
Qed.

Lemma pairwise_disjoint_nth l :
  pairwise_disjoint l ->
  forall i j a b, (i < j)%nat -> nth_error l i = Some a -> nth_error l j = Some b ->
                  disjoint a b.
Proof.
  induction l as [|x l IH]; simpl; intros H i j a b Hij Ha Hb.
  - destruct i; discriminate.
  - destruct H as [H1 H2]. destruct j as [|j]; [lia|].
    destruct i as [|i]; simpl in *.
    + injection Ha as <-. rewrite Forall_forall in H1.
      apply H1. eapply nth_error_In; eauto.
    + apply (IH H2 i j); auto; lia.
Qed.

Lemma pairwise_disjoint_no_two_overlap l :
  pairwise_disjoint l -> no_two_overlap l.
Proof.
  intros H i j a b Hij Ha Hb.
  destruct (Nat.lt_ge_cases i j) as [L|L].
  - apply disjoint_no_overlap. eapply pairwise_disjoint_nth; eauto.
  - intros O. apply (@disjoint_no_overlap b a).
    + eapply pairwise_disjoint_nth with (i:=j) (j:=i); eauto. lia.
    + destruct O as [x [? ?]]. exists x; auto.
Qed.

Lemma within_more pages extra r :
  within pages r -> within (pages ++ extra) r.
Proof.
  intros [sz [H1 H2]]. exists sz. split; [apply in_or_app; auto | exact H2].
Qed.

Lemma known_not_top pages top :
  Forall (fun pg : qmem.block * Z => block_known top (fst pg)) pages ->
  ~ In (qmem.heap top) (map fst pages).
Proof.
  intros H Hin. apply in_map_iff in Hin. destruct Hin as [pg [E Hpg]].
  rewrite Forall_forall in H. specialize (H pg Hpg). rewrite E in H.
  simpl in H. lia.
Qed.

Lemma fresh_disjoint pages b (r r' : allocation) :
  within pages r -> ~ In b (map fst pages) -> fst (fst r') = b -> disjoint r' r.
Proof.
  intros [sz [Hin _]] Hb E. unfold disjoint. left. intros EQ.
  apply Hb. apply in_map_iff. exists (fst (fst r), sz).
  split; [exact (eq_trans (eq_sym EQ) E) | exact Hin].
Qed.

Lemma total_bound (pages : list (qmem.block * Z)) :
  Forall (fun pg => 0 < snd pg <= qmem.max_mem) pages ->
  0 <= sum_Z (map snd pages) <= Z.of_nat (length pages) * qmem.max_mem.
Proof.
  induction 1 as [|pg l H _ IH]; simpl length; simpl map; simpl sum_Z; [lia|].
  rewrite Nat2Z.inj_succ. lia.
Qed.

Lemma max_mem_val : qmem.max_mem = 134217728.
Proof. reflexivity. Qed.

Lemma page_size_val : qmem.page_size = 4194304.
Proof. reflexivity. Qed.

Lemma SIZE_MOD_val : SIZE_MOD = 18446744073709551616.
Proof. reflexivity. Qed.

Lemma total_small a :
  arena_inv a -> 0 <= total_reserved_bytes (pool a) <= 1000 * qmem.max_mem.
Proof.
  intros I. unfold total_reserved_bytes.
  pose proof (total_bound _ (inv_page_sizes _ I)) as B.
  pose proof (inv_pages_n _ I) as L. unfold qmem.max_pages_n in L.
  rewrite max_mem_val in *. lia.
Qed.

Lemma free_sizes_nonneg pages (m : list (Z * qmem.ptr)) :
  Forall (within pages) (map (fun e => (snd e, fst e)) m) ->
  Forall (fun e => 0 <= fst e) m.
Proof.
  rewrite Forall_map. apply Forall_impl. intros e [sz [_ [_ [H _]]]]. exact H.
Qed.

Lemma sum_nonneg (l : list Z) : Forall (fun x => 0 <= x) l -> 0 <= sum_Z l.
Proof. induction 1; simpl; lia. Qed.

Lemma size_add_small a b : 0 <= a + b < SIZE_MOD -> size_add a b = a + b.
Proof. intros H. unfold size_add. apply Z.mod_small. exact H. Qed.

Lemma pairwise_disjoint_app l1 l2 :
  pairwise_disjoint l1 -> pairwise_disjoint l2 ->
  (forall a b, In a l1 -> In b l2 -> disjoint a b) ->
  pairwise_disjoint (l1 ++ l2).
Proof.
  induction l1 as [|x l1 IH]; simpl; intros H1 H2 H; [exact H2|].
  destruct H1 as [Hx H1]. split.
  - apply Forall_app. split; [exact Hx|].
    apply Forall_forall. intros b Hb. apply H; auto.
  - apply IH; auto.
Qed.

Lemma alloc_at_least_some n use v p v' :
  qmem.alloc_at_least n use v = Some (p, v') ->
  qmem.pages_n v <> qmem.max_pages_n /\
  Z.max n qmem.page_size <= qmem.max_mem /\
  p = (qmem.heap (qmem.heap_top v), 0) /\
  v' = qmem.mk_vars
         (qmem.pages v ++ [(qmem.heap (qmem.heap_top v), Z.max n qmem.page_size)])
         (qmem.cur_mem v) (qmem.used_mem v) (qmem.state v)
         (if use <? Z.max n qmem.page_size
          then qmem.multimap_insert
                 (Z.max n qmem.page_size - use, (qmem.heap (qmem.heap_top v), 0 + use))
                 (qmem.left v)
          else qmem.left v)
         (S (qmem.heap_top v)) (qmem.qmem_generation v).
Proof.
  unfold qmem.alloc_at_least.
  assert (E : (if n >=? qmem.page_size then n else qmem.page_size)
              = Z.max n qmem.page_size).
  { destruct (n >=? qmem.page_size) eqn:C; lia. }
  rewrite E. clear E.
  destruct (Nat.eqb (qmem.pages_n v) qmem.max_pages_n) eqn:C1; [discriminate|].
  destruct (Z.max n qmem.page_size >? qmem.max_mem) eqn:C2; [discriminate|].
  simpl orb.
  destruct (size_add (Z.max n qmem.page_size) (qmem.cur_mem v) >? qmem.max_mem);
    [discriminate|].
  apply Nat.eqb_neq in C1.
  cbv zeta. unfold qmem.malloc.
  destruct (use <? Z.max n qmem.page_size); intros [= <- <-];
    (split; [exact C1 | split; [lia | split; reflexivity]]).
Qed.

(** A new page [b] of [A] bytes whose first [use] bytes are handed out
    ([extra]) keeps the invariant. *)
Lemma inv_new_page a A use cur gen extra used' :
  arena_inv a ->
  used' = qmem.used_mem (pool a) + sum_Z (map snd extra) ->
  length (qmem.pages (pool a)) <> qmem.max_pages_n ->
  0 < A <= qmem.max_mem -> 0 <= use <= A ->
  let b := qmem.heap (qmem.heap_top (pool a)) in
  extra = [((b, 0), use)] \/ (extra = [] /\ use = 0) ->
  arena_inv
    (mk_arena
       (qmem.mk_vars
          (qmem.pages (pool a) ++ [(b, A)]) cur used'
          (qmem.state (pool a))
          (if use <? A
           then qmem.multimap_insert (A - use, (b, 0 + use)) (qmem.left (pool a))
           else qmem.left (pool a))
          (S (qmem.heap_top (pool a))) gen)
       (extra ++ live a)).
Proof.
  intros I -> Hn HA Hu b Hextra.
  pose proof (known_not_top _ _ (inv_known _ I)) as Hfresh. fold b in Hfresh.
  set (fresh := if use <? A then [((b, 0 + use), A - use)] else [] : list allocation).
  assert (Hperm : Permutation
            (map (fun e : Z * qmem.ptr => (snd e, fst e))
               (if use <? A
                then qmem.multimap_insert (A - use, (b, 0 + use)) (qmem.left (pool a))
                else qmem.left (pool a)) ++ extra ++ live a)
            ((fresh ++ extra) ++ ranges a)).
  { unfold ranges, free_ranges, fresh. destruct (use <? A).
    - rewrite (Permutation_map _ (multimap_insert_perm _ _)). simpl.
      apply perm_skip. rewrite !app_assoc. apply Permutation_app_tail.
      apply Permutation_app_comm.
    - simpl. rewrite !app_assoc. apply Permutation_app_tail.
      apply Permutation_app_comm. }
  assert (Hnew : forall r, In r (fresh ++ extra) ->
                           fst (fst r) = b /\ within [(b, A)] r).
  { intros r Hr. apply in_app_or in Hr. destruct Hr as [Hr|Hr].
    - unfold fresh in Hr. destruct (use <? A) eqn:C; [|destruct Hr].
      destruct Hr as [<-|[]]. split; [reflexivity|].
      exists A. simpl. split; [auto | lia].
    - destruct Hextra as [->|[-> _]]; [|destruct Hr].
      destruct Hr as [<-|[]]. split; [reflexivity|].
      exists A. simpl. split; [auto | lia]. }
  constructor; simpl.
  - exact (inv_state _ I).
  - rewrite length_app. simpl. pose proof (inv_pages_n _ I). lia.
  - apply Forall_app. split; [exact (inv_page_sizes _ I)|].
    constructor; [simpl; lia | constructor].
  - rewrite map_app. simpl.
    apply (Permutation_NoDup (l := b :: map fst (qmem.pages (pool a)))).
    + apply Permutation_cons_append.
    + constructor; [exact Hfresh | exact (inv_nodup _ I)].
  - apply Forall_app. split.
    + eapply Forall_impl; [|exact (inv_known _ I)].
      intros pg. simpl. destruct (fst pg); simpl; auto.
    + constructor; [simpl; lia | constructor].
  - unfold ranges, free_ranges. simpl.
    eapply Permutation_Forall; [symmetry; exact Hperm|].
    apply Forall_app. split.
    + apply Forall_forall. intros r Hr. destruct (Hnew r Hr) as [_ [sz [H1 H2]]].
      exists sz. split; [apply in_or_app; right; exact H1 | exact H2].
    + eapply Forall_impl; [|exact (inv_within _ I)].
      intros r. apply within_more.
  - unfold ranges, free_ranges. simpl.
    eapply pairwise_disjoint_perm; [symmetry; exact Hperm|].
    apply pairwise_disjoint_app.
    + unfold fresh. destruct (use <? A) eqn:C; destruct Hextra as [->|[-> ->]];
        simpl; repeat split; auto.
      constructor; [|constructor]. unfold disjoint. simpl. right. right. lia.
    + exact (inv_disjoint _ I).
    + intros r1 r2 H1 H2. destruct (Hnew r1 H1) as [Hb _].
      pose proof (inv_within _ I) as W. rewrite Forall_forall in W.
      eapply fresh_disjoint; [apply W; exact H2 | exact Hfresh | exact Hb].
  - pose proof (inv_used _ I). destruct Hextra as [->|[-> ->]]; simpl; lia.
  - pose proof (inv_account _ I) as Acc.
    unfold free_bytes, total_reserved_bytes in *. simpl.
    rewrite map_app, sum_Z_app. simpl.
    destruct (use <? A) eqn:C.
    + rewrite (sum_Z_perm _ _ (Permutation_map fst (multimap_insert_perm _ _))).
      simpl. destruct Hextra as [->|[-> ->]]; simpl; lia.
    + destruct Hextra as [->|[-> ->]]; simpl; lia.
  - destruct (use <? A); [apply multimap_insert_sorted|]; exact (inv_sorted _ I).
Qed.

(** Cutting [n] bytes off the front of a free block keeps the invariant. *)
Lemma inv_split a n sz p :
  arena_inv a -> 0 <= n ->
  qmem.lower_bound n (qmem.left (pool a)) = Some (sz, p) ->
  arena_inv
    (mk_arena
       (qmem.mk_vars
          (qmem.pages (pool a)) (qmem.cur_mem (pool a))
          (qmem.used_mem (pool a) + n) (qmem.state (pool a))
          (if sz - n >? 0
           then qmem.multimap_insert
                  (sz - n, qmem.ptr_add p n)
                  (qmem.erase_lower_bound n (qmem.left (pool a)))
           else qmem.erase_lower_bound n (qmem.left (pool a)))
          (qmem.heap_top (pool a)) (qmem.qmem_generation (pool a)))
       ((p, n) :: live a)).
Proof.
  intros I Hn Hlb. destruct (lower_bound_some _ _ _ Hlb) as [Hle Hp].
  simpl in Hle.
  set (E := qmem.erase_lower_bound n (qmem.left (pool a))) in *.
  set (R := map (fun e : Z * qmem.ptr => (snd e, fst e)) E ++ live a).
  assert (Hold : Permutation (ranges a) ((p, sz) :: R)).
  { unfold ranges, free_ranges, R. rewrite (Permutation_map _ Hp). reflexivity. }
  pose proof (Permutation_Forall Hold (inv_within _ I)) as W.
  pose proof (pairwise_disjoint_perm _ _ Hold (inv_disjoint _ I)) as D.
  inversion W as [|? ? Wp WR]; subst. destruct D as [Dp DR].
  destruct Wp as [psz [Hin [Hoff [Hsz Hend]]]]. simpl in Hin, Hoff, Hsz, Hend.
  set (fresh := if sz - n >? 0
                then [(qmem.ptr_add p n, sz - n)] else [] : list allocation).
  assert (Hnew : Permutation
            (map (fun e : Z * qmem.ptr => (snd e, fst e))
               (if sz - n >? 0
                then qmem.multimap_insert (sz - n, qmem.ptr_add p n) E
                else E) ++ (p, n) :: live a)
            (fresh ++ (p, n) :: R)).
  { unfold fresh, R. destruct (sz - n >? 0); simpl.
    - rewrite (Permutation_map _ (multimap_insert_perm _ _)). simpl.
      apply perm_skip. symmetry. apply Permutation_middle.
    - symmetry. apply Permutation_middle. }
  assert (Hsub : forall off len,
             snd p <= off -> 0 <= len -> off + len <= snd p + sz ->
             Forall (disjoint ((fst p, off), len)) R).
  { intros off len H1 H2 H3. eapply Forall_impl; [|exact Dp].
    intros r. unfold disjoint. simpl. intros [H|[H|H]]; [auto | right | right]; lia. }
  assert (Hpn : pairwise_disjoint ((p, n) :: R)).
  { simpl. split; [|exact DR].
    replace p with (fst p, snd p) by (destruct p; reflexivity).
    apply Hsub; simpl; lia. }
  constructor; simpl.
  - exact (inv_state _ I).
  - exact (inv_pages_n _ I).
  - exact (inv_page_sizes _ I).
  - exact (inv_nodup _ I).
  - exact (inv_known _ I).
  - unfold ranges, free_ranges. simpl.
    eapply Permutation_Forall; [symmetry; exact Hnew|].
    apply Forall_app. split.
    + unfold fresh. destruct (sz - n >? 0) eqn:C; constructor; [|constructor].
      exists psz. simpl. split; [exact Hin | lia].
    + constructor; [|exact WR]. exists psz. simpl. split; [exact Hin | lia].
  - unfold ranges, free_ranges. simpl.
    eapply pairwise_disjoint_perm; [symmetry; exact Hnew|].
    unfold fresh. destruct (sz - n >? 0) eqn:C; [|exact Hpn].
    simpl. split; [|exact Hpn].
    constructor.
    + unfold disjoint, qmem.ptr_add. simpl. right. right. lia.
    + unfold qmem.ptr_add. apply Hsub; lia.
  - pose proof (inv_used _ I). lia.
  - pose proof (inv_account _ I) as Acc.
    unfold free_bytes, total_reserved_bytes in *. simpl.
    rewrite (sum_Z_perm _ _ (Permutation_map fst Hp)) in Acc. simpl in Acc.
    destruct (sz - n >? 0) eqn:C.
    + rewrite (sum_Z_perm _ _ (Permutation_map fst (multimap_insert_perm _ _))).
      simpl. lia.
    + lia.
  - destruct (sz - n >? 0); [apply multimap_insert_sorted|];
      apply erase_lower_bound_sorted; exact (inv_sorted _ I).
Qed.

Lemma inv_free_nonneg a :
  arena_inv a -> Forall (fun e => 0 <= fst e) (qmem.left (pool a)).
Proof.
  intros I. apply (free_sizes_nonneg (qmem.pages (pool a))).
  pose proof (inv_within _ I) as W. unfold ranges in W.
  apply Forall_app in W. exact (proj1 W).
Qed.

Lemma lower_bound_le_free a n sz p :
  arena_inv a -> qmem.lower_bound n (qmem.left (pool a)) = Some (sz, p) ->
  n <= sz <= free_bytes (pool a).
Proof.
  intros I Hlb. destruct (lower_bound_some _ _ _ Hlb) as [Hle Hp]. simpl in Hle.
  split; [exact Hle|]. unfold free_bytes.
  rewrite (sum_Z_perm _ _ (Permutation_map fst Hp)). simpl.
  pose proof (Permutation_Forall Hp (inv_free_nonneg _ I)) as F.
  inversion F; subst.
  assert (0 <= sum_Z (map fst (qmem.erase_lower_bound n (qmem.left (pool a))))).
  { apply sum_nonneg. rewrite Forall_map. assumption. }
  lia.
Qed.

Lemma free_bytes_nonneg a : arena_inv a -> 0 <= free_bytes (pool a).
Proof.
  intros I. unfold free_bytes. apply sum_nonneg. rewrite Forall_map.
  exact (inv_free_nonneg _ I).
Qed.

Lemma qmem_malloc_inv a n p v' :
  arena_inv a -> size_t_range n ->
  qmem_malloc n (pool a) = Some (p, v') ->
  arena_inv (mk_arena v' ((p, n) :: live a)).
Proof.
  intros I [Hn0 Hn1] H. unfold qmem_malloc in H.
  pose proof (total_small _ I) as T. pose proof (inv_used _ I) as U.
  pose proof (inv_account _ I) as Acc.
  rewrite max_mem_val in T. rewrite SIZE_MOD_val in Hn1.
  destruct (qmem.lower_bound n (qmem.left (pool a))) as [[sz q]|] eqn:Hlb.
  - pose proof (lower_bound_le_free _ _ _ _ I Hlb) as B.
    assert (X : 0 <= qmem.used_mem (pool a) + n < SIZE_MOD).
    { rewrite SIZE_MOD_val. clear H. lia. }
    rewrite (size_add_small _ _ X) in H.
    cbv zeta in H. simpl in H.
    pose proof (inv_split _ _ _ _ I Hn0 Hlb) as Sp.
    destruct (sz - n >? 0); injection H as <- <-; exact Sp.
  - apply alloc_at_least_some in H. destruct H as [Hp [HA [-> ->]]].
    simpl. rewrite max_mem_val in HA.
    assert (X : 0 <= qmem.used_mem (pool a) + n < SIZE_MOD).
    { rewrite SIZE_MOD_val. pose proof (free_bytes_nonneg _ I). clear Hp. lia. }
    rewrite (size_add_small _ _ X).
    apply inv_new_page with (extra := [((qmem.heap (qmem.heap_top (pool a)), 0), n)]).
    + exact I.
    + simpl. lia.
    + exact Hp.
    + rewrite max_mem_val, page_size_val. lia.
    + lia.
    + left. reflexivity.
Qed.

Lemma qmem_malloc_tmp_inv a n p v' :
  arena_inv a -> size_t_range n ->
  qmem_malloc_tmp n (pool a) = Some (p, v') ->
  arena_inv (mk_arena v' (live a)).
Proof.
  intros I [Hn0 Hn1] H. unfold qmem_malloc_tmp in H.
  destruct (qmem.lower_bound n (qmem.left (pool a))) as [[sz q]|] eqn:Hlb.
  - injection H as <- <-. destruct a; exact I.
  - apply alloc_at_least_some in H. destruct H as [Hp [HA [-> ->]]].
    rewrite max_mem_val in HA.
    apply inv_new_page with (extra := []) (use := 0) (a := a).
    + exact I.
    + simpl. lia.
    + exact Hp.
    + rewrite max_mem_val, page_size_val. lia.
    + rewrite page_size_val. lia.
    + right. split; reflexivity.
Qed.

Lemma fold_reg_pages (pages : list (qmem.block * Z)) (v : qmem.vars) :
  exists l,
    fold_left (fun v pg => qmem.reg (fst pg, 0) (snd pg) v) pages v
    = qmem.set_left l v /\
    Permutation l (map (fun pg => (snd pg, (fst pg, 0))) pages ++ qmem.left v) /\
    (qmem.keys_sorted (qmem.left v) -> qmem.keys_sorted l).
Proof.
  revert v. induction pages as [|pg pages IH]; intros v; simpl.
  - exists (qmem.left v).
    split; [destruct v; reflexivity | split; [reflexivity | auto]].
  - destruct (IH (qmem.reg (fst pg, 0) (snd pg) v)) as [l [E [P S]]].
    exists l. split; [rewrite E; reflexivity|]. split.
    + rewrite P. simpl. rewrite multimap_insert_perm.
      symmetry. apply Permutation_middle.
    + intros K. apply S. simpl. apply multimap_insert_sorted. exact K.
Qed.

Lemma pages_disjoint (pages : list (qmem.block * Z)) :
  NoDup (map fst pages) ->
  pairwise_disjoint (map (fun pg => ((fst pg, 0), snd pg)) pages).
Proof.
  induction pages as [|pg pages IH]; simpl; intros H; [exact I|].
  inversion H as [|? ? Hnot Hnd]; subst. split; [|apply IH; exact Hnd].
  rewrite Forall_map. apply Forall_forall. intros pg' Hin.
  unfold disjoint. simpl. left. intros E. apply Hnot. rewrite E.
  apply in_map. exact Hin.
Qed.

Lemma arena_inv_generation a g :
  arena_inv a -> arena_inv (mk_arena (qmem.set_generation g (pool a)) (live a)).
Proof. intros [? ? ? ? ? ? ? ? ? ?]. constructor; assumption. Qed.

Lemma qmem_free_ptrs_inv a v' :
  arena_inv a -> qmem_free_ptrs (pool a) = Some v' ->
  arena_inv (mk_arena v' (if soft_reclaim_fires (pool a) then [] else live a)).
Proof.
  intros I H. unfold qmem_free_ptrs in H. fold (soft_reclaim_fires (pool a)) in H.
  destruct (soft_reclaim_fires (pool a)).
  - cbv zeta in H.
    destruct (fold_reg_pages
                (qmem.pages (qmem.set_used_mem 0 (qmem.set_left [] (pool a))))
                (qmem.set_used_mem 0 (qmem.set_left [] (pool a))))
      as [l [E [P S]]].
    rewrite E in H. simpl in P. rewrite app_nil_r in P.
    destruct (llong_incr _) as [g|]; [|discriminate]. injection H as <-.
    assert (PR : Permutation (map (fun e : Z * qmem.ptr => (snd e, fst e)) l)
                   (map (fun pg => ((fst pg, 0), snd pg)) (qmem.pages (pool a)))).
    { rewrite (Permutation_map _ P). rewrite map_map. reflexivity. }
    constructor; simpl.
    + exact (inv_state _ I).
    + exact (inv_pages_n _ I).
    + exact (inv_page_sizes _ I).
    + exact (inv_nodup _ I).
    + exact (inv_known _ I).
    + unfold ranges, free_ranges. simpl. rewrite app_nil_r.
      eapply Permutation_Forall; [symmetry; exact PR|].
      rewrite Forall_map. pose proof (inv_page_sizes _ I) as Sz.
      rewrite Forall_forall in *. intros pg Hin. specialize (Sz pg Hin).
      exists (snd pg). simpl. split; [destruct pg; exact Hin | lia].
    + unfold ranges, free_ranges. simpl. rewrite app_nil_r.
      eapply pairwise_disjoint_perm; [symmetry; exact PR|].
      apply pages_disjoint. exact (inv_nodup _ I).
    + lia.
    + unfold free_bytes, total_reserved_bytes. simpl.
      rewrite (sum_Z_perm _ _ (Permutation_map fst P)). rewrite map_map. simpl.
      reflexivity.
    + apply S. constructor.
  - simpl in H. destruct (llong_incr _) as [g|]; [|discriminate].
    injection H as <-. apply arena_inv_generation. exact I.
Qed.

Lemma qmem_init_inited v : qmem.state v = qmem.st_inited -> qmem_init v = None.
Proof. intros E. unfold qmem_init. rewrite E. reflexivity. Qed.

Lemma arena_step_inv o a a' :
  arena_inv a -> arena_op_wf o -> is_hard_reclaim o = false ->
  arena_step o a = Some a' -> arena_inv a'.
Proof.
  intros I W Hh H. destruct o; simpl in *; try discriminate.
  - rewrite (qmem_init_inited _ (inv_state _ I)) in H. discriminate.
  - destruct (qmem_malloc n (pool a)) as [[p v]|] eqn:E; [|discriminate].
    injection H as <-. eapply qmem_malloc_inv; eauto.
  - unfold qmem_malloc0 in H.
    destruct (qmem_malloc n (pool a)) as [[p v]|] eqn:E; [|discriminate].
    injection H as <-. eapply qmem_malloc_inv; eauto.
  - destruct (qmem_malloc_tmp n (pool a)) as [[p v]|] eqn:E; [|discriminate].
    injection H as <-. eapply qmem_malloc_tmp_inv; eauto.
  - destruct (qmem_free_ptrs (pool a)) as [v|] eqn:E; [|discriminate].
    injection H as <-. apply qmem_free_ptrs_inv; assumption.
Qed.

Lemma arena_trace_inv ops : forall a,
  arena_inv a -> Forall arena_op_wf ops ->
  Forall (fun o => is_hard_reclaim o = false) ops ->
  Forall arena_inv (arena_trace ops a).
Proof.
  induction ops as [|o ops IH]; intros a I W Hh; simpl; [constructor|].
  inversion W; subst. inversion Hh; subst.
  destruct (arena_step o a) as [a'|] eqn:E; [|constructor].
  assert (I' : arena_inv a') by (eapply arena_step_inv; eauto).
  constructor; [exact I' | apply IH; assumption].
Qed.

Lemma arena_init_start : arena_step op_init arena_start = Some arena_inited.
Proof. reflexivity. Qed.

(** [qmem_init] on a pool that was torn down (nothing in use, as at the
    start of the program and after [qmem_clear]) sets up the invariant. *)
Lemma qmem_init_inv v v' :
  qmem.used_mem v = 0 -> qmem_init v = Some v' -> arena_inv (mk_arena v' []).
Proof.
  intros U H. destruct v as [pg cm um st lf ht gen]. simpl in U. subst um.
  unfold qmem_init in H. simpl in H.
  destruct st; [|discriminate]. destruct lf; [|discriminate].
  simpl in H. injection H as <-.
  constructor; simpl.
  - reflexivity.
  - unfold qmem.max_pages_n. lia.
  - rewrite max_mem_val, page_size_val. repeat constructor; simpl; lia.
  - repeat constructor; simpl; intuition discriminate.
  - repeat constructor.
  - unfold ranges, free_ranges. simpl. rewrite page_size_val.
    apply Forall_cons; [|apply Forall_cons; [|apply Forall_nil]];
      (exists 4194304; simpl; split; [auto | lia]).
  - unfold ranges, free_ranges. simpl. repeat split; auto.
    constructor; [|constructor]. unfold disjoint. simpl. left. discriminate.
  - lia.
  - unfold free_bytes, total_reserved_bytes. simpl. lia.
  - unfold qmem.keys_sorted. repeat constructor. simpl. lia.
Qed.

Lemma arena_inv_accounting a : arena_inv a -> accounting a.
Proof.
  intros I. split; [|exact (inv_account _ I)].
  apply pairwise_disjoint_no_two_overlap.
  apply (pairwise_disjoint_app_r (free_ranges (pool a))).
  exact (inv_disjoint _ I).
Qed.

(** the state a run ends in is the last state of its trace *)
Lemma arena_run_in_trace ops : forall a a',
  ops <> [] -> arena_run ops a = Some a' -> In a' (arena_trace ops a).
Proof.
  induction ops as [|o ops IH]; intros a a' N H; [contradiction N; reflexivity|].
  simpl in H. simpl arena_trace.
  destruct (arena_step o a) as [a1|]; [|discriminate H]. simpl in H.
  destruct ops as [|o' ops'].
  - simpl in H. injection H as <-. left. reflexivity.
  - right. apply IH; [discriminate | exact H].
Qed.

(** C1, as stated, fails for a sequence that allocates before the first
    [qmem_init]: from the pool as the program starts, [qmem_malloc] of
    one page takes a dynamic page whole, and [qmem_init] then returns
    (nothing is free, the state is [st_empty]) and resets the pages to
    the two static ones but not [used_mem]; one page is counted as used
    beyond the pages held. *)
Lemma accounting_any_sequence_counterexample : ~ accounting_any_sequence.
Proof.
  intros C.
  assert (W : Forall arena_op_wf allocate_before_init_ops).
  { unfold allocate_before_init_ops.
    constructor; [|constructor; [exact I | constructor]].
    simpl. unfold size_t_range. rewrite page_size_val, SIZE_MOD_val. lia. }
  assert (Hh : Forall (fun o => is_hard_reclaim o = false)
                      allocate_before_init_ops).
  { unfold allocate_before_init_ops.
    constructor; [reflexivity | constructor; [reflexivity | constructor]]. }
  pose proof (C allocate_before_init_ops W Hh) as T.
  rewrite Forall_forall in T.
  assert (R : exists a,
             arena_run allocate_before_init_ops arena_start = Some a /\
             qmem.used_mem (pool a) + free_bytes (pool a)
             = total_reserved_bytes (pool a) + qmem.page_size).
  { eexists. split; [vm_compute; reflexivity | reflexivity]. }
  destruct R as [a [R E]].
  assert (N : allocate_before_init_ops <> []) by discriminate.
  destruct (T a (arena_run_in_trace _ _ _ N R)) as [_ A].
  rewrite A in E. rewrite page_size_val in E. lia.
Qed.

(** C1, amended.  In a run that starts with [qmem_init] on a torn-down
    pool (nothing in use: the pool as the program starts, or as
    [qmem_clear] leaves it) and goes on with any calls of [qmem_init],
    [qmem_malloc], [qmem_malloc0], [qmem_malloc_tmp] and
    [qmem_free_ptrs] (with [size_t] arguments), after every call that
    returns no two blocks in use overlap, and [used_mem] plus the sizes
    of the free blocks is the sum of the sizes of the pages held, static
    and dynamic. *)
Theorem arena_accounting_invariant (v : qmem.vars) (ops : list arena_op) :
  qmem.used_mem v = 0 ->
  Forall arena_op_wf ops ->
  Forall (fun o => is_hard_reclaim o = false) ops ->
  Forall accounting (arena_trace (op_init :: ops) (mk_arena v [])).
Proof.
  intros U W Hh. simpl arena_trace.
  destruct (qmem_init v) as [v'|] eqn:E; simpl; [|constructor].
  pose proof (qmem_init_inv _ _ U E) as I0.
  constructor.
  - apply arena_inv_accounting. exact I0.
  - eapply Forall_impl; [exact arena_inv_accounting|].
    apply arena_trace_inv; [exact I0 | exact W | exact Hh].
Qed.

Lemma arena_accounting_invariant_witness :
  length (arena_trace (op_init :: arena_demo_ops) arena_start) = 7%nat /\
  Forall accounting (arena_trace (op_init :: arena_demo_ops) arena_start).
Proof.
  split; [vm_compute; reflexivity|].
  apply (arena_accounting_invariant qmem_start arena_demo_ops).
  - reflexivity.
  - unfold arena_demo_ops.
    repeat (apply Forall_cons || apply Forall_nil);
      simpl; unfold size_t_range; try rewrite SIZE_MOD_val; try exact I; lia.
  - unfold arena_demo_ops. repeat (apply Forall_cons || apply Forall_nil); reflexivity.
Defined.

(** ** [qmem_malloc_tmp] *)

Lemma alloc_size_max n :
  (if n >=? qmem.page_size then n else qmem.page_size) = Z.max n qmem.page_size.
Proof. destruct (n >=? qmem.page_size) eqn:C; lia. Qed.

Lemma alloc_at_least_peek n v :
  qmem.alloc_at_least n 0 v =
  if ceilings_exceeded n v then None
  else Some ((qmem.heap (qmem.heap_top v), 0), with_new_free_page n v).
Proof.
  unfold qmem.alloc_at_least, ceilings_exceeded. rewrite alloc_size_max.
  destruct (_ || _ || _); [reflexivity|].
  cbv zeta. unfold qmem.malloc.
  assert (C : (0 <? Z.max n qmem.page_size) = true).
  { rewrite page_size_val. apply Z.ltb_lt. lia. }
  rewrite C. unfold with_new_free_page, qmem.reg, qmem.set_left, qmem.ptr_add.
  simpl. rewrite Z.sub_0_r. reflexivity.
Qed.

Lemma multimap_insert_length e m :
  length (qmem.multimap_insert e m) = S (length m).
Proof.
  induction m as [|x m IH]; simpl; [reflexivity|].
  destruct (fst e <? fst x); simpl; [reflexivity | rewrite IH; reflexivity].
Qed.

Lemma with_new_free_page_changes n v :
  qmem.pages_n (with_new_free_page n v) = S (qmem.pages_n v) /\
  length (qmem.left (with_new_free_page n v)) = S (length (qmem.left v)) /\
  with_new_free_page n v <> v.
Proof.
  assert (L : qmem.pages_n (with_new_free_page n v) = S (qmem.pages_n v)).
  { unfold qmem.pages_n, with_new_free_page. simpl. rewrite length_app. simpl. lia. }
  split; [exact L|]. split.
  - unfold with_new_free_page. simpl. apply multimap_insert_length.
  - intros E. rewrite E in L. lia.
Qed.

(** C9.  [qmem_malloc_tmp] is not read-only on a miss: when no free block
    of size at least [n] exists, the call (unless a ceiling makes it abort)
    returns the start of a new dynamic page of [max (n, page_size)] bytes,
    recorded as one more page and registered whole as a free block, so
    the number of pages and the free list change; when a free block of
    size at least [n] exists the call returns its start and leaves the
    pool as it was; and a call that leaves the pool as it was found such
    a block. *)
Theorem allocate_peek_effect (n : Z) (v : qmem.vars) :
  (no_free_block n v ->
   qmem_malloc_tmp n v =
   (if ceilings_exceeded n v then None
    else Some ((qmem.heap (qmem.heap_top v), 0), with_new_free_page n v)) /\
   qmem.pages_n (with_new_free_page n v) = S (qmem.pages_n v) /\
   length (qmem.left (with_new_free_page n v)) = S (length (qmem.left v)) /\
   qmem.lower_bound n (qmem.left (with_new_free_page n v))
   = Some (Z.max n qmem.page_size, (qmem.heap (qmem.heap_top v), 0)) /\
   with_new_free_page n v <> v) /\
  (forall sz p, qmem.lower_bound n (qmem.left v) = Some (sz, p) ->
                n <= sz /\ qmem_malloc_tmp n v = Some (p, v)) /\
  (forall p, qmem_malloc_tmp n v = Some (p, v) -> ~ no_free_block n v).
Proof.
  split; [|split].
  - intros M. pose proof M as M'. apply lower_bound_none in M'.
    destruct (with_new_free_page_changes n v) as [C1 [C2 C3]].
    unfold qmem_malloc_tmp. rewrite M'.
    split; [apply alloc_at_least_peek|].
    split; [exact C1|]. split; [exact C2|]. split; [|exact C3].
    unfold with_new_free_page. simpl.
    unfold no_free_block in M. clear M' C1 C2 C3.
    induction (qmem.left v) as [|x m IH]; simpl.
    + assert (E : (n <=? Z.max n qmem.page_size) = true) by (apply Z.leb_le; lia).
      rewrite E. reflexivity.
    + inversion M; subst.
      destruct (Z.max n qmem.page_size <? fst x) eqn:C; simpl.
      * assert (E : (n <=? Z.max n qmem.page_size) = true) by (apply Z.leb_le; lia).
        rewrite E. reflexivity.
      * assert (E : (n <=? fst x) = false) by (apply Z.leb_gt; lia).
        rewrite E. apply IH. assumption.
  - intros sz p Hlb. destruct (lower_bound_some _ _ _ Hlb) as [Hle _].
    split; [exact Hle|]. unfold qmem_malloc_tmp. rewrite Hlb. reflexivity.
  - intros p H M. apply lower_bound_none in M.
    unfold qmem_malloc_tmp in H. rewrite M in H.
    rewrite alloc_at_least_peek in H.
    destruct (ceilings_exceeded n v); [discriminate|].
    injection H as _ H.
    exact (proj2 (proj2 (with_new_free_page_changes n v)) H).
Qed.

Lemma allocate_peek_effect_witness :
  no_free_block 5000000 qmem_start /\
  qmem_malloc_tmp 5000000 qmem_start =
  Some ((qmem.heap 0, 0),
        qmem.mk_vars [(qmem.heap 0, 5000000)] 0 0 qmem.st_empty
                     [(5000000, (qmem.heap 0, 0))] 1 0).
Proof.
  assert (M : no_free_block 5000000 qmem_start) by constructor.
  split; [exact M|].
  exact (proj1 (proj1 (allocate_peek_effect 5000000 qmem_start) M)).
Defined.

(** ** The generation counter *)

Lemma llong_incr_some x : x < LLONG_MAX -> llong_incr x = Some (x + 1).
Proof.
  intros H. unfold llong_incr.
  destruct (x <? LLONG_MAX) eqn:C; [reflexivity|]. apply Z.ltb_ge in C. lia.
Qed.

Lemma llong_incr_inv x y : llong_incr x = Some y -> y = x + 1.
Proof. unfold llong_incr. destruct (x <? LLONG_MAX); congruence. Qed.

Lemma fold_reg_generation (pages : list (qmem.block * Z)) (v : qmem.vars) :
  qmem.qmem_generation
    (fold_left (fun v pg => qmem.reg (fst pg, 0) (snd pg) v) pages v)
  = qmem.qmem_generation v.
Proof.
  destruct (fold_reg_pages pages v) as [l [E _]]. rewrite E. reflexivity.
Qed.

Lemma qmem_free_ptrs_generation v v' :
  qmem_free_ptrs v = Some v' ->
  qmem.qmem_generation v' = qmem.qmem_generation v + 1.
Proof.
  unfold qmem_free_ptrs.
  set (w := if _ >? _ then _ else v).
  assert (G : qmem.qmem_generation w = qmem.qmem_generation v).
  { unfold w. destruct (_ >? _); [|reflexivity].
    cbv zeta. rewrite fold_reg_generation. reflexivity. }
  destruct (llong_incr (qmem.qmem_generation w)) as [g|] eqn:E; [|discriminate].
  simpl. intros [= <-]. simpl. apply llong_incr_inv in E. lia.
Qed.

Lemma qmem_free_ptrs_returns v :
  qmem.qmem_generation v < LLONG_MAX -> exists v', qmem_free_ptrs v = Some v'.
Proof.
  intros H. unfold qmem_free_ptrs.
  set (w := if _ >? _ then _ else v).
  assert (G : qmem.qmem_generation w = qmem.qmem_generation v).
  { unfold w. destruct (_ >? _); [|reflexivity].
    cbv zeta. rewrite fold_reg_generation. reflexivity. }
  rewrite G, (llong_incr_some _ H). simpl. eexists. reflexivity.
Qed.

Lemma qmem_clear_generation v v' :
  qmem_clear v = Some v' ->
  qmem.qmem_generation v' = qmem.qmem_generation v + 1.
Proof.
  unfold qmem_clear. destruct (qmem.state v); simpl; [discriminate|].
  destruct (llong_incr (qmem.qmem_generation v)) as [g|] eqn:E; [|discriminate].
  simpl. intros [= <-]. simpl. apply llong_incr_inv in E. lia.
Qed.

Lemma qmem_clear_returns v :
  qmem.state v = qmem.st_inited -> qmem.qmem_generation v < LLONG_MAX ->
  exists v', qmem_clear v = Some v'.
Proof.
  intros S H. unfold qmem_clear. rewrite S. simpl.
  rewrite (llong_incr_some _ H). simpl. eexists. reflexivity.
Qed.

Lemma qmem_init_generation v v' :
  qmem_init v = Some v' -> qmem.qmem_generation v' = qmem.qmem_generation v.
Proof.
  destruct v as [pg cm um st lf ht gen]. unfold qmem_init. simpl.
  destruct st; [|discriminate]. destruct lf; [|discriminate].
  simpl. intros [= <-]. reflexivity.
Qed.

Lemma qmem_malloc_generation n v p v' :
  qmem_malloc n v = Some (p, v') ->
  qmem.qmem_generation v' = qmem.qmem_generation v.
Proof.
  unfold qmem_malloc.
  destruct (qmem.lower_bound n (qmem.left v)) as [[sz q]|].
  - cbv zeta. destruct (sz - n >? 0); intros [= _ <-]; reflexivity.
  - intros H. apply alloc_at_least_some in H.
    destruct H as [_ [_ [_ ->]]]. reflexivity.
Qed.

Lemma qmem_malloc_tmp_generation n v p v' :
  qmem_malloc_tmp n v = Some (p, v') ->
  qmem.qmem_generation v' = qmem.qmem_generation v.
Proof.
  unfold qmem_malloc_tmp.
  destruct (qmem.lower_bound n (qmem.left v)) as [[sz q]|].
  - intros [= _ <-]. reflexivity.
  - intros H. apply alloc_at_least_some in H.
    destruct H as [_ [_ [_ ->]]]. reflexivity.
Qed.

Lemma arena_step_generation o a a' :
  arena_step o a = Some a' ->
  qmem.qmem_generation (pool a')
  = qmem.qmem_generation (pool a) + (if is_reclaim o then 1 else 0).
Proof.
  destruct o; simpl; intros H.
  - destruct (qmem_init (pool a)) as [v|] eqn:E; [|discriminate].
    injection H as <-. simpl. rewrite (qmem_init_generation _ _ E). lia.
  - destruct (qmem_malloc n (pool a)) as [[p v]|] eqn:E; [|discriminate].
    injection H as <-. simpl. rewrite (qmem_malloc_generation _ _ _ _ E). lia.
  - unfold qmem_malloc0 in H.
    destruct (qmem_malloc n (pool a)) as [[p v]|] eqn:E; [|discriminate].
    injection H as <-. simpl. rewrite (qmem_malloc_generation _ _ _ _ E). lia.
  - destruct (qmem_malloc_tmp n (pool a)) as [[p v]|] eqn:E; [|discriminate].
    injection H as <-. simpl. rewrite (qmem_malloc_tmp_generation _ _ _ _ E). lia.
  - destruct (qmem_free_ptrs (pool a)) as [v|] eqn:E; [|discriminate].
    injection H as <-. simpl. exact (qmem_free_ptrs_generation _ _ E).
  - destruct (qmem_clear (pool a)) as [v|] eqn:E; [|discriminate].
    injection H as <-. simpl. exact (qmem_clear_generation _ _ E).
Qed.

Lemma arena_run_generation ops : forall a a',
  arena_run ops a = Some a' ->
  qmem.qmem_generation (pool a')
  = qmem.qmem_generation (pool a) + count_reclaims ops.
Proof.
  unfold count_reclaims.
  induction ops as [|o ops IH]; intros a a'; simpl.
  - intros [= <-]. lia.
  - destruct (arena_step o a) as [a1|] eqn:E; [|discriminate]. simpl.
    intros H. rewrite (IH _ _ H), (arena_step_generation _ _ _ E).
    destruct (is_reclaim o); simpl length; lia.
Qed.

Lemma count_reclaims_pos ops :
  existsb is_reclaim ops = true -> 0 < count_reclaims ops.
Proof.
  unfold count_reclaims. induction ops as [|o ops IH]; simpl; [discriminate|].
  destruct (is_reclaim o); simpl; [lia | exact IH].
Qed.

Lemma count_reclaims_nonneg ops : 0 <= count_reclaims ops.
Proof. unfold count_reclaims. lia. Qed.

Lemma mc_ansgen_packet_create_generation sa sb z v self v1 :
  mc_ansgen_packet_create sa sb z v = Some (self, v1) ->
  net_ansgen.qmem_req_generation (mc_ansgen_packet.base self)
  = qmem.qmem_generation v /\
  qmem.qmem_generation v1 = qmem.qmem_generation v.
Proof.
  unfold mc_ansgen_packet_create, qmem_malloc0, str_buf_create.
  destruct (qmem_malloc sa v) as [[p w]|] eqn:E1; [|discriminate]. simpl.
  destruct (qmem_malloc sb w) as [[p' w']|] eqn:E2; [|discriminate]. simpl.
  intros [= <- <-]. simpl. split; [reflexivity|].
  rewrite (qmem_malloc_generation _ _ _ _ E2).
  exact (qmem_malloc_generation _ _ _ _ E1).
Qed.

(** C2.  [qmem_free_ptrs] and [qmem_clear] never decrease
    [qmem_generation]: each call that returns adds one, and
    [qmem_free_ptrs] returns and adds one on every call below the
    [long long] limit whether or not its reclaim test fires
    ([qmem_clear] needs the pool initialised).  Consequently, over any
    run of allocator calls with at least one reclaim call, a generator
    whose captured generation was at most the pool's generation before
    the run (equal, for one just created) is not alive after it. *)
Theorem generation_monotone_and_stale :
  (forall v, qmem.qmem_generation v < LLONG_MAX ->
     exists v', qmem_free_ptrs v = Some v' /\
                qmem.qmem_generation v' = qmem.qmem_generation v + 1) /\
  (forall v, qmem.state v = qmem.st_inited ->
     qmem.qmem_generation v < LLONG_MAX ->
     exists v', qmem_clear v = Some v' /\
                qmem.qmem_generation v' = qmem.qmem_generation v + 1) /\
  (forall v v', qmem_free_ptrs v = Some v' \/ qmem_clear v = Some v' ->
     qmem.qmem_generation v < qmem.qmem_generation v') /\
  (forall sa sb z v self v1 l ops a',
     mc_ansgen_packet_create sa sb z v = Some (self, v1) ->
     net_ansgen_is_alive (mc_ansgen_packet.base self) v1 = true /\
     (arena_run ops (mk_arena v1 l) = Some a' ->
      existsb is_reclaim ops = true ->
      net_ansgen_is_alive (mc_ansgen_packet.base self) (pool a') = false)) /\
  (forall base_self a ops a',
     net_ansgen.qmem_req_generation base_self <= qmem.qmem_generation (pool a) ->
     arena_run ops a = Some a' ->
     existsb is_reclaim ops = true ->
     net_ansgen_is_alive base_self (pool a') = false).
Proof.
  split; [|split; [|split; [|split]]].
  - intros v H. destruct (qmem_free_ptrs_returns v H) as [v' E].
    exists v'. split; [exact E | exact (qmem_free_ptrs_generation _ _ E)].
  - intros v S H. destruct (qmem_clear_returns v S H) as [v' E].
    exists v'. split; [exact E | exact (qmem_clear_generation _ _ E)].
  - intros v v' [E|E].
    + rewrite (qmem_free_ptrs_generation _ _ E). lia.
    + rewrite (qmem_clear_generation _ _ E). lia.
  - intros sa sb z v self v1 l ops a' E.
    destruct (mc_ansgen_packet_create_generation _ _ _ _ _ _ E) as [G1 G2].
    unfold net_ansgen_is_alive. rewrite G1. split.
    + rewrite G2. apply Z.eqb_refl.
    + intros Hrun Hre. apply Z.eqb_neq.
      rewrite (arena_run_generation _ _ _ Hrun). simpl. rewrite G2.
      pose proof (count_reclaims_pos _ Hre). lia.
  - intros base_self a ops a' Hle Hrun Hre.
    unfold net_ansgen_is_alive. apply Z.eqb_neq.
    rewrite (arena_run_generation _ _ _ Hrun).
    pose proof (count_reclaims_pos _ Hre). lia.
Qed.

Lemma generation_monotone_and_stale_witness :
  net_ansgen_is_alive example_ansgen (pool arena_inited) = true /\
  exists a',
    arena_run [op_allocate 10; op_soft_reclaim; op_allocate 20] arena_inited
    = Some a' /\
    net_ansgen_is_alive example_ansgen (pool a') = false.
Proof.
  split; [reflexivity|].
  eexists. split; [vm_compute; reflexivity|].
  apply (proj2 (proj2 (proj2 (proj2 generation_monotone_and_stale)))
           example_ansgen arena_inited
           [op_allocate 10; op_soft_reclaim; op_allocate 20]).
  - simpl. lia.
  - vm_compute. reflexivity.
  - reflexivity.
Defined.

(** ** [net_ansgen_timeout] *)

Lemma arena_run_generation_nonneg ops a a' :
  0 <= qmem.qmem_generation (pool a) -> arena_run ops a = Some a' ->
  0 <= qmem.qmem_generation (pool a').
Proof.
  intros H R. rewrite (arena_run_generation _ _ _ R).
  pose proof (count_reclaims_nonneg ops). lia.
Qed.

(** C3, as stated, fails: after [net_ansgen_timeout] on a live generator
    the base state is still [st_ansgen_wait]. *)
Lemma timeout_leaves_waiting_counterexample : ~ timeout_leaves_waiting.
Proof.
  intros C.
  apply (C qmem_start example_ansgen
           (net_ansgen.mk (-1) st_ansgen_wait
              (answer.mk nq_error (Some "Timeout"%string) 0 None)));
    reflexivity.
Qed.

(** C3, amended.  On a waiting generator that is alive,
    [net_ansgen_timeout] returns, sets the answer to an error with the
    text [Timeout], and sets the captured generation to [-1]; the pool's
    generation starts at zero and only grows, so the generator is dead
    from then on, whatever the allocator does.  The base state stays
    [st_ansgen_wait]: the code has no timeout state. *)
Theorem timeout_finalizes_and_kills (v : qmem.vars) (base_self : net_ansgen.t) :
  net_ansgen.state base_self = st_ansgen_wait ->
  net_ansgen_is_alive base_self v = true ->
  0 <= qmem.qmem_generation v ->
  exists base_self',
    net_ansgen_timeout v base_self = Some base_self' /\
    answer.state (net_ansgen.ans base_self') = nq_error /\
    answer.res (net_ansgen.ans base_self') = Some "Timeout"%string /\
    net_ansgen.qmem_req_generation base_self' = -1 /\
    net_ansgen.state base_self' = st_ansgen_wait /\
    (forall l ops a',
        arena_run ops (mk_arena v l) = Some a' ->
        net_ansgen_is_alive base_self' (pool a') = false).
Proof.
  intros W A G. unfold net_ansgen_timeout. rewrite W, A. simpl.
  eexists. split; [reflexivity|]. simpl.
  repeat (split; [reflexivity|]).
  intros l ops a' R. unfold net_ansgen_is_alive.
  cbn [net_ansgen.qmem_req_generation]. apply Z.eqb_neq.
  pose proof (arena_run_generation_nonneg ops (mk_arena v l) a' G R). lia.
Qed.

Lemma timeout_finalizes_and_kills_witness :
  exists base_self',
    net_ansgen_timeout qmem_start example_ansgen = Some base_self' /\
    answer.state (net_ansgen.ans base_self') = nq_error /\
    answer.res (net_ansgen.ans base_self') = Some "Timeout"%string /\
    net_ansgen.qmem_req_generation base_self' = -1 /\
    net_ansgen.state base_self' = st_ansgen_wait /\
    (forall l ops a',
        arena_run ops (mk_arena qmem_start l) = Some a' ->
        net_ansgen_is_alive base_self' (pool a') = false).
Proof.
  apply (timeout_finalizes_and_kills qmem_start example_ansgen).
  - reflexivity.
  - reflexivity.
  - simpl. lia.
Defined.

(** ** The memcached sub-states *)

Lemma reader_len_nonneg reader : 0 <= reader_len reader.
Proof. unfold reader_len. lia. Qed.

Lemma str_buf_append_len v b reader sb v' :
  0 <= len b -> str_buf_append v b reader = Some (sb, v') ->
  0 <= len sb < buf_len sb /\
  contents sb = (contents b ++ reader)%string.
Proof.
  intros L. unfold str_buf_append. pose proof (reader_len_nonneg reader) as R.
  destruct (assert (int_range (reader_len reader + len b))); [|discriminate].
  simpl. destruct (reader_len reader + len b >=? buf_len b) eqn:C.
  - destruct (assert (int_range ((reader_len reader + len b) * 2 + 1)));
      [|discriminate]. simpl.
    destruct (qmem_malloc _ v) as [[p w]|]; [|discriminate]. simpl.
    intros [= <- <-]. simpl. split; [lia | reflexivity].
  - simpl. intros [= <- <-]. simpl. split; [lia | reflexivity].
Qed.

Lemma append_and_finalize_returns v self reader sb v' :
  0 <= len (mc_ansgen_packet.str_buf self) ->
  str_buf_append v (mc_ansgen_packet.str_buf self) reader = Some (sb, v') ->
  exists a,
    append_and_finalize v self reader
    = Some (mc_ansgen_packet.mk
              (net_ansgen.mk
                 (net_ansgen.qmem_req_generation (mc_ansgen_packet.base self))
                 (net_ansgen.state (mc_ansgen_packet.base self)) a)
              (mc_ansgen_packet.state self) sb, v') /\
    answer.state a = nq_ok /\ answer.res a = Some (contents sb).
Proof.
  intros L E. unfold append_and_finalize. rewrite E. simpl.
  destruct (str_buf_append_len _ _ _ _ _ L E) as [B _].
  unfold str_buf_cstr.
  assert (C : (len sb <? buf_len sb) = true) by (apply Z.ltb_lt; lia).
  rewrite C. simpl. eexists. split; [reflexivity|]. split; reflexivity.
Qed.

Lemma append_and_finalize_some v self reader self' v' :
  append_and_finalize v self reader = Some (self', v') ->
  mc_ansgen_packet.state self' = mc_ansgen_packet.state self /\
  base_state self' = base_state self.
Proof.
  unfold append_and_finalize.
  destruct (str_buf_append v _ reader) as [[sb w]|]; [|discriminate]. simpl.
  destruct (str_buf_cstr sb); [|discriminate]. simpl.
  intros [= <- <-]. split; reflexivity.
Qed.

Lemma raise_error_waiting v self msg :
  base_state self = st_ansgen_wait ->
  raise_error v self msg = Some (errored v self msg, v).
Proof.
  unfold base_state, raise_error, net_ansgen_error. intros ->. reflexivity.
Qed.

Lemma mc_deliver_commits f v self self' v' :
  is_version f = false ->
  mc_ansgen_packet.state self = ap_any ->
  base_state self = st_ansgen_wait ->
  mc_deliver f v self = Some (self', v') ->
  mc_ansgen_packet.state self' = commit_state f /\
  base_state self' <> st_ansgen_error.
Proof.
  intros NV S W. destruct self as [b st sb]. simpl in S. subst st.
  unfold base_state in W. simpl in W.
  destruct f; try discriminate NV; simpl;
    unfold mc_ansgen_packet_value, mc_ansgen_packet_end,
      mc_ansgen_packet_xstored, mc_ansgen_packet_other; simpl;
    try rewrite W; simpl;
    destruct (net_ansgen_is_alive b v); simpl.
  - destruct (str_buf_append v sb reader) as [[sb' w]|]; [|discriminate].
    simpl. intros [= <- <-]. unfold base_state. simpl. rewrite W.
    split; [reflexivity | discriminate].
  - intros [= <- <-]. unfold base_state. simpl. rewrite W.
    split; [reflexivity | discriminate].
  - destruct (append_and_finalize v _ end_reader) as [[s w]|] eqn:E;
      [|discriminate].
    simpl. intros [= <- <-]. apply append_and_finalize_some in E.
    destruct E as [E _]. simpl in *. split; [exact E | discriminate].
  - intros [= <- <-]. split; [reflexivity | discriminate].
  - destruct (append_and_finalize v _ _) as [[s w]|] eqn:E; [|discriminate].
    simpl. intros [= <- <-]. apply append_and_finalize_some in E.
    destruct E as [E _]. simpl in *. split; [exact E | discriminate].
  - intros [= <- <-]. split; [reflexivity | discriminate].
  - destruct (append_and_finalize v _ reader) as [[s w]|] eqn:E; [|discriminate].
    simpl. intros [= <- <-]. apply append_and_finalize_some in E.
    destruct E as [E _]. simpl in *. split; [exact E | discriminate].
  - intros [= <- <-]. split; [reflexivity | discriminate].
Qed.

Lemma mc_deliver_abort f v self :
  is_version f = false ->
  mc_ansgen_packet.state self = ap_any ->
  base_state self = st_ansgen_wait ->
  0 <= len (mc_ansgen_packet.str_buf self) ->
  mc_deliver f v self = None ->
  net_ansgen_is_alive (mc_ansgen_packet.base self) v = true /\
  str_buf_append v (mc_ansgen_packet.str_buf self) (payload f) = None.
Proof.
  intros NV S W L. destruct self as [b st sb]. simpl in S, L. subst st.
  unfold base_state in W. simpl in W. simpl mc_ansgen_packet.base.
  simpl mc_ansgen_packet.str_buf.
  destruct (str_buf_append v sb (payload f)) as [[sb' w]|] eqn:A.
  - intros H. exfalso. revert H.
    destruct f; try discriminate NV; simpl;
      unfold mc_ansgen_packet_value, mc_ansgen_packet_end,
        mc_ansgen_packet_xstored, mc_ansgen_packet_other; simpl;
      try rewrite W; simpl;
      destruct (net_ansgen_is_alive b v); simpl; try discriminate.
    + simpl in A. rewrite A. discriminate.
    + destruct (append_and_finalize_returns v
                  (mc_ansgen_packet.mk b ap_get sb) _ _ _ L A) as [a [E _]].
      unfold mc_ansgen_packet.set_state. simpl in E |- *. rewrite E. discriminate.
    + destruct (append_and_finalize_returns v
                  (mc_ansgen_packet.mk b ap_store sb) _ _ _ L A) as [a [E _]].
      unfold mc_ansgen_packet.set_state. simpl in E |- *. rewrite E. discriminate.
    + destruct (append_and_finalize_returns v
                  (mc_ansgen_packet.mk b ap_other sb) _ _ _ L A) as [a [E _]].
      unfold mc_ansgen_packet.set_state. simpl in E |- *. rewrite E. discriminate.
  - intros H. split; [|reflexivity].
    destruct (net_ansgen_is_alive b v) eqn:AL; [reflexivity|]. exfalso. revert H.
    destruct f; try discriminate NV; simpl;
      unfold mc_ansgen_packet_value, mc_ansgen_packet_end,
        mc_ansgen_packet_xstored, mc_ansgen_packet_other; simpl;
      try rewrite W; simpl; rewrite AL; discriminate.
Qed.

Lemma mc_deliver_mismatch f v self :
  is_version f = false ->
  base_state self = st_ansgen_wait ->
  mc_ansgen_packet.state self <> ap_any ->
  mc_ansgen_packet.state self <> commit_state f ->
  exists msg, unexpected_message f = Some msg /\
              mc_deliver f v self = Some (errored v self msg, v).
Proof.
  intros NV W S1 S2. destruct self as [b st sb]. simpl in S1, S2.
  pose proof (raise_error_waiting v (mc_ansgen_packet.mk b st sb)) as R.
  specialize (fun m => R m W). unfold base_state in W. simpl in W.
  destruct f; try discriminate NV; simpl in S2; (eexists; split; [reflexivity|]);
    simpl;
    unfold mc_ansgen_packet_value, mc_ansgen_packet_end,
      mc_ansgen_packet_xstored, mc_ansgen_packet_other; simpl;
    try rewrite W; simpl;
    destruct st; try contradiction; simpl; apply R.
Qed.

Lemma mc_version_ignored reader v self :
  mc_ansgen_packet.state self <> ap_version ->
  mc_deliver (frag_version reader) v self = Some (self, v).
Proof.
  intros S. simpl. unfold mc_ansgen_packet_version.
  destruct (mc_ansgen_packet.state self); try contradiction; reflexivity.
Qed.

(** C4, as stated, fails on version fragments: a waiting generator with
    the sub-state open takes a version fragment and stays open. *)
Lemma commit_or_error_all_kinds_counterexample : ~ commit_or_error_all_kinds.
Proof.
  intros C.
  destruct (C (frag_version "1.6.21"%string) qmem_start (example_mc ap_any)
              (example_mc ap_any) qmem_start eq_refl eq_refl) as [H _].
  specialize (H eq_refl). discriminate H.
Qed.

(** C4, amended.  For a waiting memcached generator and a fragment of
    the kinds value, end, stored and other: with the sub-state open, the
    call commits the sub-state of the kind and raises no error (it
    returns unless the generator is alive and appending to the buffer
    aborts); with a committed sub-state of another kind, it raises the
    error [Unexpected ...] of the kind and changes nothing else.  A
    version fragment is dropped, with no commit and no error, unless the
    sub-state is already [ap_version], which only
    [mc_ansgen_packet_set_query_type] with type 1 commits. *)
Theorem mc_commit_or_error (f : mc_fragment) (v : qmem.vars)
        (self : mc_ansgen_packet.t) :
  base_state self = st_ansgen_wait ->
  (is_version f = false ->
   (mc_ansgen_packet.state self = ap_any ->
    (forall self' v',
        mc_deliver f v self = Some (self', v') ->
        mc_ansgen_packet.state self' = commit_state f /\
        base_state self' <> st_ansgen_error) /\
    (0 <= len (mc_ansgen_packet.str_buf self) ->
     mc_deliver f v self = None ->
     net_ansgen_is_alive (mc_ansgen_packet.base self) v = true /\
     str_buf_append v (mc_ansgen_packet.str_buf self) (payload f) = None)) /\
   (mc_ansgen_packet.state self <> ap_any ->
    mc_ansgen_packet.state self <> commit_state f ->
    exists msg, unexpected_message f = Some msg /\
                mc_deliver f v self = Some (errored v self msg, v))) /\
  (is_version f = true ->
   mc_ansgen_packet.state self <> ap_version ->
   mc_deliver f v self = Some (self, v)) /\
  (mc_ansgen_packet.state self = ap_any ->
   mc_ansgen_packet_set_query_type v self 1
   = Some (mc_ansgen_packet.set_state ap_version self, v)).
Proof.
  intros W. split; [|split].
  - intros NV. split.
    + intros S. split.
      * intros self' v' H. exact (mc_deliver_commits _ _ _ _ _ NV S W H).
      * intros L H. exact (mc_deliver_abort _ _ _ NV S W L H).
    + intros S1 S2. exact (mc_deliver_mismatch _ v _ NV W S1 S2).
  - intros V S. destruct f; try discriminate V. apply mc_version_ignored. exact S.
  - intros S. unfold mc_ansgen_packet_set_query_type. simpl. rewrite S. reflexivity.
Qed.

Lemma mc_commit_or_error_witness :
  exists msg,
    unexpected_message (frag_xstored true) = Some msg /\
    mc_deliver (frag_xstored true) qmem_start (example_mc ap_get)
    = Some (errored qmem_start (example_mc ap_get) msg, qmem_start).
Proof.
  apply (proj1 (mc_commit_or_error (frag_xstored true) qmem_start
                  (example_mc ap_get) eq_refl) eq_refl).
  - discriminate.
  - discriminate.
Defined.

(** ** The slot window *)

Lemma max_slot_quarter : Z.quot max_slot_id 4 = 250000000.
Proof. reflexivity. Qed.

Lemma max_slot_half : Z.quot max_slot_id 2 = 500000000.
Proof. reflexivity. Qed.

Lemma init_slots_range r s :
  lrand48_range r ->
  exists x, init_slots r s = mk_slots x x /\ 1 <= x <= 250000000.
Proof.
  intros [H0 H1]. unfold init_slots. rewrite max_slot_quarter.
  eexists. split; [reflexivity|].
  pose proof (Z.rem_bound_pos r 250000000 H0). lia.
Qed.

Lemma slot_step_invariant o h :
  slot_op_wf o -> slot_invariant h -> slot_invariant (slot_step o h).
Proof.
  intros W [B [E [I P]]]. destruct o as [|r]; simpl.
  - unfold create_slot. unfold max_slot_id in *.
    destruct (end_slot_id (window h) >? 1000000000) eqn:C; simpl.
    + split; [exact B|]. split; [exact E|]. split; [exact I | exact P].
    + assert (N : (end_slot_id (window h) =? -1) = false)
        by (apply Z.eqb_neq; lia).
      rewrite N. unfold slot_invariant. simpl.
      split; [lia|]. split; [lia|]. split.
      * intros s. specialize (I s). split.
        -- intros [<-|H]; [lia|]. apply I in H. lia.
        -- intros H.
           destruct (Z.eq_dec s (end_slot_id (window h))) as [->|D];
             [left; reflexivity|].
           right. apply I. lia.
      * exact P.
  - simpl in W. unfold clear_slots. simpl. rewrite max_slot_half.
    destruct (end_slot_id (window h) >? 500000000) eqn:C.
    + destruct (init_slots_range r (mk_slots (end_slot_id (window h))
                                             (end_slot_id (window h))) W)
        as [x [EQ R]].
      rewrite EQ. unfold slot_invariant. simpl. unfold max_slot_id.
      split; [lia|]. split; [lia|]. split.
      * intros s. split; [intros [] | lia].
      * rewrite orb_true_r. discriminate.
    + unfold slot_invariant. simpl.
      split; [lia|]. split; [lia|]. split.
      * intros s. split; [intros [] | lia].
      * rewrite orb_false_r. intros R s H. apply in_app_or in H.
        destruct H as [H|H]; [apply I in H; lia|].
        specialize (P R s H). lia.
Qed.

Lemma slot_run_invariant ops : forall h,
  Forall slot_op_wf ops -> slot_invariant h -> slot_invariant (slot_run ops h).
Proof.
  induction ops as [|o ops IH]; intros h W I; simpl; [exact I|].
  inversion W; subst. apply IH; [assumption|].
  apply slot_step_invariant; assumption.
Qed.

Lemma slot_history_start_invariant r :
  lrand48_range r -> slot_invariant (slot_history_start r).
Proof.
  intros R. destruct (init_slots_range r slots_start R) as [x [EQ B]].
  unfold slot_invariant, slot_history_start. rewrite EQ. simpl.
  unfold max_slot_id.
  split; [lia|]. split; [lia|]. split.
  - intros s. simpl. split; [intros [] | lia].
  - intros _ s [].
Qed.

(** C7, amended.  After [init_slots] and any calls of [create_slot] and
    [clear_slots], [is_valid_slot (s)] holds exactly for the slots that
    [create_slot] returned since the last [clear_slots]; and as long as
    no [clear_slots] has reseeded the window, no slot returned before the
    last [clear_slots] is valid. *)
Theorem slot_validity (r : Z) (ops : list slot_op) (s : Z) :
  lrand48_range r -> Forall slot_op_wf ops ->
  (is_valid_slot s (window (slot_run ops (slot_history_start r))) = true <->
   In s (issued (slot_run ops (slot_history_start r)))) /\
  (reseeded (slot_run ops (slot_history_start r)) = false ->
   In s (issued_before (slot_run ops (slot_history_start r))) ->
   is_valid_slot s (window (slot_run ops (slot_history_start r))) = false).
Proof.
  intros R W.
  destruct (slot_run_invariant ops _ W (slot_history_start_invariant r R))
    as [B [E [I P]]].
  unfold is_valid_slot. split.
  - rewrite I, andb_true_iff, Z.leb_le, Z.ltb_lt. reflexivity.
  - intros NR H. specialize (P NR s H).
    apply andb_false_iff. left. apply Z.leb_gt. exact P.
Qed.

Lemma slot_step_create h :
  0 <= end_slot_id (window h) <= max_slot_id ->
  slot_step slot_create h
  = mk_slot_history
      (mk_slots (begin_slot_id (window h)) (end_slot_id (window h) + 1))
      (end_slot_id (window h) :: issued h) (issued_before h) (reseeded h).
Proof.
  intros B. simpl. unfold create_slot.
  assert (C : (end_slot_id (window h) >? max_slot_id) = false)
    by (rewrite Z.gtb_ltb; apply Z.ltb_ge; lia).
  assert (D : (end_slot_id (window h) =? -1) = false)
    by (apply Z.eqb_neq; lia).
  rewrite C, D. reflexivity.
Qed.

Lemma create_many k : forall h,
  0 <= end_slot_id (window h) ->
  end_slot_id (window h) + Z.of_nat k <= max_slot_id + 1 ->
  window (slot_run (repeat slot_create k) h)
  = mk_slots (begin_slot_id (window h)) (end_slot_id (window h) + Z.of_nat k) /\
  (forall s, In s (issued h) ->
             In s (issued (slot_run (repeat slot_create k) h))) /\
  (forall s, end_slot_id (window h) <= s < end_slot_id (window h) + Z.of_nat k ->
             In s (issued (slot_run (repeat slot_create k) h))) /\
  issued_before (slot_run (repeat slot_create k) h) = issued_before h.
Proof.
  induction k as [|k IH]; intros h B0 B.
  - simpl. rewrite Z.add_0_r.
    split; [destruct h as [[b e] i ib rs]; reflexivity|].
    split; [auto|]. split; [intros s H; lia | reflexivity].
  - rewrite Nat2Z.inj_succ in *. simpl repeat.
    change (slot_run (slot_create :: repeat slot_create k) h)
      with (slot_run (repeat slot_create k) (slot_step slot_create h)).
    rewrite slot_step_create by lia.
    match goal with
    | |- context [slot_run _ ?h1] => destruct (IH h1) as [Hw [Hk [Hn Hb]]]
    end; [simpl; lia | unfold max_slot_id in *; simpl; lia |].
    simpl in Hw, Hk, Hn, Hb.
    split; [rewrite Hw; f_equal; lia|].
    split; [|split].
    + intros s H. apply Hk. right. exact H.
    + intros s H.
      destruct (Z.eq_dec s (end_slot_id (window h))) as [->|D].
      * apply Hk. left. reflexivity.
      * apply Hn. lia.
    + exact Hb.
Qed.

Lemma reseed_ops_wf : Forall slot_op_wf reseed_ops.
Proof.
  unfold reseed_ops. apply Forall_app. split.
  - apply Forall_forall. intros o H. apply repeat_spec in H. subst o. exact I.
  - constructor; [|constructor; [exact I | constructor]].
    simpl. unfold lrand48_range. lia.
Qed.

Lemma slot_run_app ops1 ops2 h :
  slot_run (ops1 ++ ops2) h = slot_run ops2 (slot_run ops1 h).
Proof. unfold slot_run. apply fold_left_app. Qed.

(** the run of the counterexample, with the number of slots abstract *)
Lemma reseed_replay (k : nat) :
  Z.of_nat k = 500000000 ->
  In 1 (issued_before
          (slot_run (repeat slot_create k ++ [slot_invalidate_all 0; slot_create])
                    (slot_history_start 0))) /\
  is_valid_slot 1
    (window
       (slot_run (repeat slot_create k ++ [slot_invalidate_all 0; slot_create])
                 (slot_history_start 0))) = true.
Proof.
  intros K. rewrite slot_run_app.
  destruct (create_many k (slot_history_start 0)) as [Hw [_ [Hn Hb]]].
  { simpl. lia. }
  { rewrite K. simpl. unfold max_slot_id. lia. }
  rewrite K in Hw, Hn.
  change (window (slot_history_start 0)) with (mk_slots 1 1) in Hw, Hn.
  simpl in Hw, Hn.
  specialize (Hn 1 ltac:(lia)).
  destruct (slot_run (repeat slot_create k) (slot_history_start 0))
    as [w i ib rs].
  simpl in Hw, Hn, Hb. subst w. simpl.
  split; [|reflexivity].
  apply in_or_app. left. exact Hn.
Qed.

Lemma reseed_count : Z.of_nat (Z.to_nat 500000000) = 500000000.
Proof. apply Z2Nat.id. discriminate. Qed.

Lemma reseed_ops_replay :
  In 1 (issued_before (slot_run reseed_ops (slot_history_start 0))) /\
  is_valid_slot 1 (window (slot_run reseed_ops (slot_history_start 0))) = true.
Proof. exact (reseed_replay (Z.to_nat 500000000) reseed_count). Qed.

(** C7, as stated, fails across a reseeding [clear_slots]: slot 1, the
    first one issued, is issued again after the window was reseeded. *)
Lemma slot_validity_across_reseed_counterexample : ~ slot_validity_across_reseed.
Proof.
  intros C.
  assert (R0 : lrand48_range 0) by (unfold lrand48_range; lia).
  destruct reseed_ops_replay as [B V].
  exact (eq_true_false_abs _ V
           (proj2 (C 0 reseed_ops 1 R0 reseed_ops_wf) B)).
Qed.

(** ** The ring queue *)

Ltac cases :=
  repeat match goal with
         | |- context [?a <? ?b] => destruct (Z.ltb_spec a b)
         | |- context [?a =? ?b] => destruct (Z.eqb_spec a b)
         | H : context [?a <? ?b] |- _ => destruct (Z.ltb_spec a b)
         | H : context [?a =? ?b] |- _ => destruct (Z.eqb_spec a b)
         end.

Section StaticQueueFacts.
Variable DataT : Type.
Variable N : Z.

Local Abbreviation queue := (StaticQueue.t DataT).

Lemma idx_range b i :
  0 <= b < N -> 0 <= i <= N -> 0 <= StaticQueue.idx N b i < N.
Proof. intros. unfold StaticQueue.idx. cases; lia. Qed.

Lemma idx_zero b : 0 <= b < N -> StaticQueue.idx N b 0 = b.
Proof. intros. unfold StaticQueue.idx. cases; lia. Qed.

Lemma idx_next b i :
  0 <= b < N -> 0 <= i < N ->
  StaticQueue.idx N (if b + 1 =? N then 0 else b + 1) i
  = StaticQueue.idx N b (i + 1).
Proof. intros. unfold StaticQueue.idx. cases; lia. Qed.

Lemma idx_step b i :
  0 <= b < N -> 0 <= i < N ->
  (if StaticQueue.idx N b i + 1 =? N then 0 else StaticQueue.idx N b i + 1)
  = StaticQueue.idx N b (i + 1).
Proof. intros. unfold StaticQueue.idx. cases; lia. Qed.

Lemma idx_back b i :
  0 <= b < N -> 0 <= i < N ->
  (if StaticQueue.idx N b (i + 1) - 1 =? -1
   then N - 1 else StaticQueue.idx N b (i + 1) - 1)
  = StaticQueue.idx N b i.
Proof. intros. unfold StaticQueue.idx. cases; lia. Qed.

Lemma idx_distinct b i j :
  0 <= b < N -> 0 <= i < j -> j < N ->
  StaticQueue.idx N b i <> StaticQueue.idx N b j.
Proof. intros. unfold StaticQueue.idx. cases; lia. Qed.

Lemma wf_end_range (sq : queue) :
  StaticQueue.wf N sq -> 0 <= StaticQueue.end_ sq < N.
Proof. intros [B [C E]]. rewrite E. apply idx_range; lia. Qed.

Lemma records_length (sq : queue) :
  0 <= StaticQueue.cnt sq ->
  Z.of_nat (length (StaticQueue.records N sq)) = StaticQueue.cnt sq.
Proof.
  intros H. unfold StaticQueue.records. rewrite length_map, length_seq. lia.
Qed.

(** the records do not change when a record outside them is written *)
Lemma records_store_outside (sq : queue) x :
  StaticQueue.wf N sq -> StaticQueue.cnt sq <> N ->
  StaticQueue.records N (StaticQueue.store (StaticQueue.end_ sq) x sq)
  = StaticQueue.records N sq.
Proof.
  intros [B [C E]] NF. unfold StaticQueue.records. simpl.
  apply map_ext_in. intros i Hi. apply in_seq in Hi.
  destruct (Z.eqb_spec (StaticQueue.idx N (StaticQueue.begin sq) (Z.of_nat i))
                       (StaticQueue.end_ sq)) as [A|A]; [|reflexivity].
  exfalso. rewrite E in A. revert A. apply idx_distinct; lia.
Qed.

Lemma create_step (sq : queue) x :
  StaticQueue.wf N sq -> StaticQueue.cnt sq <> N ->
  exists sq',
    StaticQueue.create N sq = (Some (StaticQueue.end_ sq), sq') /\
    StaticQueue.wf N (StaticQueue.store (StaticQueue.end_ sq) x sq') /\
    StaticQueue.records N (StaticQueue.store (StaticQueue.end_ sq) x sq')
    = StaticQueue.records N sq ++ [x].
Proof.
  intros W NF. pose proof W as [B [C E]].
  unfold StaticQueue.create.
  destruct (Z.eqb_spec (StaticQueue.cnt sq) N) as [F|_]; [contradiction|].
  cbv zeta. eexists. split; [reflexivity|]. split.
  - unfold StaticQueue.wf. simpl. split; [exact B|]. split; [lia|].
    rewrite E. apply idx_step; lia.
  - unfold StaticQueue.records. simpl.
    replace (Z.to_nat (StaticQueue.cnt sq + 1))
      with (S (Z.to_nat (StaticQueue.cnt sq))) by lia.
    rewrite seq_S, map_app. simpl. f_equal.
    + apply map_ext_in. intros i Hi. apply in_seq in Hi.
      destruct (Z.eqb_spec
                  (StaticQueue.idx N (StaticQueue.begin sq) (Z.of_nat i))
                  (StaticQueue.end_ sq)) as [A|A]; [|reflexivity].
      exfalso. rewrite E in A. revert A. apply idx_distinct; lia.
    + rewrite Z2Nat.id by lia. rewrite <- E. rewrite Z.eqb_refl. reflexivity.
Qed.

Lemma pop_step (sq : queue) :
  StaticQueue.wf N sq -> StaticQueue.cnt sq <> 0 ->
  exists sq',
    StaticQueue.pop N sq = (Some (StaticQueue.begin sq), sq') /\
    StaticQueue.wf N sq' /\
    StaticQueue.records N sq
    = StaticQueue.q sq' (StaticQueue.begin sq) :: StaticQueue.records N sq'.
Proof.
  intros W NE. pose proof W as [B [C E]].
  unfold StaticQueue.pop, StaticQueue.empty.
  destruct (Z.eqb_spec (StaticQueue.cnt sq) 0) as [F|_]; [contradiction|].
  cbv zeta. eexists. split; [reflexivity|]. split.
  - unfold StaticQueue.wf. simpl. split; [cases; lia|]. split; [lia|].
    rewrite E. rewrite idx_next by lia. f_equal. lia.
  - unfold StaticQueue.records. simpl.
    replace (Z.to_nat (StaticQueue.cnt sq))
      with (S (Z.to_nat (StaticQueue.cnt sq - 1))) by lia.
    simpl. rewrite idx_zero by exact B. f_equal.
    rewrite <- seq_shift, map_map.
    apply map_ext_in. intros i Hi. apply in_seq in Hi.
    rewrite idx_next by lia. rewrite Nat2Z.inj_succ. reflexivity.
Qed.

Lemma new_wf (q0 : Z -> DataT) :
  0 < N ->
  StaticQueue.wf N (StaticQueue.new q0) /\
  StaticQueue.records N (StaticQueue.new q0) = [].
Proof.
  intros N_pos. split; [|reflexivity]. unfold StaticQueue.wf. simpl.
  rewrite idx_zero by lia. lia.
Qed.

Lemma run_refines ops : forall sq : queue,
  StaticQueue.wf N sq ->
  StaticQueue.run N ops sq
  = StaticQueue.fifo_run N ops (StaticQueue.records N sq).
Proof.
  induction ops as [|o ops IH]; intros sq W; [reflexivity|].
  pose proof W as [B [C E]]. simpl. destruct o as [x|].
  - simpl. rewrite records_length by lia.
    destruct (Z.eqb_spec (StaticQueue.cnt sq) N) as [F|F].
    + unfold StaticQueue.create.
      rewrite (proj2 (Z.eqb_eq _ _) F). f_equal. apply IH. exact W.
    + destruct (create_step sq x W F) as [sq' [Ec [W' R]]].
      rewrite Ec. f_equal. rewrite <- R. apply IH. exact W'.
  - simpl. destruct (Z.eq_dec (StaticQueue.cnt sq) 0) as [F|F].
    + unfold StaticQueue.pop, StaticQueue.empty.
      rewrite (proj2 (Z.eqb_eq _ _) F).
      assert (R : StaticQueue.records N sq = []).
      { unfold StaticQueue.records. rewrite F. reflexivity. }
      rewrite R. f_equal. rewrite <- R. apply IH. exact W.
    + destruct (pop_step sq W F) as [sq' [Ep [W' R]]].
      rewrite Ep, R. f_equal. apply IH. exact W'.
Qed.

(** C5.  On a queue of capacity [N], any sequence of [create] (each
    followed by filling the record in) and [pop] (each followed by
    reading the record) gives the results of a FIFO list of at most
    [N] records: [pop] hands out the records in the order of their
    creation, [pop] on the empty queue returns nothing, and [create]
    with [N] records unpopped fails.  The two failing calls leave the
    queue as it was. *)
Theorem queue_fifo (q0 : Z -> DataT) (ops : list (StaticQueue.op DataT)) :
  0 < N ->
  StaticQueue.run N ops (StaticQueue.new q0) = StaticQueue.fifo_run N ops [] /\
  (forall sq : queue,
      StaticQueue.empty sq = true -> StaticQueue.pop N sq = (None, sq)) /\
  (forall sq : queue,
      StaticQueue.cnt sq = N -> StaticQueue.create N sq = (None, sq)).
Proof.
  intros N_pos. split; [|split].
  - destruct (new_wf q0 N_pos) as [W R]. rewrite <- R. apply run_refines. exact W.
  - intros sq H. unfold StaticQueue.pop. rewrite H. reflexivity.
  - intros sq H. unfold StaticQueue.create.
    rewrite (proj2 (Z.eqb_eq _ _) H). reflexivity.
Qed.

(** C6.  [undo_create] on the record that [create] has just returned
    gives back the queue as it was before the [create]: the array,
    [begin], [end] and [cnt], also when [end] went around the end of
    the array. *)
Theorem undo_create_restores (sq : queue) :
  0 <= StaticQueue.end_ sq < N -> StaticQueue.cnt sq <> N ->
  exists event sq',
    StaticQueue.create N sq = (Some event, sq') /\
    event = StaticQueue.end_ sq /\
    StaticQueue.undo_create N event sq' = Some sq.
Proof.
  intros E NF. unfold StaticQueue.create.
  destruct (Z.eqb_spec (StaticQueue.cnt sq) N) as [F|_]; [contradiction|].
  cbv zeta. eexists. eexists. split; [reflexivity|]. split; [reflexivity|].
  unfold StaticQueue.undo_create. simpl.
  assert (O : (if (if StaticQueue.end_ sq + 1 =? N
                   then 0 else StaticQueue.end_ sq + 1) - 1 =? -1
               then N - 1
               else (if StaticQueue.end_ sq + 1 =? N
                     then 0 else StaticQueue.end_ sq + 1) - 1)
              = StaticQueue.end_ sq) by (cases; lia).
  rewrite O, Z.eqb_refl. simpl.
  replace (StaticQueue.cnt sq + 1 - 1) with (StaticQueue.cnt sq) by lia.
  destruct sq; reflexivity.
Qed.

Lemma create_some (sq : queue) :
  StaticQueue.cnt sq <> N ->
  StaticQueue.create N sq
  = (Some (StaticQueue.end_ sq),
     StaticQueue.mk (StaticQueue.q sq) (StaticQueue.begin sq)
       (if StaticQueue.end_ sq + 1 =? N then 0 else StaticQueue.end_ sq + 1)
       (StaticQueue.cnt sq + 1)).
Proof.
  intros NF. unfold StaticQueue.create.
  destruct (Z.eqb_spec (StaticQueue.cnt sq) N) as [F|_]; [contradiction|].
  reflexivity.
Qed.

(** [undo_create] after [create], whatever was written into the array in
    between *)
Lemma undo_create_after (sq : queue) (q' : Z -> DataT) :
  0 <= StaticQueue.end_ sq < N ->
  StaticQueue.undo_create N (StaticQueue.end_ sq)
    (StaticQueue.mk q' (StaticQueue.begin sq)
       (if StaticQueue.end_ sq + 1 =? N then 0 else StaticQueue.end_ sq + 1)
       (StaticQueue.cnt sq + 1))
  = Some (StaticQueue.mk q' (StaticQueue.begin sq) (StaticQueue.end_ sq)
                         (StaticQueue.cnt sq)).
Proof.
  intros E. unfold StaticQueue.undo_create.
  cbn [StaticQueue.q StaticQueue.begin StaticQueue.end_ StaticQueue.cnt].
  assert (O : (if (if StaticQueue.end_ sq + 1 =? N
                   then 0 else StaticQueue.end_ sq + 1) - 1 =? -1
               then N - 1
               else (if StaticQueue.end_ sq + 1 =? N
                     then 0 else StaticQueue.end_ sq + 1) - 1)
              = StaticQueue.end_ sq) by (cases; lia).
  rewrite O, Z.eqb_refl. cbn [assert bind].
  rewrite Z.add_simpl_r. reflexivity.
Qed.

(** writing outside the records leaves them as they are *)
Lemma records_outside (sq : queue) (q' : Z -> DataT) :
  StaticQueue.wf N sq -> StaticQueue.cnt sq <> N ->
  (forall i, i <> StaticQueue.end_ sq -> q' i = StaticQueue.q sq i) ->
  StaticQueue.records N
    (StaticQueue.mk q' (StaticQueue.begin sq) (StaticQueue.end_ sq)
                    (StaticQueue.cnt sq))
  = StaticQueue.records N sq.
Proof.
  intros [B [C E]] NF Q. unfold StaticQueue.records.
  cbn [StaticQueue.q StaticQueue.begin StaticQueue.end_ StaticQueue.cnt].
  apply map_ext_in. intros i Hi. apply in_seq in Hi.
  apply Q. rewrite E. apply idx_distinct; lia.
Qed.

End StaticQueueFacts.

Lemma queue_fifo_witness :
  StaticQueue.run 3 example_queue_ops (StaticQueue.new (fun _ => 0))
  = [StaticQueue.created; StaticQueue.created; StaticQueue.popped 1;
     StaticQueue.created; StaticQueue.created; StaticQueue.queue_full;
     StaticQueue.popped 2; StaticQueue.popped 3; StaticQueue.popped 4;
     StaticQueue.none].
Proof.
  exact (eq_trans
           (proj1 (queue_fifo Z 3 (fun _ => 0) example_queue_ops eq_refl))
           eq_refl).
Defined.

Lemma undo_create_restores_witness :
  exists event sq',
    StaticQueue.create 3 example_queue = (Some event, sq') /\
    event = 2 /\
    StaticQueue.undo_create 3 event sq' = Some example_queue.
Proof.
  apply (undo_create_restores Z 3 example_queue).
  - simpl. lia.
  - simpl. lia.
Defined.

(** ** Events *)

Lemma net_events_N_pos : 0 < net_events_N.
Proof. reflexivity. Qed.

(** C10.  When the slot is valid, the event queue has room, the length
    is not zero and [dl_allocate_safe] returns a null pointer,
    [create_rpc_answer_event] returns [-1] with nothing in [*res], and
    the queue has the [begin], [end] and [cnt] and the records it had
    before the call; the array differs at most in the element that was
    handed out and taken back, which is outside the records. *)
Theorem create_rpc_answer_event_rollback
        (ml_flag : bool) (dl_allocate : Z -> option Z) (s : slots)
        (net_events : net_events_t) (slot len : Z) (res_given : bool) :
  StaticQueue.wf net_events_N net_events ->
  StaticQueue.cnt net_events <> net_events_N ->
  is_valid_slot slot s = true ->
  len <> 0 ->
  dl_allocate_safe ml_flag dl_allocate (size_of_int len) = Some None ->
  exists net_events',
    create_rpc_answer_event ml_flag dl_allocate s net_events slot len res_given
    = Some (-1, None, net_events') /\
    StaticQueue.begin net_events' = StaticQueue.begin net_events /\
    StaticQueue.end_ net_events' = StaticQueue.end_ net_events /\
    StaticQueue.cnt net_events' = StaticQueue.cnt net_events /\
    StaticQueue.records net_events_N net_events'
    = StaticQueue.records net_events_N net_events /\
    (forall i, i <> StaticQueue.end_ net_events ->
               StaticQueue.q net_events' i = StaticQueue.q net_events i).
Proof.
  intros W NF V L A.
  pose proof (wf_end_range _ _ _ W) as ER.
  set (q' := fun i : Z =>
               if i =? StaticQueue.end_ net_events
               then set_type ne_rpc_answer
                      (if StaticQueue.end_ net_events =? StaticQueue.end_ net_events
                       then set_slot_id slot
                              (StaticQueue.q net_events (StaticQueue.end_ net_events))
                       else StaticQueue.q net_events (StaticQueue.end_ net_events))
               else if i =? StaticQueue.end_ net_events
                    then set_slot_id slot
                           (StaticQueue.q net_events (StaticQueue.end_ net_events))
                    else StaticQueue.q net_events i).
  assert (Al : alloc_net_event s net_events slot ne_rpc_answer
               = (1, Some (StaticQueue.end_ net_events),
                  StaticQueue.mk q' (StaticQueue.begin net_events)
                    (if StaticQueue.end_ net_events + 1 =? net_events_N
                     then 0 else StaticQueue.end_ net_events + 1)
                    (StaticQueue.cnt net_events + 1))).
  { unfold alloc_net_event. rewrite V. cbn [negb].
    rewrite (create_some _ _ _ NF). reflexivity. }
  exists (StaticQueue.mk q' (StaticQueue.begin net_events)
                         (StaticQueue.end_ net_events)
                         (StaticQueue.cnt net_events)).
  split.
  - unfold create_rpc_answer_event. rewrite Al.
    change (1 <=? 0) with false. cbv iota.
    destruct (Z.eqb_spec len 0) as [Z0|_]; [contradiction|].
    cbn [negb]. rewrite A. cbn [bind].
    unfold unalloc_net_event. rewrite (undo_create_after _ _ _ q' ER).
    reflexivity.
  - cbn [StaticQueue.q StaticQueue.begin StaticQueue.end_ StaticQueue.cnt].
    assert (Q : forall i, i <> StaticQueue.end_ net_events ->
                          q' i = StaticQueue.q net_events i).
    { intros i D. unfold q'.
      destruct (Z.eqb_spec i (StaticQueue.end_ net_events));
        [contradiction | reflexivity]. }
    split; [reflexivity|]. split; [reflexivity|]. split; [reflexivity|].
    split; [|exact Q].
    apply records_outside; assumption.
Qed.

Lemma create_rpc_answer_event_rollback_witness :
  exists net_events',
    create_rpc_answer_event true (fun _ => None) (mk_slots 5 9)
                            example_net_events 7 100 true
    = Some (-1, None, net_events') /\
    StaticQueue.begin net_events' = 1999998 /\
    StaticQueue.end_ net_events' = 1999999 /\
    StaticQueue.cnt net_events' = 1 /\
    StaticQueue.records net_events_N net_events'
    = StaticQueue.records net_events_N example_net_events /\
    (forall i, i <> 1999999 ->
               StaticQueue.q net_events' i = StaticQueue.q example_net_events i).
Proof.
  apply (create_rpc_answer_event_rollback true (fun _ => None) (mk_slots 5 9)
           example_net_events 7 100 true).
  - unfold StaticQueue.wf. simpl. unfold net_events_N. repeat split; lia.
  - simpl. unfold net_events_N. lia.
  - reflexivity.
  - lia.
  - reflexivity.
Defined.

(** ** The last net error *)

Lemma c_str_app (a r : list ascii) :
  Forall (fun c => c <> zero) a -> c_str (a ++ zero :: r) = a.
Proof.
  induction 1 as [|c a Hc _ IH]; simpl.
  - reflexivity.
  - destruct (Ascii.eqb_spec c zero) as [E|_]; [contradiction|].
    rewrite IH. reflexivity.
Qed.

Lemma Forall_take {A : Type} (P : A -> Prop) (n : nat) (l : list A) :
  Forall P l -> Forall P (firstn n l).
Proof.
  revert l. induction n as [|n IH]; intros l H; simpl; [constructor|].
  destruct H; constructor; auto.
Qed.

Lemma strlen_int_small s : is_c_string s -> strlen_int s = Z.of_nat (length s).
Proof.
  intros [_ L]. unfold strlen_int, int_of_size. unfold INT_MAX in *.
  rewrite Z.mod_small by lia.
  destruct (Z.leb_spec (Z.of_nat (length s)) (2 ^ 31 - 1)); lia.
Qed.

Lemma save_last_net_error_prefix s buf l :
  is_c_string s -> length buf = last_net_error_size ->
  (l <= length s)%nat -> (l < last_net_error_size)%nat ->
  length (poke (memcpy buf s l) l zero) = last_net_error_size /\
  c_str (poke (memcpy buf s l) l zero) = firstn l s.
Proof.
  intros [NZ _] LB Ls Lb. unfold poke, memcpy.
  assert (F : firstn l (firstn l s ++ skipn l buf) = firstn l s).
  { rewrite firstn_app, firstn_firstn, Nat.min_id, length_firstn.
    replace (l - Nat.min l (length s))%nat with 0%nat by lia.
    simpl. apply app_nil_r. }
  rewrite F. split.
  - rewrite length_app. cbn [length].
    rewrite length_skipn, length_app, !length_firstn, length_skipn. lia.
  - apply c_str_app. apply Forall_take. exact NZ.
Qed.

(** C8, as stated, fails at 128 bytes: a string of 128 letters is cut to
    127. *)
Lemma stored_whole_up_to_128_counterexample : ~ stored_whole_up_to_128.
Proof.
  intros C.
  specialize (C (repeat letter_a 128) (repeat zero 129)
                (repeat letter_a 127 ++ repeat zero 2)).
  assert (E : repeat letter_a 127 = repeat letter_a 128).
  { apply C.
    - split.
      + apply Forall_forall. intros c H. apply repeat_spec in H. subst c.
        discriminate.
      + rewrite repeat_length. unfold INT_MAX. lia.
    - reflexivity.
    - rewrite repeat_length. unfold MAX_NET_ERROR_LEN. lia.
    - vm_compute. reflexivity. }
  apply (f_equal (@length ascii)) in E. rewrite !repeat_length in E. discriminate E.
Qed.

(** C8, amended.  [save_last_net_error] keeps a string of at most 127
    bytes whole and cuts a string of 128 bytes or more to its first 127
    bytes, without an error; so does a query that ends in an error, with
    the text of its answer. *)
Theorem save_last_net_error_stored (s buf : list ascii) :
  is_c_string s -> length buf = last_net_error_size ->
  exists buf',
    save_last_net_error (Some s) buf = Some buf' /\
    length buf' = last_net_error_size /\
    c_str buf' =
    (if Z.of_nat (length s) <? MAX_NET_ERROR_LEN
     then s else firstn (Z.to_nat (MAX_NET_ERROR_LEN - 1)) s) /\
    (forall res,
        answer.state res = nq_error ->
        option_map list_ascii_of_string (answer.res res) = Some s ->
        engine_run_query_error res buf = Some buf').
Proof.
  intros CS LB. unfold save_last_net_error.
  rewrite (strlen_int_small _ CS). unfold MAX_NET_ERROR_LEN.
  destruct (Z.ltb_spec (Z.of_nat (length s)) 128) as [Lt|Ge].
  - assert (G : (Z.of_nat (length s) >=? 128) = false)
      by (rewrite Z.geb_leb; apply Z.leb_gt; lia).
    rewrite G.
    assert (P : (0 <=? Z.of_nat (length s)) = true) by (apply Z.leb_le; lia).
    rewrite P. simpl bind. rewrite Nat2Z.id.
    destruct (save_last_net_error_prefix s buf (length s) CS LB) as [L1 L2].
    + lia.
    + unfold last_net_error_size, MAX_NET_ERROR_LEN. lia.
    + eexists. split; [reflexivity|]. split; [exact L1|]. split.
      * rewrite L2. apply firstn_all.
      * intros res E1 E2. unfold engine_run_query_error, save_last_net_error.
        rewrite E1, E2, (strlen_int_small _ CS). unfold MAX_NET_ERROR_LEN.
        rewrite G, P. simpl bind. rewrite Nat2Z.id. reflexivity.
  - assert (G : (Z.of_nat (length s) >=? 128) = true)
      by (rewrite Z.geb_leb; apply Z.leb_le; lia).
    rewrite G. simpl bind.
    destruct (save_last_net_error_prefix s buf (Z.to_nat (128 - 1)) CS LB)
      as [L1 L2].
    + lia.
    + unfold last_net_error_size, MAX_NET_ERROR_LEN. lia.
    + eexists. split; [reflexivity|]. split; [exact L1|]. split.
      * exact L2.
      * intros res E1 E2. unfold engine_run_query_error, save_last_net_error.
        rewrite E1, E2, (strlen_int_small _ CS). unfold MAX_NET_ERROR_LEN.
        rewrite G. reflexivity.
Qed.

Lemma save_last_net_error_stored_witness :
  exists buf',
    save_last_net_error (Some (repeat letter_a 128)) (repeat zero 129)
    = Some buf' /\
    length buf' = last_net_error_size /\
    c_str buf' = repeat letter_a 127 /\
    (forall res,
        answer.state res = nq_error ->
        option_map list_ascii_of_string (answer.res res)
        = Some (repeat letter_a 128) ->
        engine_run_query_error res (repeat zero 129) = Some buf').
Proof.
  apply (save_last_net_error_stored (repeat letter_a 128) (repeat zero 129)).
  - split.
    + apply Forall_forall. intros c H. apply repeat_spec in H. subst c.
      discriminate.
    + rewrite repeat_length. unfold INT_MAX. lia.
  - reflexivity.
Defined.

Lemma slot_validity_witness :
  (is_valid_slot 4 (window (slot_run example_slot_ops (slot_history_start 3)))
   = true <->
   In 4 (issued (slot_run example_slot_ops (slot_history_start 3)))) /\
  (reseeded (slot_run example_slot_ops (slot_history_start 3)) = false ->
   In 4 (issued_before (slot_run example_slot_ops (slot_history_start 3))) ->
   is_valid_slot 4 (window (slot_run example_slot_ops (slot_history_start 3)))
   = false).
Proof.
  apply (slot_validity 3 example_slot_ops 4).
  - unfold lrand48_range. lia.
  - unfold example_slot_ops.
    repeat (apply Forall_cons || apply Forall_nil); simpl;
      unfold lrand48_range; try exact I; lia.
Defined.

(** ** The scenarios of the specification, run on the model *)

(** memcached get: two value fragments and the end marker *)
Example scenario_memcached_get :
  exists self v,
    (do (self, v) <- mc_deliver (frag_value "ab"%string) (pool arena_inited)
                                (example_mc ap_any);
     do (self, v) <- mc_deliver (frag_value "cd"%string) v self;
     mc_deliver frag_end v self) = Some (self, v) /\
    base_state self = st_ansgen_done /\
    answer.state (net_ansgen.ans (mc_ansgen_packet.base self)) = nq_ok /\
    answer.res (net_ansgen.ans (mc_ansgen_packet.base self))
    = Some ("abcdEND" ++ CRLF)%string.
Proof.
  eexists. eexists. split; [vm_compute; reflexivity|].
  split; [reflexivity|]. split; reflexivity.
Qed.

(** memcached state violation: a stored fragment after a value fragment *)
Example scenario_memcached_violation :
  exists self v,
    (do (self, v) <- mc_deliver (frag_value "ab"%string) (pool arena_inited)
                                (example_mc ap_any);
     mc_deliver (frag_xstored true) v self) = Some (self, v) /\
    base_state self = st_ansgen_error /\
    answer.res (net_ansgen.ans (mc_ansgen_packet.base self))
    = Some "Unexpected STORED"%string.
Proof.
  eexists. eexists. split; [vm_compute; reflexivity|].
  split; reflexivity.
Qed.

(** stale generator: a fragment after [qmem_clear] changes nothing but
    the sub-state *)
Example scenario_stale_generator :
  exists v,
    qmem_clear (pool arena_inited) = Some v /\
    mc_deliver (frag_value "ab"%string) v (example_mc ap_any)
    = Some (example_mc ap_get, v).
Proof. eexists. split; [vm_compute; reflexivity | reflexivity]. Qed.

(** a call of the allocator before [qmem_init] is outside the life cycle:
    [qmem_init] resets the pages and not [used_mem] *)
Example allocate_before_init :
  exists a,
    arena_run [op_allocate qmem.page_size; op_init] arena_start = Some a /\
    qmem.used_mem (pool a) + free_bytes (pool a)
    = total_reserved_bytes (pool a) + qmem.page_size.
Proof. eexists. split; [vm_compute; reflexivity | reflexivity]. Qed.

(** [cur_mem] is set by [qmem_init] only: it counts the static pages and
    is not the sum of the page sizes once a dynamic page is held *)
Example cur_mem_counts_static_pages :
  exists a,
    arena_run [op_allocate_peek 5000000] arena_inited = Some a /\
    qmem.cur_mem (pool a) = 2 * qmem.page_size /\
    total_reserved_bytes (pool a) = 2 * qmem.page_size + 5000000.
Proof. eexists. split; [vm_compute; reflexivity | split; reflexivity]. Qed.

(** arena exhaustion: a thousand blocks of 4 MiB fill the two static
    pages and 998 dynamic ones; the next call aborts on the page count *)
Example scenario_arena_exhaustion :
  (exists a,
      arena_run (repeat (op_allocate qmem.page_size) 1000) arena_inited = Some a /\
      length (live a) = 1000%nat /\
      qmem.pages_n (pool a) = qmem.max_pages_n) /\
  arena_run (repeat (op_allocate qmem.page_size) 1001) arena_inited = None.
Proof.
  split.
  - eexists. split; [vm_compute; reflexivity | split; vm_compute; reflexivity].
  - vm_compute. reflexivity.
Qed.

(** outside the waiting state the error path fails its assertion: a value
    fragment after the generator finished on a stored fragment *)
Example mismatch_after_done_aborts :
  (do (self, v) <- mc_deliver (frag_xstored true) (pool arena_inited)
                              (example_mc ap_any);
   mc_deliver (frag_value "ab"%string) v self) = None.
Proof. vm_compute. reflexivity. Qed.

(** the block [qmem_malloc_tmp] returns is not taken: the next
    [qmem_malloc] hands out the same address *)
Example peek_then_allocate_same_block :
  exists p v v',
    qmem_malloc_tmp 8 (pool arena_inited) = Some (p, v) /\
    qmem_malloc 8 v = Some (p, v').
Proof.
  eexists. eexists. eexists.
  split; [vm_compute; reflexivity | vm_compute; reflexivity].
Qed.

(* ================================================================== *)
(** * Part II, continued: the rest of the file                         *)
(* ================================================================== *)

(** ** The allocator between [qmem_init] and [qmem_clear] *)

Lemma qmem_malloc_cur_mem n v p v' :
  qmem_malloc n v = Some (p, v') -> qmem.cur_mem v' = qmem.cur_mem v.
Proof.
  unfold qmem_malloc.
  destruct (qmem.lower_bound n (qmem.left v)) as [[sz q]|].
  - cbv zeta. destruct (sz - n >? 0); intros [= _ <-]; reflexivity.
  - intros H. apply alloc_at_least_some in H.
    destruct H as [_ [_ [_ ->]]]. reflexivity.
Qed.

Lemma qmem_malloc_tmp_cur_mem n v p v' :
  qmem_malloc_tmp n v = Some (p, v') -> qmem.cur_mem v' = qmem.cur_mem v.
Proof.
  unfold qmem_malloc_tmp.
  destruct (qmem.lower_bound n (qmem.left v)) as [[sz q]|].
  - intros [= _ <-]. reflexivity.
  - intros H. apply alloc_at_least_some in H.
    destruct H as [_ [_ [_ ->]]]. reflexivity.
Qed.

Lemma qmem_free_ptrs_cur_mem v v' :
  qmem_free_ptrs v = Some v' -> qmem.cur_mem v' = qmem.cur_mem v.
Proof.
  unfold qmem_free_ptrs.
  set (w := if _ >? _ then _ else v).
  assert (G : qmem.cur_mem w = qmem.cur_mem v).
  { unfold w. destruct (_ >? _); [|reflexivity]. cbv zeta.
    match goal with
    | |- context [fold_left ?f ?l ?x] =>
        destruct (fold_reg_pages l x) as [m [E _]]; rewrite E
    end. reflexivity. }
  destruct (llong_incr (qmem.qmem_generation w)) as [g|]; [|discriminate].
  simpl. intros [= <-]. exact G.
Qed.

Lemma qmem_init_cur_mem v v' :
  qmem_init v = Some v' -> qmem.cur_mem v' = 2 * qmem.page_size.
Proof.
  destruct v as [pg cm um st lf ht gen]. unfold qmem_init. simpl.
  destruct st; [|discriminate]. destruct lf; [|discriminate].
  simpl. intros [= <-]. reflexivity.
Qed.

Lemma arena_step_pool_ok o a a' :
  pool_ok a -> arena_op_wf o -> is_hard_reclaim o = false ->
  arena_step o a = Some a' -> pool_ok a'.
Proof.
  intros [I C] W Hh H. split; [eapply arena_step_inv; eauto|].
  rewrite <- C. destruct o; simpl in H; try discriminate.
  - rewrite (qmem_init_inited _ (inv_state _ I)) in H. discriminate.
  - destruct (qmem_malloc n (pool a)) as [[p v]|] eqn:E; [|discriminate].
    injection H as <-. exact (qmem_malloc_cur_mem _ _ _ _ E).
  - unfold qmem_malloc0 in H.
    destruct (qmem_malloc n (pool a)) as [[p v]|] eqn:E; [|discriminate].
    injection H as <-. exact (qmem_malloc_cur_mem _ _ _ _ E).
  - destruct (qmem_malloc_tmp n (pool a)) as [[p v]|] eqn:E; [|discriminate].
    injection H as <-. exact (qmem_malloc_tmp_cur_mem _ _ _ _ E).
  - destruct (qmem_free_ptrs (pool a)) as [v|] eqn:E; [|discriminate].
    injection H as <-. exact (qmem_free_ptrs_cur_mem _ _ E).
Qed.

Lemma arena_trace_pool_ok ops : forall a,
  pool_ok a -> Forall arena_op_wf ops ->
  Forall (fun o => is_hard_reclaim o = false) ops ->
  Forall pool_ok (arena_trace ops a).
Proof.
  induction ops as [|o ops IH]; intros a I W Hh; simpl; [constructor|].
  inversion W; subst. inversion Hh; subst.
  destruct (arena_step o a) as [a'|] eqn:E; [|constructor].
  assert (I' : pool_ok a') by (eapply arena_step_pool_ok; eauto).
  constructor; [exact I' | apply IH; assumption].
Qed.

Lemma arena_inited_pool_ok : pool_ok arena_inited.
Proof.
  split; [|reflexivity].
  exact (qmem_init_inv qmem_start _ eq_refl eq_refl).
Qed.

(** X1.  After every call of a run that starts with [qmem_init] on a
    torn-down pool: [cur_mem] is the size of the two static pages, at
    most [max_pages_n] pages are held, each of at most [max_mem] bytes,
    the free blocks are in key order, and the free blocks and the blocks
    in use lie inside the pages and are pairwise disjoint (so no free
    block overlaps another free block or a block in use). *)
Theorem pool_structure_invariant (v : qmem.vars) (ops : list arena_op) :
  qmem.used_mem v = 0 ->
  Forall arena_op_wf ops ->
  Forall (fun o => is_hard_reclaim o = false) ops ->
  Forall
    (fun a =>
       qmem.cur_mem (pool a) = 2 * qmem.page_size /\
       (qmem.pages_n (pool a) <= qmem.max_pages_n)%nat /\
       Forall (fun pg => 0 < snd pg <= qmem.max_mem) (qmem.pages (pool a)) /\
       qmem.keys_sorted (qmem.left (pool a)) /\
       Forall (within (qmem.pages (pool a))) (free_ranges (pool a) ++ live a) /\
       pairwise_disjoint (free_ranges (pool a) ++ live a))
    (arena_trace (op_init :: ops) (mk_arena v [])).
Proof.
  intros U W Hh.
  assert (P : Forall pool_ok (arena_trace (op_init :: ops) (mk_arena v []))).
  { simpl arena_trace.
    destruct (qmem_init v) as [v'|] eqn:E; simpl; [|constructor].
    assert (I0 : pool_ok (mk_arena v' [])).
    { split; [exact (qmem_init_inv _ _ U E) | exact (qmem_init_cur_mem _ _ E)]. }
    constructor; [exact I0 | apply arena_trace_pool_ok; assumption]. }
  eapply Forall_impl; [|exact P].
  intros a [I C]. split; [exact C|].
  split; [exact (inv_pages_n _ I)|].
  split; [exact (inv_page_sizes _ I)|].
  split; [exact (inv_sorted _ I)|].
  split; [exact (inv_within _ I) | exact (inv_disjoint _ I)].
Qed.

Lemma pool_structure_invariant_witness :
  length (arena_trace (op_init :: arena_demo_ops) arena_start) = 7%nat /\
  Forall
    (fun a =>
       qmem.cur_mem (pool a) = 2 * qmem.page_size /\
       (qmem.pages_n (pool a) <= qmem.max_pages_n)%nat /\
       Forall (fun pg => 0 < snd pg <= qmem.max_mem) (qmem.pages (pool a)) /\
       qmem.keys_sorted (qmem.left (pool a)) /\
       Forall (within (qmem.pages (pool a))) (free_ranges (pool a) ++ live a) /\
       pairwise_disjoint (free_ranges (pool a) ++ live a))
    (arena_trace (op_init :: arena_demo_ops) arena_start).
Proof.
  split; [vm_compute; reflexivity|].
  apply (pool_structure_invariant qmem_start arena_demo_ops).
  - reflexivity.
  - unfold arena_demo_ops.
    repeat (apply Forall_cons || apply Forall_nil);
      simpl; unfold size_t_range; try rewrite SIZE_MOD_val; try exact I; lia.
  - unfold arena_demo_ops. repeat (apply Forall_cons || apply Forall_nil); reflexivity.
Defined.

Lemma used_plus_fits a n :
  arena_inv a -> 0 <= n <= qmem.max_mem ->
  size_add (qmem.used_mem (pool a)) n = qmem.used_mem (pool a) + n.
Proof.
  intros I N. apply size_add_small.
  pose proof (total_small _ I) as T. pose proof (inv_used _ I) as U.
  pose proof (inv_account _ I) as Acc. pose proof (free_bytes_nonneg _ I).
  rewrite max_mem_val in *. rewrite SIZE_MOD_val. lia.
Qed.

(** X2.  Best fit.  In an initialised pool with a free block of at least
    [n] bytes, [qmem_malloc (n)] returns, acquires no page, and hands out
    the start of a free block whose size is the least among the free
    blocks of at least [n] bytes; [used_mem] grows by [n] and the free
    bytes shrink by [n]. *)
Theorem qmem_malloc_best_fit (a : arena) (n : Z) :
  arena_inv a -> size_t_range n -> ~ no_free_block n (pool a) ->
  exists sz p v',
    qmem_malloc n (pool a) = Some (p, v') /\
    In (sz, p) (qmem.left (pool a)) /\
    n <= sz /\
    (forall x, In x (qmem.left (pool a)) -> n <= fst x -> sz <= fst x) /\
    qmem.pages v' = qmem.pages (pool a) /\
    qmem.used_mem v' = qmem.used_mem (pool a) + n /\
    free_bytes v' = free_bytes (pool a) - n.
Proof.
  intros I [N0 N1] Hfit.
  destruct (qmem.lower_bound n (qmem.left (pool a))) as [[sz p]|] eqn:Hlb.
  2:{ exfalso. apply Hfit. apply lower_bound_none. exact Hlb. }
  destruct (lower_bound_best_fit _ _ _ (inv_sorted _ I) Hlb) as [Hle Hmin].
  destruct (lower_bound_some _ _ _ Hlb) as [_ Hp].
  pose proof (lower_bound_le_free _ _ _ _ I Hlb) as B.
  pose proof (total_small _ I) as T. pose proof (inv_used _ I) as U.
  pose proof (inv_account _ I) as Acc. rewrite max_mem_val in T.
  assert (X : 0 <= qmem.used_mem (pool a) + n < SIZE_MOD).
  { rewrite SIZE_MOD_val. lia. }
  simpl in Hle, Hmin.
  assert (Hin : In (sz, p) (qmem.left (pool a))).
  { eapply Permutation_in; [symmetry; exact Hp | left; reflexivity]. }
  pose proof (inv_account _ (inv_split _ _ _ _ I N0 Hlb)) as Acc'.
  unfold total_reserved_bytes, free_bytes in Acc, Acc'. simpl in Acc'.
  exists sz, p.
  unfold qmem_malloc. rewrite Hlb, (size_add_small _ _ X). cbv zeta. simpl.
  destruct (sz - n >? 0); simpl in Acc';
    (eexists; split; [reflexivity|];
     split; [exact Hin|]; split; [exact Hle|]; split; [exact Hmin|];
     split; [reflexivity|]; split; [reflexivity|];
     unfold free_bytes; simpl; lia).
Qed.

Lemma qmem_malloc_best_fit_witness :
  exists sz p v',
    qmem_malloc 100 (pool arena_inited) = Some (p, v') /\
    In (sz, p) (qmem.left (pool arena_inited)) /\
    100 <= sz /\
    (forall x, In x (qmem.left (pool arena_inited)) -> 100 <= fst x -> sz <= fst x) /\
    qmem.pages v' = qmem.pages (pool arena_inited) /\
    qmem.used_mem v' = qmem.used_mem (pool arena_inited) + 100 /\
    free_bytes v' = free_bytes (pool arena_inited) - 100.
Proof.
  apply (qmem_malloc_best_fit arena_inited 100).
  - exact (proj1 arena_inited_pool_ok).
  - unfold size_t_range. rewrite SIZE_MOD_val. lia.
  - intros M. inversion M as [|? ? H]. simpl in H. rewrite page_size_val in H. lia.
Defined.

Lemma alloc_at_least_none n use v :
  qmem.alloc_at_least n use v = None <-> ceilings_exceeded n v = true.
Proof.
  unfold qmem.alloc_at_least, ceilings_exceeded. rewrite alloc_size_max.
  destruct (_ || _ || _).
  - split; reflexivity.
  - cbv zeta. unfold qmem.malloc.
    destruct (use <? Z.max n qmem.page_size); split; discriminate.
Qed.

Lemma ceilings_exceeded_iff n v :
  qmem.cur_mem v = 2 * qmem.page_size -> size_t_range n ->
  (ceilings_exceeded n v = true <->
   qmem.pages_n v = qmem.max_pages_n \/ max_request < n).
Proof.
  intros C [N0 N1]. unfold ceilings_exceeded, max_request, size_add.
  rewrite C, max_mem_val, page_size_val, SIZE_MOD_val in *.
  rewrite !orb_true_iff, Nat.eqb_eq, !Z.gtb_ltb, !Z.ltb_lt.
  split.
  - intros [[H|H]|H]; [left; exact H | right; lia |].
    destruct (Z_lt_dec 134217728 (Z.max n 4194304)) as [L|L]; [right; lia|].
    rewrite Z.mod_small in H by lia. right. lia.
  - intros [H|H]; [left; left; exact H|].
    destruct (Z_lt_dec 134217728 (Z.max n 4194304)) as [L|L];
      [left; right; exact L|].
    right. rewrite Z.mod_small by lia. lia.
Qed.

(** X3.  In an initialised pool [qmem_malloc (n)] aborts exactly when no
    free block has [n] bytes and either [max_pages_n] pages are held or
    [n] is more than [max_mem] less the two static pages: the byte
    ceiling is tested against [cur_mem], which counts the static pages
    only, so it bounds each request and not the sum of the pages. *)
Theorem qmem_malloc_aborts_iff (a : arena) (n : Z) :
  pool_ok a -> size_t_range n ->
  (qmem_malloc n (pool a) = None <->
   no_free_block n (pool a) /\
   (qmem.pages_n (pool a) = qmem.max_pages_n \/ max_request < n)).
Proof.
  intros [I C] W. unfold qmem_malloc, no_free_block.
  rewrite <- lower_bound_none.
  destruct (qmem.lower_bound n (qmem.left (pool a))) as [[sz p]|].
  - split; [discriminate | intros [H _]; discriminate H].
  - rewrite alloc_at_least_none.
    rewrite (ceilings_exceeded_iff n _ C W).
    split; [intros H; split; [reflexivity | exact H] | intros [_ H]; exact H].
Qed.

Lemma qmem_malloc_aborts_iff_witness :
  qmem_malloc (max_request + 1) (pool arena_inited) = None <->
  no_free_block (max_request + 1) (pool arena_inited) /\
  (qmem.pages_n (pool arena_inited) = qmem.max_pages_n \/
   max_request < max_request + 1).
Proof.
  apply (qmem_malloc_aborts_iff arena_inited (max_request + 1)).
  - exact arena_inited_pool_ok.
  - unfold size_t_range. vm_compute. split; [discriminate | reflexivity].
Defined.

(** two requests of 100 MiB are served: 208 MiB are held, above [max_mem] *)
Example byte_ceiling_is_per_request :
  exists a,
    arena_run big_pages_ops arena_inited = Some a /\
    total_reserved_bytes (pool a) = 2 * qmem.page_size + 2 * 104857600 /\
    qmem.max_mem < total_reserved_bytes (pool a).
Proof.
  eexists. split; [vm_compute; reflexivity|]. split; reflexivity.
Qed.

Lemma soft_reclaim_fires_iff a :
  pool_ok a ->
  (soft_reclaim_fires (pool a) = true <-> qmem.page_size < qmem.used_mem (pool a)).
Proof.
  intros [I C]. unfold soft_reclaim_fires, size_add. rewrite C.
  pose proof (total_small _ I) as T. pose proof (inv_used _ I) as U.
  pose proof (inv_account _ I) as Acc. pose proof (free_bytes_nonneg _ I).
  rewrite max_mem_val in T.
  rewrite Z.mod_small by (rewrite SIZE_MOD_val; lia).
  rewrite Z.gtb_ltb, Z.ltb_lt. lia.
Qed.

(** X4.  In an initialised pool [qmem_free_ptrs] reclaims exactly when
    [used_mem] is above one page (4 MiB), however many pages are held:
    then nothing is in use any more and the free list is the list of the
    pages, each one whole; otherwise only the generation changes.  In
    both cases the generation grows by one. *)
Theorem qmem_free_ptrs_effect (a : arena) :
  pool_ok a -> qmem.qmem_generation (pool a) < LLONG_MAX ->
  (qmem.page_size < qmem.used_mem (pool a) ->
   exists v',
     qmem_free_ptrs (pool a) = Some v' /\
     qmem.used_mem v' = 0 /\
     Permutation (qmem.left v') (pages_as_blocks (pool a)) /\
     qmem.pages v' = qmem.pages (pool a) /\
     qmem.qmem_generation v' = qmem.qmem_generation (pool a) + 1) /\
  (qmem.used_mem (pool a) <= qmem.page_size ->
   qmem_free_ptrs (pool a)
   = Some (qmem.set_generation (qmem.qmem_generation (pool a) + 1) (pool a))).
Proof.
  intros P G. pose proof (soft_reclaim_fires_iff a P) as F.
  unfold qmem_free_ptrs. fold (soft_reclaim_fires (pool a)).
  split.
  - intros H. rewrite (proj2 F H). cbv zeta.
    destruct (fold_reg_pages
                (qmem.pages (qmem.set_used_mem 0 (qmem.set_left [] (pool a))))
                (qmem.set_used_mem 0 (qmem.set_left [] (pool a))))
      as [l [E [Pm _]]].
    rewrite E. simpl qmem.qmem_generation. rewrite (llong_incr_some _ G).
    eexists. split; [reflexivity|]. simpl.
    split; [reflexivity|]. split; [|split; reflexivity].
    simpl in Pm. rewrite app_nil_r in Pm. exact Pm.
  - intros H.
    destruct (soft_reclaim_fires (pool a)) eqn:S.
    + pose proof (proj1 F eq_refl). lia.
    + rewrite (llong_incr_some _ G). reflexivity.
Qed.

Lemma qmem_free_ptrs_effect_witness :
  (exists a v',
      arena_step (op_allocate 4194305) arena_inited = Some a /\
      qmem.page_size < qmem.used_mem (pool a) /\
      qmem_free_ptrs (pool a) = Some v' /\
      qmem.used_mem v' = 0 /\
      Permutation (qmem.left v') (pages_as_blocks (pool a)) /\
      length (qmem.left v') = 3%nat /\
      qmem.pages v' = qmem.pages (pool a) /\
      qmem.qmem_generation v' = 1) /\
  qmem_free_ptrs (pool arena_inited)
  = Some (qmem.set_generation 1 (pool arena_inited)).
Proof.
  split.
  - destruct (arena_step (op_allocate 4194305) arena_inited) as [a|] eqn:E;
      [|vm_compute in E; discriminate E].
    assert (W : arena_op_wf (op_allocate 4194305)).
    { simpl. unfold size_t_range. rewrite SIZE_MOD_val. lia. }
    pose proof (arena_step_pool_ok _ _ _ arena_inited_pool_ok W eq_refl E) as P.
    assert (K : qmem.used_mem (pool a) = 4194305 /\
                qmem.qmem_generation (pool a) = 0 /\
                length (qmem.pages (pool a)) = 3%nat).
    { clear P. vm_compute in E. injection E as <-.
      split; [reflexivity | split; reflexivity]. }
    destruct K as [K1 [K2 K3]].
    assert (U : qmem.page_size < qmem.used_mem (pool a))
      by (rewrite K1, page_size_val; lia).
    assert (G : qmem.qmem_generation (pool a) < LLONG_MAX)
      by (rewrite K2; reflexivity).
    destruct (proj1 (qmem_free_ptrs_effect a P G) U)
      as [v' [F [U0 [Pm [Pg Gn]]]]].
    exists a, v'. split; [reflexivity|]. split; [exact U|].
    split; [exact F|]. split; [exact U0|]. split; [exact Pm|].
    split.
    + rewrite (Permutation_length Pm). unfold pages_as_blocks.
      rewrite length_map. exact K3.
    + split; [exact Pg|]. rewrite Gn, K2. reflexivity.
  - refine (proj2 (qmem_free_ptrs_effect arena_inited arena_inited_pool_ok eq_refl) _).
    vm_compute. discriminate.
Defined.

(** X5.  Teardown and restart.  On an initialised pool [qmem_clear]
    returns (below the [long long] limit); a second [qmem_clear] aborts;
    [qmem_init] then returns the pool of the two static pages, both
    free, nothing in use, one generation later, whatever pages and
    blocks the pool held; and a second [qmem_init] aborts. *)
Theorem teardown_and_restart (v : qmem.vars) :
  qmem.state v = qmem.st_inited -> qmem.qmem_generation v < LLONG_MAX ->
  exists v1,
    qmem_clear v = Some v1 /\
    qmem_clear v1 = None /\
    qmem_init v1
    = Some (fresh_pool (qmem.heap_top v) (qmem.qmem_generation v + 1)) /\
    qmem_init (fresh_pool (qmem.heap_top v) (qmem.qmem_generation v + 1)) = None /\
    pool_ok (mk_arena (fresh_pool (qmem.heap_top v) (qmem.qmem_generation v + 1)) []).
Proof.
  intros S G. destruct v as [pg cm um st lf ht gen]. simpl in S, G. subst st.
  unfold qmem_clear. simpl. rewrite (llong_incr_some _ G). simpl.
  eexists. split; [reflexivity|]. split; [reflexivity|].
  assert (E : qmem_init
                (qmem.set_generation (gen + 1)
                   (qmem.mk_vars pg cm 0 qmem.st_empty [] ht gen))
              = Some (fresh_pool ht (gen + 1))) by reflexivity.
  split; [exact E|]. split; [reflexivity|].
  split; [|reflexivity].
  refine (qmem_init_inv _ _ _ E). reflexivity.
Qed.

Lemma teardown_and_restart_witness :
  exists v1,
    qmem_clear (pool arena_inited) = Some v1 /\
    qmem_clear v1 = None /\
    qmem_init v1 = Some (fresh_pool 0 1) /\
    qmem_init (fresh_pool 0 1) = None /\
    pool_ok (mk_arena (fresh_pool 0 1) []).
Proof.
  apply (teardown_and_restart (pool arena_inited)).
  - reflexivity.
  - reflexivity.
Defined.

(** ** String buffers *)

Lemma string_length_append (a b : string) :
  String.length (a ++ b)%string = (String.length a + String.length b)%nat.
Proof. induction a as [|c a IH]; simpl; [reflexivity | rewrite IH; reflexivity]. Qed.

Lemma string_append_assoc (a b c : string) :
  ((a ++ b) ++ c = a ++ (b ++ c))%string.
Proof. induction a as [|x a IH]; simpl; [reflexivity | rewrite IH; reflexivity]. Qed.

Lemma string_append_nil_r (a : string) : (a ++ EmptyString)%string = a.
Proof. induction a as [|x a IH]; simpl; [reflexivity | rewrite IH; reflexivity]. Qed.

Lemma reader_len_append (a b : string) :
  reader_len (a ++ b)%string = reader_len a + reader_len b.
Proof. unfold reader_len. rewrite string_length_append. lia. Qed.

Lemma str_buf_append_wf v b reader sb v' :
  str_buf_wf b -> str_buf_append v b reader = Some (sb, v') ->
  str_buf_wf sb /\
  contents sb = (contents b ++ reader)%string /\
  len sb < buf_len sb /\
  str_buf_cstr sb = Some (contents sb).
Proof.
  intros [L B] H. pose proof (reader_len_nonneg reader) as R.
  assert (L0 : 0 <= len b) by lia.
  destruct (str_buf_append_len _ _ _ _ _ L0 H) as [Hl Hc].
  assert (W : str_buf_wf sb).
  { unfold str_buf_wf. rewrite Hc, string_length_append, Nat2Z.inj_add, <- L.
    revert H. unfold str_buf_append.
    destruct (int_range (reader_len reader + len b)) eqn:IR; [|discriminate].
    simpl. destruct (reader_len reader + len b >=? buf_len b).
    - destruct (int_range ((reader_len reader + len b) * 2 + 1)) eqn:IR2;
        [|discriminate]. simpl.
      destruct (qmem_malloc _ v) as [[p w]|]; [|discriminate]. simpl.
      intros [= <- <-]. simpl. unfold int_range in IR2.
      apply andb_true_iff in IR2. destruct IR2 as [_ IR2]. apply Z.leb_le in IR2.
      unfold reader_len in *. lia.
    - simpl. intros [= <- <-]. simpl. unfold reader_len in *. lia. }
  split; [exact W|]. split; [exact Hc|]. split; [lia|].
  unfold str_buf_cstr.
  assert (C : (len sb <? buf_len sb) = true) by (apply Z.ltb_lt; lia).
  rewrite C. reflexivity.
Qed.

Lemma str_buf_appends_wf rs : forall v b b' v',
  str_buf_wf b -> str_buf_appends v b rs = Some (b', v') ->
  str_buf_wf b' /\
  contents b' = (contents b ++ readers_text rs)%string /\
  (rs <> [] -> len b' < buf_len b' /\ str_buf_cstr b' = Some (contents b')).
Proof.
  induction rs as [|r rs IH]; intros v b b' v' W H; simpl in H.
  - injection H as <- <-. simpl. rewrite string_append_nil_r.
    split; [exact W|]. split; [reflexivity|]. intros N. contradiction.
  - destruct (str_buf_append v b r) as [[b1 v1]|] eqn:E; [|discriminate].
    simpl in H. destruct (str_buf_append_wf _ _ _ _ _ W E) as [W1 [C1 [L1 S1]]].
    destruct (IH _ _ _ _ W1 H) as [W' [C' T']].
    split; [exact W'|]. split.
    + rewrite C', C1. simpl. apply string_append_assoc.
    + intros _. destruct rs as [|r' rs'].
      * simpl in H. injection H as <- <-. split; assumption.
      * apply T'. discriminate.
Qed.

(** X6.  A string buffer accumulates.  After [str_buf_create] and any
    appends that return, the buffer holds the texts of the readers one
    after the other, [str_buf_len] is their length, and once something
    was appended the length is below the capacity, so that
    [str_buf_cstr] has room for the terminator and returns the text.
    On the buffer as created [str_buf_cstr] has no room: the capacity
    is zero. *)
Theorem str_buf_accumulates (sizeof_str_buf : Z) (v v0 v' : qmem.vars)
        (b0 b' : str_buf_t) (rs : list data_reader_t) :
  str_buf_create sizeof_str_buf v = Some (b0, v0) ->
  str_buf_appends v0 b0 rs = Some (b', v') ->
  contents b' = readers_text rs /\
  str_buf_len b' = Z.of_nat (String.length (readers_text rs)) /\
  str_buf_cstr b0 = None /\
  (rs <> [] ->
   str_buf_len b' < buf_len b' /\ str_buf_cstr b' = Some (readers_text rs)).
Proof.
  intros Hc Ha. unfold str_buf_create in Hc.
  destruct (qmem_malloc sizeof_str_buf v) as [[p w]|]; [|discriminate].
  simpl in Hc. injection Hc as <- <-.
  assert (W0 : str_buf_wf (mk_str_buf None 0 0 EmptyString)).
  { unfold str_buf_wf, INT_MAX. simpl. lia. }
  destruct (str_buf_appends_wf rs _ _ _ _ W0 Ha) as [[L _] [C T]].
  simpl in C. split; [exact C|].
  split; [unfold str_buf_len; rewrite L, C; reflexivity|].
  split; [reflexivity|].
  intros N. destruct (T N) as [T1 T2]. split; [exact T1|].
  rewrite T2, C. reflexivity.
Qed.

Lemma str_buf_accumulates_witness :
  exists b0 v0 b' v',
    str_buf_create 24 (pool arena_inited) = Some (b0, v0) /\
    str_buf_appends v0 b0 ["ab"; "cd"; "e"]%string = Some (b', v') /\
    contents b' = "abcde"%string /\
    str_buf_len b' = 5 /\
    str_buf_cstr b0 = None /\
    (["ab"; "cd"; "e"]%string <> [] ->
     str_buf_len b' < buf_len b' /\ str_buf_cstr b' = Some "abcde"%string).
Proof.
  destruct (str_buf_create 24 (pool arena_inited)) as [[b0 v0]|] eqn:Hc;
    [|vm_compute in Hc; discriminate Hc].
  destruct (str_buf_appends v0 b0 ["ab"; "cd"; "e"]%string) as [[b' v']|] eqn:Ha.
  - exists b0, v0, b', v'. split; [reflexivity|]. split; [exact Ha|].
    exact (str_buf_accumulates 24 _ _ _ _ _ _ Hc Ha).
  - exfalso. vm_compute in Hc. injection Hc as <- <-.
    vm_compute in Ha. discriminate Ha.
Defined.

Lemma appends_within_capacity rs : forall v b,
  str_buf_wf b ->
  len b + reader_len (readers_text rs) < buf_len b ->
  str_buf_appends v b rs
  = Some (mk_str_buf (buf b) (buf_len b)
                     (len b + reader_len (readers_text rs))
                     (contents b ++ readers_text rs)%string, v).
Proof.
  induction rs as [|r rs IH]; intros v b [L B] C; simpl.
  - unfold reader_len. simpl. rewrite Z.add_0_r, string_append_nil_r.
    destruct b; reflexivity.
  - simpl in C. rewrite reader_len_append in C.
    pose proof (reader_len_nonneg r) as R.
    pose proof (reader_len_nonneg (readers_text rs)) as R'.
    assert (L0 : 0 <= len b) by lia.
    unfold str_buf_append.
    assert (IR : int_range (reader_len r + len b) = true).
    { unfold int_range, INT_MIN, INT_MAX in *.
      apply andb_true_iff. split; apply Z.leb_le; lia. }
    rewrite IR. simpl.
    assert (NG : (reader_len r + len b >=? buf_len b) = false).
    { rewrite Z.geb_leb. apply Z.leb_gt. lia. }
    rewrite NG. simpl.
    rewrite IH.
    + simpl. rewrite reader_len_append, string_append_assoc.
      do 3 f_equal. lia.
    + split; simpl; [|exact B].
      rewrite string_length_append, Nat2Z.inj_add, <- L. reflexivity.
    + simpl. lia.
Qed.

(** X7.  Geometric growth.  An append that does not fit (the new length
    reaches the capacity) takes one block of twice the new length plus
    one from the allocator and makes that the capacity; after it,
    appends that together add no more than the buffer then holds return
    without a call of the allocator. *)
Theorem str_buf_growth (v v1 : qmem.vars) (b b1 : str_buf_t) (r : data_reader_t) :
  str_buf_wf b ->
  buf_len b <= len b + reader_len r ->
  str_buf_append v b r = Some (b1, v1) ->
  len b1 = len b + reader_len r /\
  buf_len b1 = 2 * len b1 + 1 /\
  (exists p, buf b1 = Some p /\ qmem_malloc (2 * len b1 + 1) v = Some (p, v1)) /\
  (forall rs,
      reader_len (readers_text rs) <= len b1 ->
      str_buf_appends v1 b1 rs
      = Some (mk_str_buf (buf b1) (buf_len b1)
                         (len b1 + reader_len (readers_text rs))
                         (contents b1 ++ readers_text rs)%string, v1)).
Proof.
  intros W G H. pose proof W as [L B].
  pose proof (reader_len_nonneg r) as R.
  destruct (str_buf_append_wf _ _ _ _ _ W H) as [W1 _].
  revert H. unfold str_buf_append.
  destruct (int_range (reader_len r + len b)) eqn:IR; [|discriminate].
  cbn [bind assert].
  assert (GE : (reader_len r + len b >=? buf_len b) = true).
  { rewrite Z.geb_leb. apply Z.leb_le. lia. }
  rewrite GE.
  destruct (int_range ((reader_len r + len b) * 2 + 1)) eqn:IR2; [|discriminate].
  cbn [bind assert].
  assert (SZ : size_of_int ((reader_len r + len b) * 2 + 1)
               = (reader_len r + len b) * 2 + 1).
  { unfold size_of_int. apply Z.mod_small. rewrite SIZE_MOD_val.
    unfold int_range, INT_MAX in IR2. apply andb_true_iff in IR2.
    destruct IR2 as [_ IR2]. apply Z.leb_le in IR2. lia. }
  rewrite SZ.
  destruct (qmem_malloc ((reader_len r + len b) * 2 + 1) v) as [[p w]|] eqn:M;
    [|discriminate].
  cbn [bind buf buf_len len contents]. intros [= <- <-].
  cbn [len buf_len buf contents].
  split; [reflexivity|]. split; [ring|]. split.
  - exists p. split; [reflexivity|].
    replace (2 * (len b + reader_len r) + 1)
      with ((reader_len r + len b) * 2 + 1) by ring.
    exact M.
  - intros rs T.
    apply (appends_within_capacity rs w
             (mk_str_buf (Some p) ((reader_len r + len b) * 2 + 1)
                         (len b + reader_len r) (contents b ++ r)%string)).
    + exact W1.
    + simpl. lia.
Qed.

Lemma str_buf_growth_witness :
  exists b1 v1,
    str_buf_append (pool arena_inited) (mk_str_buf None 0 0 EmptyString)
                   "abcd"%string = Some (b1, v1) /\
    len b1 = 4 /\ buf_len b1 = 9 /\
    str_buf_appends v1 b1 ["ef"; "gh"]%string
    = Some (mk_str_buf (buf b1) 9 8 "abcdefgh"%string, v1).
Proof.
  destruct (str_buf_append (pool arena_inited) (mk_str_buf None 0 0 EmptyString)
                           "abcd"%string) as [[b1 v1]|] eqn:H;
    [|vm_compute in H; discriminate H].
  exists b1, v1. split; [reflexivity|].
  assert (W : str_buf_wf (mk_str_buf None 0 0 EmptyString)).
  { unfold str_buf_wf, INT_MAX. simpl. lia. }
  assert (G : buf_len (mk_str_buf None 0 0 EmptyString)
              <= len (mk_str_buf None 0 0 EmptyString) + reader_len "abcd"%string).
  { vm_compute. discriminate. }
  destruct (str_buf_growth _ _ _ _ _ W G H) as [L [B [_ A]]].
  simpl in L. unfold reader_len in L. simpl in L.
  split; [exact L|]. split; [rewrite B, L; reflexivity|].
  specialize (A ["ef"; "gh"]%string).
  rewrite A.
  - rewrite B, L.
    assert (C : contents b1 = "abcd"%string).
    { vm_compute in H. injection H as <- _. reflexivity. }
    rewrite C. reflexivity.
  - rewrite L. vm_compute. discriminate.
Defined.

(** ** Replies of a memcached server *)

Lemma str_buf_append_generation v b r sb v' :
  str_buf_append v b r = Some (sb, v') ->
  qmem.qmem_generation v' = qmem.qmem_generation v.
Proof.
  unfold str_buf_append.
  destruct (assert (int_range (reader_len r + len b))); [|discriminate].
  cbn [bind]. destruct (reader_len r + len b >=? buf_len b).
  - destruct (assert (int_range ((reader_len r + len b) * 2 + 1)));
      [|discriminate]. cbn [bind].
    destruct (qmem_malloc _ v) as [[p w]|] eqn:M; [|discriminate].
    cbn [bind]. intros [= _ <-]. exact (qmem_malloc_generation _ _ _ _ M).
  - cbn [bind]. intros [= _ <-]. reflexivity.
Qed.

Lemma str_buf_appends_generation rs : forall v b sb v',
  str_buf_appends v b rs = Some (sb, v') ->
  qmem.qmem_generation v' = qmem.qmem_generation v.
Proof.
  induction rs as [|r rs IH]; intros v b sb v' H; simpl in H.
  - injection H as _ <-. reflexivity.
  - destruct (str_buf_append v b r) as [[b1 v1]|] eqn:E; [|discriminate].
    simpl in H. rewrite (IH _ _ _ _ H).
    exact (str_buf_append_generation _ _ _ _ _ E).
Qed.

Lemma mc_value_step v self r :
  net_ansgen_is_alive (mc_ansgen_packet.base self) v = true ->
  mc_ansgen_packet.state self = ap_any \/ mc_ansgen_packet.state self = ap_get ->
  mc_ansgen_packet_value v self r
  = match str_buf_append v (mc_ansgen_packet.str_buf self) r with
    | Some (sb, v') =>
        Some (mc_ansgen_packet.mk (mc_ansgen_packet.base self) ap_get sb, v')
    | None => None
    end.
Proof.
  intros A S. destruct self as [b st sb].
  cbn [mc_ansgen_packet.base mc_ansgen_packet.state mc_ansgen_packet.str_buf] in *.
  unfold mc_ansgen_packet_value.
  destruct S as [-> | ->];
    cbn [ap_eqb negb mc_ansgen_packet.set_state mc_ansgen_packet.base
         mc_ansgen_packet.state mc_ansgen_packet.str_buf];
    rewrite A; destruct (str_buf_append v sb r) as [[sb' w]|]; reflexivity.
Qed.

Lemma mc_finalize_step f v self :
  finalizes f = true ->
  base_state self = st_ansgen_wait ->
  net_ansgen_is_alive (mc_ansgen_packet.base self) v = true ->
  0 <= len (mc_ansgen_packet.str_buf self) ->
  mc_ansgen_packet.state self = commit_state f \/
  (mc_ansgen_packet.state self = ap_any /\ is_version f = false) ->
  mc_deliver f v self
  = match str_buf_append v (mc_ansgen_packet.str_buf self) (payload f) with
    | Some (sb, v') => Some (finalized self (commit_state f) sb, v')
    | None => None
    end.
Proof.
  intros F W A L S. destruct self as [b st sb]. unfold base_state in W.
  cbn [mc_ansgen_packet.base mc_ansgen_packet.state mc_ansgen_packet.str_buf] in *.
  assert (K : forall st' r,
             (do (self, v0) <-
                append_and_finalize v (mc_ansgen_packet.mk b st' sb) r;
              Some (set_base_state st_ansgen_done self, v0))
             = match str_buf_append v sb r with
               | Some (sb', v') =>
                   Some (finalized (mc_ansgen_packet.mk b st sb) st' sb', v')
               | None => None
               end).
  { intros st' r. unfold append_and_finalize.
    cbn [mc_ansgen_packet.base mc_ansgen_packet.state mc_ansgen_packet.str_buf].
    destruct (str_buf_append v sb r) as [[sb' w]|] eqn:E; [|reflexivity].
    cbn [bind]. destruct (str_buf_append_len _ _ _ _ _ L E) as [B _].
    unfold str_buf_cstr.
    assert (C : (len sb' <? buf_len sb') = true) by (apply Z.ltb_lt; lia).
    rewrite C. reflexivity. }
  destruct f as [r| |is_stored|r|r]; try discriminate F;
    cbn [mc_deliver commit_state payload is_version] in *;
    unfold mc_ansgen_packet_end, mc_ansgen_packet_xstored,
      mc_ansgen_packet_other, mc_ansgen_packet_version;
    cbn [mc_ansgen_packet.base mc_ansgen_packet.state mc_ansgen_packet.str_buf];
    try rewrite W; cbn [is_wait assert bind];
    (destruct S as [-> | [-> NV]]; [|try discriminate NV]);
    cbn [ap_eqb negb mc_ansgen_packet.set_state mc_ansgen_packet.base
         mc_ansgen_packet.state mc_ansgen_packet.str_buf];
    rewrite A; apply K.
Qed.

Lemma payload_values rs :
  map payload (map frag_value rs ++ [frag_end]) = rs ++ [end_reader].
Proof.
  rewrite map_app, map_map. simpl. f_equal. apply map_id.
Qed.

Lemma mc_get_run rs : forall v self,
  base_state self = st_ansgen_wait ->
  net_ansgen_is_alive (mc_ansgen_packet.base self) v = true ->
  0 <= len (mc_ansgen_packet.str_buf self) ->
  mc_ansgen_packet.state self = ap_any \/ mc_ansgen_packet.state self = ap_get ->
  mc_deliver_all (map frag_value rs ++ [frag_end]) v self
  = match str_buf_appends v (mc_ansgen_packet.str_buf self) (rs ++ [end_reader]) with
    | Some (sb, v') => Some (finalized self ap_get sb, v')
    | None => None
    end.
Proof.
  induction rs as [|r rs IH]; intros v self W A L S.
  - cbn [map app mc_deliver_all str_buf_appends].
    rewrite (mc_finalize_step frag_end v self eq_refl W A L).
    + cbn [payload commit_state].
      destruct (str_buf_append v _ end_reader) as [[sb w]|]; reflexivity.
    + destruct S as [S|S]; [right; split; [exact S | reflexivity] | left; exact S].
  - cbn [map app mc_deliver_all str_buf_appends mc_deliver].
    rewrite (mc_value_step v self r A S).
    destruct (str_buf_append v (mc_ansgen_packet.str_buf self) r)
      as [[sb w]|] eqn:E; [|reflexivity].
    cbn [bind].
    rewrite (IH w (mc_ansgen_packet.mk (mc_ansgen_packet.base self) ap_get sb)).
    + reflexivity.
    + exact W.
    + cbn [mc_ansgen_packet.base]. unfold net_ansgen_is_alive in *.
      rewrite (str_buf_append_generation _ _ _ _ _ E). exact A.
    + cbn [mc_ansgen_packet.str_buf].
      destruct (str_buf_append_len _ _ _ _ _ L E) as [B _]. lia.
    + right. reflexivity.
Qed.

Lemma mc_reply_run (rp : mc_reply) (v : qmem.vars) (self : mc_ansgen_packet.t) :
  base_state self = st_ansgen_wait ->
  net_ansgen_is_alive (mc_ansgen_packet.base self) v = true ->
  0 <= len (mc_ansgen_packet.str_buf self) ->
  mc_ansgen_packet.state self = reply_kind rp \/
  (mc_ansgen_packet.state self = ap_any /\ reply_kind rp <> ap_version) ->
  mc_deliver_all (reply_fragments rp) v self
  = match str_buf_appends v (mc_ansgen_packet.str_buf self)
            (map payload (reply_fragments rp)) with
    | Some (sb, v') => Some (finalized self (reply_kind rp) sb, v')
    | None => None
    end.
Proof.
  intros W A L S.
  destruct rp as [rs|is_stored|r|r].
  - cbn [reply_fragments reply_kind] in *. rewrite payload_values.
    apply mc_get_run; try assumption.
    destruct S as [S|[S _]]; [right | left]; exact S.
  - cbn [reply_fragments reply_kind map mc_deliver_all str_buf_appends] in *.
    rewrite (mc_finalize_step (frag_xstored is_stored) v self eq_refl W A L).
    + cbn [payload commit_state].
      destruct (str_buf_append v _ _) as [[sb w]|]; reflexivity.
    + destruct S as [S|[S _]]; [left; exact S | right; split; [exact S | reflexivity]].
  - cbn [reply_fragments reply_kind map mc_deliver_all str_buf_appends] in *.
    rewrite (mc_finalize_step (frag_other r) v self eq_refl W A L).
    + cbn [payload commit_state].
      destruct (str_buf_append v _ _) as [[sb w]|]; reflexivity.
    + destruct S as [S|[S _]]; [left; exact S | right; split; [exact S | reflexivity]].
  - cbn [reply_fragments reply_kind map mc_deliver_all str_buf_appends] in *.
    rewrite (mc_finalize_step (frag_version r) v self eq_refl W A L).
    + cbn [payload commit_state].
      destruct (str_buf_append v _ _) as [[sb w]|]; reflexivity.
    + destruct S as [S|[_ S]]; [left; exact S | contradiction S; reflexivity].
Qed.

(** X8.  A complete reply of a memcached server.  For a generator that
    is waiting and alive, with the sub-state open or already of the
    kind of the reply, delivering the fragments of the reply (the values
    and then the end, or the one line of a store, another or a version
    reply) amounts to appending their texts to the buffer: the calls
    abort exactly when one of the appends does, and otherwise the
    generator is done with the sub-state of the kind, and the answer is
    [nq_ok] with the text of the buffer followed by the texts of the
    fragments, of that length; the description of the answer is kept.
    A version reply needs the sub-state [ap_version]. *)
Theorem mc_reply_assembled (rp : mc_reply) (v : qmem.vars)
        (self : mc_ansgen_packet.t) :
  base_state self = st_ansgen_wait ->
  net_ansgen_is_alive (mc_ansgen_packet.base self) v = true ->
  str_buf_wf (mc_ansgen_packet.str_buf self) ->
  mc_ansgen_packet.state self = reply_kind rp \/
  (mc_ansgen_packet.state self = ap_any /\ reply_kind rp <> ap_version) ->
  mc_deliver_all (reply_fragments rp) v self
  = match str_buf_appends v (mc_ansgen_packet.str_buf self)
            (map payload (reply_fragments rp)) with
    | Some (sb, v') => Some (finalized self (reply_kind rp) sb, v')
    | None => None
    end /\
  (forall self' v',
      mc_deliver_all (reply_fragments rp) v self = Some (self', v') ->
      base_state self' = st_ansgen_done /\
      mc_ansgen_packet.state self' = reply_kind rp /\
      answer.state (net_ansgen.ans (mc_ansgen_packet.base self')) = nq_ok /\
      answer.res (net_ansgen.ans (mc_ansgen_packet.base self'))
      = Some (contents (mc_ansgen_packet.str_buf self)
              ++ readers_text (map payload (reply_fragments rp)))%string /\
      answer.res_len (net_ansgen.ans (mc_ansgen_packet.base self'))
      = Z.of_nat (String.length
                    (contents (mc_ansgen_packet.str_buf self)
                     ++ readers_text (map payload (reply_fragments rp)))) /\
      answer.desc (net_ansgen.ans (mc_ansgen_packet.base self'))
      = answer.desc (net_ansgen.ans (mc_ansgen_packet.base self)) /\
      net_ansgen_is_alive (mc_ansgen_packet.base self') v' = true).
Proof.
  intros W A WF S.
  assert (L : 0 <= len (mc_ansgen_packet.str_buf self))
    by (destruct WF as [WL _]; lia).
  pose proof (mc_reply_run rp v self W A L S) as R.
  split; [exact R|].
  intros self' v' H. rewrite R in H.
  destruct (str_buf_appends v (mc_ansgen_packet.str_buf self)
              (map payload (reply_fragments rp))) as [[sb w]|] eqn:E;
    [|discriminate].
  injection H as <- <-.
  destruct (str_buf_appends_wf _ _ _ _ _ WF E) as [[WL _] [C _]].
  unfold base_state, finalized.
  cbn [mc_ansgen_packet.base mc_ansgen_packet.state net_ansgen.state
       net_ansgen.ans answer.state answer.res answer.res_len answer.desc].
  split; [reflexivity|]. split; [reflexivity|]. split; [reflexivity|].
  split; [rewrite C; reflexivity|]. split; [rewrite WL, C; reflexivity|].
  split; [reflexivity|].
  unfold net_ansgen_is_alive in *. cbn [net_ansgen.qmem_req_generation].
  rewrite (str_buf_appends_generation _ _ _ _ _ E). exact A.
Qed.

Lemma mc_reply_assembled_witness :
  exists self' v',
    mc_deliver_all (reply_fragments (reply_get ["a"; "bc"]%string))
                   (pool arena_inited) (example_mc ap_any) = Some (self', v') /\
    base_state self' = st_ansgen_done /\
    answer.res (net_ansgen.ans (mc_ansgen_packet.base self'))
    = Some ("abcEND" ++ CRLF)%string /\
    answer.res_len (net_ansgen.ans (mc_ansgen_packet.base self')) = 8.
Proof.
  destruct (mc_deliver_all (reply_fragments (reply_get ["a"; "bc"]%string))
                           (pool arena_inited) (example_mc ap_any))
    as [[self' v']|] eqn:H; [|vm_compute in H; discriminate H].
  exists self', v'. split; [reflexivity|].
  assert (W : str_buf_wf (mc_ansgen_packet.str_buf (example_mc ap_any))).
  { unfold str_buf_wf, INT_MAX. simpl. lia. }
  destruct (proj2 (mc_reply_assembled (reply_get ["a"; "bc"]%string)
                     (pool arena_inited) (example_mc ap_any)
                     eq_refl eq_refl W
                     (or_intror (conj eq_refl
                                   (fun E : ap_get = ap_version =>
                                      eq_ind ap_get
                                        (fun s => match s with
                                                  | ap_get => True
                                                  | _ => False
                                                  end) I ap_version E))))
                  self' v' H) as [D [_ [_ [R [RL _]]]]].
  split; [exact D|]. split; [exact R | exact RL].
Defined.

(** ** Dead generators *)

(** X9.  A dead generator is never written through.  When the captured
    generation differs from the pool's, no fragment and no call of
    [error], [timeout], [set_desc] or [set_query_type] changes the
    answer, the string buffer or the pool: only the sub-state and the
    base state move.  A dead generator that is waiting takes every
    fragment without aborting, since the allocator is not called. *)
Theorem dead_generator_untouched (v : qmem.vars) (self : mc_ansgen_packet.t) :
  net_ansgen_is_alive (mc_ansgen_packet.base self) v = false ->
  (forall f self' v',
      mc_deliver f v self = Some (self', v') ->
      v' = v /\
      net_ansgen.ans (mc_ansgen_packet.base self')
      = net_ansgen.ans (mc_ansgen_packet.base self) /\
      mc_ansgen_packet.str_buf self' = mc_ansgen_packet.str_buf self /\
      net_ansgen_is_alive (mc_ansgen_packet.base self') v' = false) /\
  (forall query_type self' v',
      mc_ansgen_packet_set_query_type v self query_type = Some (self', v') ->
      v' = v /\
      net_ansgen.ans (mc_ansgen_packet.base self')
      = net_ansgen.ans (mc_ansgen_packet.base self) /\
      mc_ansgen_packet.str_buf self' = mc_ansgen_packet.str_buf self) /\
  (base_state self = st_ansgen_wait ->
   forall f, exists self', mc_deliver f v self = Some (self', v)) /\
  (forall val, net_ansgen_set_desc v (mc_ansgen_packet.base self) val
               = mc_ansgen_packet.base self) /\
  (base_state self = st_ansgen_wait ->
   net_ansgen_timeout v (mc_ansgen_packet.base self)
   = Some (mc_ansgen_packet.base self)) /\
  (forall val,
      base_state self = st_ansgen_wait ->
      net_ansgen_error v (mc_ansgen_packet.base self) val
      = Some (net_ansgen.mk
                (net_ansgen.qmem_req_generation (mc_ansgen_packet.base self))
                st_ansgen_error (net_ansgen.ans (mc_ansgen_packet.base self)))).
Proof.
  intros D. destruct self as [b st sb]. unfold base_state.
  cbn [mc_ansgen_packet.base mc_ansgen_packet.state mc_ansgen_packet.str_buf] in *.
  assert (E : forall st' val self' v',
             raise_error v (mc_ansgen_packet.mk b st' sb) val = Some (self', v') ->
             v' = v /\
             net_ansgen.ans (mc_ansgen_packet.base self') = net_ansgen.ans b /\
             mc_ansgen_packet.str_buf self' = sb /\
             net_ansgen_is_alive (mc_ansgen_packet.base self') v' = false).
  { intros st' val self' v'. unfold raise_error, net_ansgen_error.
    cbn [mc_ansgen_packet.base]. destruct (is_wait (net_ansgen.state b));
      [|discriminate].
    cbn [assert bind]. rewrite D. intros [= <- <-].
    split; [reflexivity|]. split; [reflexivity|]. split; [reflexivity|].
    exact D. }
  split; [|split; [|split; [|split; [|split]]]].
  - intros f self' v'.
    destruct f as [r| |is_stored|r|r]; cbn [mc_deliver];
      unfold mc_ansgen_packet_value, mc_ansgen_packet_end,
        mc_ansgen_packet_xstored, mc_ansgen_packet_other,
        mc_ansgen_packet_version;
      cbn [mc_ansgen_packet.base mc_ansgen_packet.state mc_ansgen_packet.str_buf];
      try (destruct (is_wait (net_ansgen.state b)); [|discriminate];
           cbn [assert bind]);
      destruct st;
      cbn [ap_eqb negb mc_ansgen_packet.set_state mc_ansgen_packet.base
           mc_ansgen_packet.state mc_ansgen_packet.str_buf];
      try (apply E); rewrite ?D; cbn [bind];
      intros [= <- <-];
      exact (conj eq_refl (conj eq_refl (conj eq_refl D))).
  - intros query_type self' v'. unfold mc_ansgen_packet_set_query_type.
    destruct (query_type =? 1); cbn [ap_eqb];
      [|intros [= <- <-]; exact (conj eq_refl (conj eq_refl eq_refl))].
    destruct st;
      cbn [ap_eqb negb mc_ansgen_packet.set_state mc_ansgen_packet.base
           mc_ansgen_packet.state mc_ansgen_packet.str_buf];
      try (intros H; destruct (E _ _ _ _ H) as [E1 [E2 [E3 _]]];
           exact (conj E1 (conj E2 E3)));
      intros [= <- <-]; exact (conj eq_refl (conj eq_refl eq_refl)).
  - intros W f.
    destruct f as [r| |is_stored|r|r]; cbn [mc_deliver];
      unfold mc_ansgen_packet_value, mc_ansgen_packet_end,
        mc_ansgen_packet_xstored, mc_ansgen_packet_other,
        mc_ansgen_packet_version, raise_error, net_ansgen_error;
      cbn [mc_ansgen_packet.base mc_ansgen_packet.state mc_ansgen_packet.str_buf];
      destruct st;
      cbn [ap_eqb negb mc_ansgen_packet.set_state mc_ansgen_packet.base
           mc_ansgen_packet.state mc_ansgen_packet.str_buf];
      rewrite ?W, ?D; cbn [is_wait assert bind]; rewrite ?D;
      eexists; reflexivity.
  - intros val. unfold net_ansgen_set_desc. rewrite D. reflexivity.
  - intros W. unfold net_ansgen_timeout. rewrite W, D. reflexivity.
  - intros val W. unfold net_ansgen_error. rewrite W, D. reflexivity.
Qed.

Lemma dead_generator_untouched_witness :
  mc_deliver (frag_value "ab"%string) (fresh_pool 0 1) (example_mc ap_any)
  = Some (example_mc ap_get, fresh_pool 0 1) /\
  net_ansgen_error (fresh_pool 0 1) example_ansgen "Unexpected END"%string
  = Some (net_ansgen.mk 0 st_ansgen_error example_answer).
Proof.
  assert (D : net_ansgen_is_alive (mc_ansgen_packet.base (example_mc ap_any))
                                  (fresh_pool 0 1) = false) by reflexivity.
  split.
  - reflexivity.
  - exact (proj2 (proj2 (proj2 (proj2 (proj2
             (dead_generator_untouched (fresh_pool 0 1) (example_mc ap_any) D)))))
             "Unexpected END"%string eq_refl).
Defined.

(** ** The slot window, continued *)

(** X10.  What [create_slot] hands out.  After [init_slots] and any
    calls, [create_slot] fails exactly when the end of the window has
    passed [max_slot_id], and then leaves the window as it is; otherwise
    the slot it returns is between 1 and [max_slot_id], was not valid
    before the call and is valid after it, and every slot that was valid
    stays valid.  The failure value [-1] and the slot [0] are never
    valid. *)
Theorem create_slot_result (h : slot_history) :
  slot_invariant h ->
  (fst (create_slot (window h)) = -1 <->
   end_slot_id (window h) = max_slot_id + 1) /\
  (fst (create_slot (window h)) = -1 ->
   snd (create_slot (window h)) = window h) /\
  (fst (create_slot (window h)) <> -1 ->
   1 <= fst (create_slot (window h)) <= max_slot_id /\
   is_valid_slot (fst (create_slot (window h))) (window h) = false /\
   is_valid_slot (fst (create_slot (window h))) (snd (create_slot (window h)))
   = true /\
   (forall s, is_valid_slot s (window h) = true ->
              is_valid_slot s (snd (create_slot (window h))) = true)) /\
  is_valid_slot (-1) (window h) = false /\
  is_valid_slot 0 (window h) = false.
Proof.
  intros [B [E _]]. unfold create_slot, is_valid_slot. unfold max_slot_id in *.
  destruct (Z.gtb_spec (end_slot_id (window h)) 1000000000) as [G|G];
    cbn [fst snd begin_slot_id end_slot_id].
  - split; [split; [lia | reflexivity]|]. split; [reflexivity|].
    split; [intros N; contradiction N; reflexivity|].
    split; apply andb_false_iff; left; apply Z.leb_gt; lia.
  - split; [split; lia|]. split; [lia|]. split.
    + intros _. split; [lia|]. split.
      * apply andb_false_iff. right. apply Z.ltb_ge. lia.
      * split.
        -- apply andb_true_iff. split; [apply Z.leb_le | apply Z.ltb_lt]; lia.
        -- intros s V. apply andb_true_iff in V. destruct V as [V1 V2].
           apply Z.ltb_lt in V2. apply andb_true_iff.
           split; [exact V1 | apply Z.ltb_lt; lia].
    + split; apply andb_false_iff; left; apply Z.leb_gt; lia.
Qed.

Lemma create_slot_result_witness :
  1 <= fst (create_slot (window (slot_history_start 3))) <= max_slot_id /\
  is_valid_slot (fst (create_slot (window (slot_history_start 3))))
                (window (slot_history_start 3)) = false /\
  is_valid_slot (fst (create_slot (window (slot_history_start 3))))
                (snd (create_slot (window (slot_history_start 3)))) = true /\
  (forall s, is_valid_slot s (window (slot_history_start 3)) = true ->
             is_valid_slot s (snd (create_slot (window (slot_history_start 3))))
             = true).
Proof.
  refine (proj1 (proj2 (proj2 (create_slot_result (slot_history_start 3) _))) _).
  - unfold slot_invariant, max_slot_id. simpl.
    split; [lia|]. split; [lia|]. split.
    + intros s. split; [intros [] | lia].
    + intros _ s [].
  - vm_compute. discriminate.
Defined.

(** X11.  Room after an invalidation.  [clear_slots] leaves an empty
    window that ends at 500000000 or below (it reseeds the window when
    the end has passed that), so at least half of the slot range is
    free: the next [k] calls of [create_slot], for any [k] up to
    500000001, all succeed and return the [k] consecutive slots from the
    end of the window on, which are then exactly the valid ones. *)
Theorem slots_room_after_invalidation (r : Z) (h : slot_history) (k : nat) :
  slot_invariant h -> lrand48_range r -> Z.of_nat k <= 500000001 ->
  begin_slot_id (clear_slots r (window h)) = end_slot_id (clear_slots r (window h)) /\
  1 <= end_slot_id (clear_slots r (window h)) <= 500000000 /\
  (forall s, is_valid_slot s (clear_slots r (window h)) = false) /\
  window (slot_run (repeat slot_create k) (slot_step (slot_invalidate_all r) h))
  = mk_slots (end_slot_id (clear_slots r (window h)))
             (end_slot_id (clear_slots r (window h)) + Z.of_nat k) /\
  (forall s,
      In s (issued (slot_run (repeat slot_create k)
                             (slot_step (slot_invalidate_all r) h))) <->
      end_slot_id (clear_slots r (window h)) <= s
      < end_slot_id (clear_slots r (window h)) + Z.of_nat k).
Proof.
  intros I R K.
  pose proof (slot_step_invariant (slot_invalidate_all r) h R I) as I1.
  assert (W : begin_slot_id (clear_slots r (window h))
              = end_slot_id (clear_slots r (window h)) /\
              1 <= end_slot_id (clear_slots r (window h)) <= 500000000).
  { destruct I as [B [E _]]. unfold clear_slots.
    cbn [begin_slot_id end_slot_id]. rewrite max_slot_half.
    destruct (Z.gtb_spec (end_slot_id (window h)) 500000000) as [G|G].
    - destruct (init_slots_range r (mk_slots (end_slot_id (window h))
                                             (end_slot_id (window h))) R)
        as [x [EQ X]].
      rewrite EQ. cbn [begin_slot_id end_slot_id]. lia.
    - cbn [begin_slot_id end_slot_id]. lia. }
  destruct W as [W1 W2].
  split; [exact W1|]. split; [exact W2|]. split.
  { intros s. unfold is_valid_slot. rewrite W1.
    destruct (Z.leb_spec (end_slot_id (clear_slots r (window h))) s);
      destruct (Z.ltb_spec s (end_slot_id (clear_slots r (window h))));
      try reflexivity; lia. }
  cbn [slot_step] in I1 |- *.
  match goal with
  | |- context [slot_run _ ?h1] => destruct (create_many k h1) as [Hw _]
  end.
  { cbn [window]. lia. }
  { cbn [window]. unfold max_slot_id. lia. }
  cbn [window] in Hw. rewrite W1 in Hw.
  split; [exact Hw|].
  assert (WF : Forall slot_op_wf (repeat slot_create k)).
  { apply Forall_forall. intros o H. apply repeat_spec in H. subst o. exact Logic.I. }
  destruct (slot_run_invariant _ _ WF I1) as [_ [_ [Is _]]].
  intros s. rewrite Is, Hw. cbn [begin_slot_id end_slot_id]. reflexivity.
Qed.

Lemma slots_room_after_invalidation_witness :
  window (slot_run (repeat slot_create 3)
                   (slot_step (slot_invalidate_all 7) (slot_history_start 3)))
  = mk_slots 4 7.
Proof.
  refine (eq_trans
            (proj1 (proj2 (proj2 (proj2
               (slots_room_after_invalidation 7 (slot_history_start 3) 3 _ _ _)))))
            eq_refl).
  - unfold slot_invariant, max_slot_id. simpl.
    split; [lia|]. split; [lia|]. split.
    + intros s. split; [intros [] | lia].
    + intros _ s [].
  - unfold lrand48_range. lia.
  - simpl. lia.
Defined.

(** ** The ring queue, continued *)

Section StaticQueueMore.
Variable DataT : Type.
Variable N : Z.

Local Abbreviation queue := (StaticQueue.t DataT).

Lemma update_q_same (sq : queue) event (f : DataT -> DataT) :
  StaticQueue.q (StaticQueue.update event f sq) event
  = f (StaticQueue.q sq event).
Proof.
  unfold StaticQueue.update, StaticQueue.store. cbn [StaticQueue.q].
  rewrite Z.eqb_refl. reflexivity.
Qed.

Lemma update_q_other (sq : queue) event (f : DataT -> DataT) i :
  i <> event ->
  StaticQueue.q (StaticQueue.update event f sq) i = StaticQueue.q sq i.
Proof.
  intros D. unfold StaticQueue.update, StaticQueue.store. cbn [StaticQueue.q].
  destruct (Z.eqb_spec i event); [contradiction | reflexivity].
Qed.

Lemma update_shape (sq : queue) event (f : DataT -> DataT) :
  StaticQueue.begin (StaticQueue.update event f sq) = StaticQueue.begin sq /\
  StaticQueue.end_ (StaticQueue.update event f sq) = StaticQueue.end_ sq /\
  StaticQueue.cnt (StaticQueue.update event f sq) = StaticQueue.cnt sq.
Proof. split; [|split]; reflexivity. Qed.

(** the queue after [create] and any writes to the new record *)
Lemma records_after_create (sq sq1 : queue) :
  StaticQueue.wf N sq -> StaticQueue.cnt sq <> N ->
  StaticQueue.begin sq1 = StaticQueue.begin sq ->
  StaticQueue.end_ sq1
  = (if StaticQueue.end_ sq + 1 =? N then 0 else StaticQueue.end_ sq + 1) ->
  StaticQueue.cnt sq1 = StaticQueue.cnt sq + 1 ->
  (forall i, i <> StaticQueue.end_ sq ->
             StaticQueue.q sq1 i = StaticQueue.q sq i) ->
  StaticQueue.wf N sq1 /\
  StaticQueue.records N sq1
  = StaticQueue.records N sq ++ [StaticQueue.q sq1 (StaticQueue.end_ sq)].
Proof.
  intros W NF Hb He Hc Hq. pose proof W as [B [C E]]. split.
  - unfold StaticQueue.wf. rewrite Hb, He, Hc.
    split; [exact B|]. split; [lia|]. rewrite E. apply idx_step; lia.
  - unfold StaticQueue.records. rewrite Hb, Hc.
    replace (Z.to_nat (StaticQueue.cnt sq + 1))
      with (S (Z.to_nat (StaticQueue.cnt sq))) by lia.
    rewrite seq_S, map_app. cbn [map Nat.add]. f_equal.
    + apply map_ext_in. intros i Hi. apply in_seq in Hi.
      apply Hq. rewrite E. apply idx_distinct; lia.
    + rewrite Z2Nat.id by lia. rewrite <- E. reflexivity.
Qed.

(** the queue after [create], writes to the new record and [undo_create] *)
Lemma records_after_undo (sq sq1 : queue) :
  StaticQueue.wf N sq -> StaticQueue.cnt sq <> N ->
  StaticQueue.begin sq1 = StaticQueue.begin sq ->
  StaticQueue.end_ sq1
  = (if StaticQueue.end_ sq + 1 =? N then 0 else StaticQueue.end_ sq + 1) ->
  StaticQueue.cnt sq1 = StaticQueue.cnt sq + 1 ->
  (forall i, i <> StaticQueue.end_ sq ->
             StaticQueue.q sq1 i = StaticQueue.q sq i) ->
  exists sq2,
    StaticQueue.undo_create N (StaticQueue.end_ sq) sq1 = Some sq2 /\
    StaticQueue.begin sq2 = StaticQueue.begin sq /\
    StaticQueue.end_ sq2 = StaticQueue.end_ sq /\
    StaticQueue.cnt sq2 = StaticQueue.cnt sq /\
    StaticQueue.wf N sq2 /\
    StaticQueue.records N sq2 = StaticQueue.records N sq.
Proof.
  intros W NF Hb He Hc Hq. pose proof W as [B [C E]].
  pose proof (wf_end_range _ _ _ W) as ER.
  unfold StaticQueue.undo_create. rewrite He, Hc, Hb.
  assert (O : (if (if StaticQueue.end_ sq + 1 =? N
                   then 0 else StaticQueue.end_ sq + 1) - 1 =? -1
               then N - 1
               else (if StaticQueue.end_ sq + 1 =? N
                     then 0 else StaticQueue.end_ sq + 1) - 1)
              = StaticQueue.end_ sq) by (cases; lia).
  rewrite O, Z.eqb_refl. cbn [assert bind]. rewrite Z.add_simpl_r.
  eexists. split; [reflexivity|].
  cbn [StaticQueue.q StaticQueue.begin StaticQueue.end_ StaticQueue.cnt].
  split; [reflexivity|]. split; [reflexivity|]. split; [reflexivity|].
  split; [exact W|].
  unfold StaticQueue.records.
  cbn [StaticQueue.q StaticQueue.begin StaticQueue.end_ StaticQueue.cnt].
  apply map_ext_in. intros i Hi. apply in_seq in Hi.
  apply Hq. rewrite E. apply idx_distinct; lia.
Qed.

Lemma removelast_map_seq (f : nat -> DataT) (n : nat) :
  removelast (map f (seq 0 (S n))) = map f (seq 0 n).
Proof. rewrite seq_S, map_app. cbn [map]. apply removelast_last. Qed.

(** X12.  [undo_create] takes back the newest record, whoever asks.  On
    a queue that holds records it returns exactly when the pointer is
    the record created last (another pointer fails the assertion), and
    then the records are the ones before without the newest, the array
    and [begin] are untouched and the queue is well formed.  There is
    no check for an empty queue: there, the element before [end] passes
    the assertion and the count goes to [-1]. *)
Theorem undo_create_takes_newest (sq : queue) :
  StaticQueue.wf N sq ->
  (0 < StaticQueue.cnt sq ->
   forall event,
     (StaticQueue.undo_create N event sq <> None <->
      event = StaticQueue.idx N (StaticQueue.begin sq) (StaticQueue.cnt sq - 1)) /\
     (forall sq',
         StaticQueue.undo_create N event sq = Some sq' ->
         StaticQueue.wf N sq' /\
         StaticQueue.records N sq' = removelast (StaticQueue.records N sq) /\
         StaticQueue.q sq' = StaticQueue.q sq /\
         StaticQueue.begin sq' = StaticQueue.begin sq)) /\
  (StaticQueue.cnt sq = 0 ->
   exists sq',
     StaticQueue.undo_create N
       (if StaticQueue.begin sq =? 0 then N - 1 else StaticQueue.begin sq - 1) sq
     = Some sq' /\
     StaticQueue.cnt sq' = -1 /\ ~ StaticQueue.wf N sq').
Proof.
  intros W. pose proof W as [B [C E]]. split.
  - intros P event.
    assert (O : (if StaticQueue.end_ sq - 1 =? -1
                 then N - 1 else StaticQueue.end_ sq - 1)
                = StaticQueue.idx N (StaticQueue.begin sq) (StaticQueue.cnt sq - 1)).
    { rewrite E.
      assert (R : 0 <= StaticQueue.cnt sq - 1 < N) by lia.
      pose proof (idx_back N (StaticQueue.begin sq) (StaticQueue.cnt sq - 1) B R)
        as IB.
      replace (StaticQueue.cnt sq - 1 + 1) with (StaticQueue.cnt sq) in IB by lia.
      exact IB. }
    unfold StaticQueue.undo_create. rewrite O.
    destruct (Z.eqb_spec event
                (StaticQueue.idx N (StaticQueue.begin sq) (StaticQueue.cnt sq - 1)))
      as [EQ|NE]; cbn [assert bind].
    + split; [split; [intros _; exact EQ | intros _; discriminate]|].
      intros sq' [= <-].
      cbn [StaticQueue.q StaticQueue.begin StaticQueue.end_ StaticQueue.cnt].
      split; [|split; [|split; reflexivity]].
      * unfold StaticQueue.wf.
        cbn [StaticQueue.q StaticQueue.begin StaticQueue.end_ StaticQueue.cnt].
        split; [exact B|]. split; [lia | reflexivity].
      * unfold StaticQueue.records.
        cbn [StaticQueue.q StaticQueue.begin StaticQueue.end_ StaticQueue.cnt].
        replace (Z.to_nat (StaticQueue.cnt sq))
          with (S (Z.to_nat (StaticQueue.cnt sq - 1))) by lia.
        symmetry. apply removelast_map_seq.
    + split; [split; [intros H; contradiction H; reflexivity | intros H; contradiction]|].
      intros sq' H. discriminate H.
  - intros Z0. unfold StaticQueue.undo_create.
    assert (O : (if StaticQueue.end_ sq - 1 =? -1
                 then N - 1 else StaticQueue.end_ sq - 1)
                = (if StaticQueue.begin sq =? 0
                   then N - 1 else StaticQueue.begin sq - 1)).
    { rewrite E, Z0, idx_zero by exact B. cases; lia. }
    rewrite O, Z.eqb_refl. cbn [assert bind].
    eexists. split; [reflexivity|].
    cbn [StaticQueue.cnt]. split; [lia|].
    unfold StaticQueue.wf. cbn [StaticQueue.cnt]. lia.
Qed.

End StaticQueueMore.

Lemma undo_create_takes_newest_witness :
  StaticQueue.undo_create 3 1
    (StaticQueue.mk (fun i : Z => i) 2 2 3) <> None <->
  1 = StaticQueue.idx 3 2 2.
Proof.
  refine (proj1 (proj1 (undo_create_takes_newest Z 3
                          (StaticQueue.mk (fun i : Z => i) 2 2 3) _) _ 1)).
  - unfold StaticQueue.wf. vm_compute. repeat split; discriminate.
  - simpl. lia.
Defined.

(** ** Events, continued *)

Lemma alloc_net_event_ok s (net_events : net_events_t) slot ty :
  is_valid_slot slot s = true ->
  StaticQueue.cnt net_events <> net_events_N ->
  alloc_net_event s net_events slot ty
  = (1, Some (StaticQueue.end_ net_events),
     StaticQueue.update (StaticQueue.end_ net_events) (set_type ty)
       (StaticQueue.update (StaticQueue.end_ net_events) (set_slot_id slot)
          (StaticQueue.mk (StaticQueue.q net_events) (StaticQueue.begin net_events)
             (if StaticQueue.end_ net_events + 1 =? net_events_N
              then 0 else StaticQueue.end_ net_events + 1)
             (StaticQueue.cnt net_events + 1)))).
Proof.
  intros V NF. unfold alloc_net_event. rewrite V. cbn [negb].
  rewrite (create_some _ _ _ NF). reflexivity.
Qed.

Lemma alloc_net_event_invalid s (net_events : net_events_t) slot ty :
  is_valid_slot slot s = false ->
  alloc_net_event s net_events slot ty = (0, None, net_events).
Proof. intros V. unfold alloc_net_event. rewrite V. reflexivity. Qed.

Lemma alloc_net_event_full s (net_events : net_events_t) slot ty :
  is_valid_slot slot s = true ->
  StaticQueue.cnt net_events = net_events_N ->
  alloc_net_event s net_events slot ty = (-2, None, net_events).
Proof.
  intros V F. unfold alloc_net_event, StaticQueue.create. rewrite V. cbn [negb].
  rewrite (proj2 (Z.eqb_eq _ _) F). reflexivity.
Qed.

(** the queue after the writes of an event function to the new record *)
Ltac new_record W NF :=
  apply (records_after_create _ _ _ _ W NF);
  [ reflexivity | reflexivity | reflexivity
  | intros i D; repeat rewrite (update_q_other _ _ _ _ i D); reflexivity ].

(** X13.  The status of [create_rpc_error_event].  It returns [0] for a
    slot that is not valid, [-2] for a valid slot when the event queue
    is full, and [1] otherwise; in the first two cases the queue is left
    exactly as it was and nothing is stored in [*res].  With [1] the
    queue has one more record, behind all the others: an event of type
    [ne_rpc_error] with the slot, the error code and the message; [*res]
    is the new record if the caller asked for it. *)
Theorem create_rpc_error_event_status
        (s : slots) (net_events : net_events_t) (slot code : Z)
        (message : option string) (res_given : bool) :
  StaticQueue.wf net_events_N net_events ->
  (is_valid_slot slot s = false ->
   create_rpc_error_event s net_events slot code message res_given
   = (0, None, net_events)) /\
  (is_valid_slot slot s = true ->
   StaticQueue.cnt net_events = net_events_N ->
   create_rpc_error_event s net_events slot code message res_given
   = (-2, None, net_events)) /\
  (is_valid_slot slot s = true ->
   StaticQueue.cnt net_events <> net_events_N ->
   exists net_events',
     create_rpc_error_event s net_events slot code message res_given
     = (1, if res_given then Some (StaticQueue.end_ net_events) else None,
        net_events') /\
     StaticQueue.wf net_events_N net_events' /\
     StaticQueue.records net_events_N net_events'
     = StaticQueue.records net_events_N net_events
       ++ [mk_net_event slot ne_rpc_error
             (result (StaticQueue.q net_events (StaticQueue.end_ net_events)))
             (result_len (StaticQueue.q net_events (StaticQueue.end_ net_events)))
             code message]).
Proof.
  intros W. split; [|split].
  - intros V. unfold create_rpc_error_event.
    rewrite (alloc_net_event_invalid _ _ _ _ V). reflexivity.
  - intros V F. unfold create_rpc_error_event.
    rewrite (alloc_net_event_full _ _ _ _ V F). reflexivity.
  - intros V NF. unfold create_rpc_error_event.
    rewrite (alloc_net_event_ok _ _ _ _ V NF).
    change (1 <=? 0) with false. cbv iota.
    eexists. split; [reflexivity|].
    match goal with
    | |- StaticQueue.wf _ ?sq1 /\ _ =>
        assert (R : StaticQueue.wf net_events_N sq1 /\
                    StaticQueue.records net_events_N sq1
                    = StaticQueue.records net_events_N net_events
                      ++ [StaticQueue.q sq1 (StaticQueue.end_ net_events)])
          by (new_record W NF)
    end.
    destruct R as [R1 R2]. split; [exact R1|]. rewrite R2. f_equal. f_equal.
    repeat rewrite update_q_same. reflexivity.
Qed.

Lemma create_rpc_error_event_status_witness :
  exists net_events',
    create_rpc_error_event (mk_slots 5 9) example_net_events 7 (-3000)
                           (Some "Timeout"%string) true
    = (1, Some 1999999, net_events') /\
    StaticQueue.wf net_events_N net_events' /\
    StaticQueue.records net_events_N net_events'
    = StaticQueue.records net_events_N example_net_events
      ++ [mk_net_event 7 ne_rpc_error None 0 (-3000) (Some "Timeout"%string)].
Proof.
  refine (proj2 (proj2 (create_rpc_error_event_status (mk_slots 5 9)
                          example_net_events 7 (-3000)
                          (Some "Timeout"%string) true _)) _ _).
  - unfold StaticQueue.wf. simpl. unfold net_events_N. repeat split; lia.
  - reflexivity.
  - simpl. unfold net_events_N. lia.
Defined.

Lemma size_of_int_range len :
  int_range len = true ->
  (0 <= len -> size_of_int len = len) /\
  (len < 0 -> size_of_int len = len + SIZE_MOD).
Proof.
  unfold int_range, INT_MIN, INT_MAX, size_of_int. intros R.
  apply andb_true_iff in R. destruct R as [R1 R2].
  apply Z.leb_le in R1. apply Z.leb_le in R2. rewrite SIZE_MOD_val. split.
  - intros P. apply Z.mod_small. lia.
  - intros P. symmetry. apply (Z.mod_unique _ _ (-1)); lia.
Qed.

(** the size limit of [dl_allocate_safe] *)
Lemma dl_limit_val : Z.shiftl 1 30 - 13 = 1073741811.
Proof. reflexivity. Qed.

Lemma dl_allocate_safe_int ml_flag dl_allocate len :
  int_range len = true -> len <> 0 ->
  dl_allocate_safe ml_flag dl_allocate (size_of_int len)
  = if ml_flag then Some None
    else if (0 <? len) && (len <=? 1073741811)
         then match dl_allocate (len + 13) with
              | None => Some None
              | Some dest => Some (Some (dest + 12))
              end
         else None.
Proof.
  intros R NZ. destruct (size_of_int_range len R) as [P Q].
  unfold dl_allocate_safe. rewrite dl_limit_val.
  destruct (Z.ltb_spec 0 len) as [L|L].
  - rewrite P by lia.
    destruct (Z.eqb_spec len 0) as [Z0|_]; [contradiction|].
    cbn [orb andb]. destruct ml_flag; [reflexivity|].
    destruct (len <=? 1073741811); reflexivity.
  - rewrite Q by lia. rewrite SIZE_MOD_val.
    unfold int_range, INT_MIN in R. apply andb_true_iff in R.
    destruct R as [R1 _]. apply Z.leb_le in R1.
    destruct (Z.eqb_spec (len + 18446744073709551616) 0) as [Z0|_]; [lia|].
    cbn [orb andb]. destruct ml_flag; [reflexivity|].
    destruct (Z.leb_spec (len + 18446744073709551616) 1073741811) as [H|H];
      [lia | reflexivity].
Qed.

(** X14.  The status of [create_rpc_answer_event], for a length that is
    an [int].  It returns [0] for a slot that is not valid and [-2] when
    the event queue is full, leaving the queue exactly as it was.  With
    a valid slot and room in the queue, the call aborts when the length
    is negative or above [2^30 - 13] (unless the memory-limit flag is
    set, which is tested first), or when the event is ready and the
    caller gave no [res]; it returns [-1] with the records as before
    when the length is not zero and the flag is set or [dl::allocate]
    fails; and otherwise it returns [1] and the queue has one more
    record, behind the others: an event of type [ne_rpc_answer] with the
    slot, the length, and as result the address 12 bytes into the block
    of [len + 13] bytes (no result for length zero). *)
Theorem create_rpc_answer_event_status
        (ml_flag : bool) (dl_allocate : Z -> option Z) (s : slots)
        (net_events : net_events_t) (slot len : Z) (res_given : bool) :
  StaticQueue.wf net_events_N net_events ->
  int_range len = true ->
  (is_valid_slot slot s = false ->
   create_rpc_answer_event ml_flag dl_allocate s net_events slot len res_given
   = Some (0, None, net_events)) /\
  (is_valid_slot slot s = true ->
   StaticQueue.cnt net_events = net_events_N ->
   create_rpc_answer_event ml_flag dl_allocate s net_events slot len res_given
   = Some (-2, None, net_events)) /\
  (is_valid_slot slot s = true ->
   StaticQueue.cnt net_events <> net_events_N ->
   (create_rpc_answer_event ml_flag dl_allocate s net_events slot len res_given
    = None <->
    (len <> 0 /\ ml_flag = false /\ (len < 0 \/ 1073741811 < len)) \/
    (res_given = false /\
     (len = 0 \/
      (ml_flag = false /\ 0 < len <= 1073741811 /\
       dl_allocate (len + 13) <> None)))) /\
   (forall status res net_events',
       create_rpc_answer_event ml_flag dl_allocate s net_events slot len res_given
       = Some (status, res, net_events') ->
       (status = -1 /\ res = None /\ len <> 0 /\
        (ml_flag = true \/ dl_allocate (len + 13) = None) /\
        StaticQueue.wf net_events_N net_events' /\
        StaticQueue.records net_events_N net_events'
        = StaticQueue.records net_events_N net_events) \/
       (status = 1 /\ res = Some (StaticQueue.end_ net_events) /\
        res_given = true /\
        StaticQueue.wf net_events_N net_events' /\
        StaticQueue.records net_events_N net_events'
        = StaticQueue.records net_events_N net_events
          ++ [mk_net_event slot ne_rpc_answer
                (if len =? 0 then None
                 else match dl_allocate (len + 13) with
                      | Some dest => Some (dest + 12)
                      | None => None
                      end)
                len
                (error_code (StaticQueue.q net_events (StaticQueue.end_ net_events)))
                (error_message
                   (StaticQueue.q net_events (StaticQueue.end_ net_events)))]))).
Proof.
  intros W R. split; [|split].
  - intros V. unfold create_rpc_answer_event.
    rewrite (alloc_net_event_invalid _ _ _ _ V). reflexivity.
  - intros V F. unfold create_rpc_answer_event.
    rewrite (alloc_net_event_full _ _ _ _ V F). reflexivity.
  - intros V NF. unfold create_rpc_answer_event.
    rewrite (alloc_net_event_ok _ _ _ _ V NF).
    change (1 <=? 0) with false. cbv iota.
    set (sq1 := StaticQueue.update (StaticQueue.end_ net_events)
                  (set_type ne_rpc_answer)
                  (StaticQueue.update (StaticQueue.end_ net_events)
                     (set_slot_id slot)
                     (StaticQueue.mk (StaticQueue.q net_events)
                        (StaticQueue.begin net_events)
                        (if StaticQueue.end_ net_events + 1 =? net_events_N
                         then 0 else StaticQueue.end_ net_events + 1)
                        (StaticQueue.cnt net_events + 1)))).
    assert (U : exists sq2,
               unalloc_net_event (StaticQueue.end_ net_events) sq1 = Some sq2 /\
               StaticQueue.wf net_events_N sq2 /\
               StaticQueue.records net_events_N sq2
               = StaticQueue.records net_events_N net_events).
    { destruct (records_after_undo _ _ net_events sq1 W NF) as [sq2 [U1 [_ [_ [_ [U2 U3]]]]]];
        [ reflexivity | reflexivity | reflexivity
        | intros i D; unfold sq1;
          repeat rewrite (update_q_other _ _ _ _ i D); reflexivity |].
      exists sq2. split; [exact U1|]. split; [exact U2 | exact U3]. }
    destruct U as [sq2 [U1 [U2 U3]]].
    assert (Done : forall x,
               let sq3 := StaticQueue.update (StaticQueue.end_ net_events)
                            (set_result_len len)
                            (StaticQueue.update (StaticQueue.end_ net_events)
                               (set_result x) sq1) in
               StaticQueue.wf net_events_N sq3 /\
               StaticQueue.records net_events_N sq3
               = StaticQueue.records net_events_N net_events
                 ++ [mk_net_event slot ne_rpc_answer x len
                       (error_code
                          (StaticQueue.q net_events (StaticQueue.end_ net_events)))
                       (error_message
                          (StaticQueue.q net_events (StaticQueue.end_ net_events)))]).
    { intros x sq3.
      destruct (records_after_create _ _ net_events sq3 W NF) as [D1 D2];
        [ reflexivity | reflexivity | reflexivity
        | intros i D; unfold sq3, sq1;
          repeat rewrite (update_q_other _ _ _ _ i D); reflexivity |].
      split; [exact D1|]. rewrite D2. f_equal. f_equal. unfold sq3, sq1.
      repeat rewrite update_q_same. reflexivity. }
    destruct (Z.eqb_spec len 0) as [Z0|NZ]; cbn [negb bind].
    + (* no payload *)
      destruct res_given; cbn [assert bind].
      * split.
        -- split; [discriminate|]. intros [[H _]|[H _]]; [contradiction | discriminate].
        -- intros status res net_events' [= <- <- <-]. right.
           destruct (Done None) as [D1 D2].
           split; [reflexivity|]. split; [reflexivity|]. split; [reflexivity|].
           split; [exact D1 | exact D2].
      * split.
        -- split; [intros _; right; split; [reflexivity | left; exact Z0]
                  | reflexivity].
        -- intros status res net_events' H. discriminate H.
    + rewrite (dl_allocate_safe_int _ _ _ R NZ).
      destruct ml_flag.
      * (* the memory-limit flag *)
        cbn [bind]. rewrite U1. cbn [bind]. split.
        -- split; [discriminate|].
           intros [[_ [H _]]|[_ [H|[H _]]]]; [discriminate | contradiction | discriminate].
        -- intros status res net_events' [= <- <- <-]. left.
           split; [reflexivity|]. split; [reflexivity|]. split; [exact NZ|].
           split; [left; reflexivity|]. split; [exact U2 | exact U3].
      * destruct (Z.ltb_spec 0 len) as [P|P];
          [destruct (Z.leb_spec len 1073741811) as [B|B]|]; cbn [andb].
        -- destruct (dl_allocate (len + 13)) as [dest|] eqn:A; cbn [bind].
           ++ destruct res_given; cbn [assert bind].
              ** split.
                 --- split; [discriminate|].
                     intros [[_ [_ H]]|[H _]]; [lia | discriminate].
                 --- intros status res net_events' [= <- <- <-]. right.
                     destruct (Done (Some (dest + 12))) as [D1 D2].
                     split; [reflexivity|]. split; [reflexivity|].
                     split; [reflexivity|]. split; [exact D1 | exact D2].
              ** split.
                 --- split; [|reflexivity]. intros _. right.
                     split; [reflexivity|]. right. split; [reflexivity|].
                     split; [lia | discriminate].
                 --- intros status res net_events' H. discriminate H.
           ++ rewrite U1. cbn [bind]. split.
              ** split; [discriminate|].
                 intros [[_ [_ H]]|[_ [H|[_ [_ H]]]]];
                   [lia | contradiction | contradiction H; reflexivity].
              ** intros status res net_events' [= <- <- <-]. left.
                 split; [reflexivity|]. split; [reflexivity|]. split; [exact NZ|].
                 split; [right; reflexivity|]. split; [exact U2 | exact U3].
        -- cbn [bind]. split.
           ++ split; [|reflexivity]. intros _. left.
              split; [exact NZ|]. split; [reflexivity | right; exact B].
           ++ intros status res net_events' H. discriminate H.
        -- cbn [bind]. split.
           ++ split; [|reflexivity]. intros _. left.
              split; [exact NZ|]. split; [reflexivity | left; lia].
           ++ intros status res net_events' H. discriminate H.
Qed.

Lemma create_rpc_answer_event_status_witness :
  create_rpc_answer_event false (fun _ => Some 1000) (mk_slots 5 9)
                          example_net_events 7 (-1) true = None.
Proof.
  refine (proj2 (proj1 (proj2 (proj2
            (create_rpc_answer_event_status false (fun _ => Some 1000)
               (mk_slots 5 9) example_net_events 7 (-1) true _ _)) _ _)) _).
  - unfold StaticQueue.wf. simpl. unfold net_events_N. repeat split; lia.
  - reflexivity.
  - reflexivity.
  - simpl. unfold net_events_N. lia.
  - left. split; [lia|]. split; [reflexivity | left; lia].
Defined.

(** ** Net queries *)

(** X15.  [engine_rpc_send_query] queues a query or changes nothing.
    With a well-formed query queue and a slot window in its range the
    call always returns.  It returns [-1] when the queue is full, with
    the queue and the window exactly as they were, and when no slot is
    left, with the window and the records of the queue as they were (the
    record handed out was taken back).  Otherwise it returns the slot at
    the end of the window, which is valid after the call, and the queue
    has one more record, behind the others: a query of type
    [nq_rpc_send] with that slot, the host, the request, its size and
    the timeout. *)
Theorem engine_rpc_send_query_effect
        (s : slots) (net_queries : net_queries_t)
        (host_num : Z) (request : option Z) (request_size timeout_ms : Z) :
  StaticQueue.wf net_queries_N net_queries ->
  slots_wf s ->
  (StaticQueue.cnt net_queries = net_queries_N ->
   engine_rpc_send_query s net_queries host_num request request_size timeout_ms
   = Some (-1, s, net_queries)) /\
  (StaticQueue.cnt net_queries <> net_queries_N ->
   end_slot_id s = max_slot_id + 1 ->
   exists net_queries',
     engine_rpc_send_query s net_queries host_num request request_size timeout_ms
     = Some (-1, s, net_queries') /\
     StaticQueue.wf net_queries_N net_queries' /\
     StaticQueue.begin net_queries' = StaticQueue.begin net_queries /\
     StaticQueue.end_ net_queries' = StaticQueue.end_ net_queries /\
     StaticQueue.records net_queries_N net_queries'
     = StaticQueue.records net_queries_N net_queries) /\
  (StaticQueue.cnt net_queries <> net_queries_N ->
   end_slot_id s <= max_slot_id ->
   exists net_queries',
     engine_rpc_send_query s net_queries host_num request request_size timeout_ms
     = Some (end_slot_id s, mk_slots (begin_slot_id s) (end_slot_id s + 1),
             net_queries') /\
     is_valid_slot (end_slot_id s) (mk_slots (begin_slot_id s) (end_slot_id s + 1))
     = true /\
     StaticQueue.wf net_queries_N net_queries' /\
     StaticQueue.records net_queries_N net_queries'
     = StaticQueue.records net_queries_N net_queries
       ++ [net_query.mk nq_rpc_send (end_slot_id s) host_num request
                        request_size timeout_ms]).
Proof.
  intros W [[B1 B2] B3]. unfold max_slot_id in *. split; [|split].
  - intros F. unfold engine_rpc_send_query, create_net_query, StaticQueue.create.
    rewrite (proj2 (Z.eqb_eq _ _) F). reflexivity.
  - intros NF X. unfold engine_rpc_send_query, create_net_query.
    rewrite (create_some _ _ _ NF). unfold create_slot.
    destruct (Z.gtb_spec (end_slot_id s) max_slot_id) as [_|G];
      [|unfold max_slot_id in G; lia].
    rewrite update_q_same. cbn [net_query.set_slot_id net_query.slot_id].
    change (-1 =? -1) with true. cbv iota.
    match goal with
    | |- context [unalloc_net_query _ ?sq1] =>
        destruct (records_after_undo _ _ net_queries sq1 W NF)
          as [sq2 [U1 [U2 [U3 [_ [U4 U5]]]]]];
          [ reflexivity | reflexivity | reflexivity
          | intros i D; repeat rewrite (update_q_other _ _ _ _ i D); reflexivity |]
    end.
    unfold unalloc_net_query. rewrite U1. cbn [bind].
    exists sq2. split; [reflexivity|]. split; [exact U4|].
    split; [exact U2|]. split; [exact U3 | exact U5].
  - intros NF X. unfold engine_rpc_send_query, create_net_query.
    rewrite (create_some _ _ _ NF). unfold create_slot.
    destruct (Z.gtb_spec (end_slot_id s) max_slot_id) as [G|_];
      [unfold max_slot_id in G; lia|].
    rewrite update_q_same. cbn [net_query.set_slot_id net_query.slot_id].
    destruct (Z.eqb_spec (end_slot_id s) (-1)) as [M|_]; [lia|].
    eexists. split.
    + repeat rewrite update_q_same.
      cbn [net_query.set_slot_id net_query.set_host_num net_query.set_request
           net_query.set_request_size net_query.set_timeout_ms net_query.slot_id].
      reflexivity.
    + split.
      * unfold is_valid_slot. cbn [begin_slot_id end_slot_id].
        apply andb_true_iff. split; [apply Z.leb_le | apply Z.ltb_lt]; lia.
      * match goal with
        | |- StaticQueue.wf _ ?sq1 /\ _ =>
            destruct (records_after_create _ _ net_queries sq1 W NF) as [D1 D2];
              [ reflexivity | reflexivity | reflexivity
              | intros i D; repeat rewrite (update_q_other _ _ _ _ i D);
                reflexivity |]
        end.
        split; [exact D1|]. rewrite D2. f_equal. f_equal.
        repeat rewrite update_q_same. reflexivity.
Qed.

Lemma engine_rpc_send_query_effect_witness :
  exists net_queries',
    engine_rpc_send_query (mk_slots 5 9) (StaticQueue.new (fun _ => example_query))
                          2 (Some 4096) 16 300
    = Some (9, mk_slots 5 10, net_queries') /\
    is_valid_slot 9 (mk_slots 5 10) = true /\
    StaticQueue.wf net_queries_N net_queries' /\
    StaticQueue.records net_queries_N net_queries'
    = [net_query.mk nq_rpc_send 9 2 (Some 4096) 16 300].
Proof.
  refine (proj2 (proj2 (engine_rpc_send_query_effect (mk_slots 5 9)
                          (StaticQueue.new (fun _ => example_query))
                          2 (Some 4096) 16 300 _ _)) _ _).
  - unfold StaticQueue.wf. simpl. unfold net_queries_N. repeat split; lia.
  - unfold slots_wf, max_slot_id. simpl. lia.
  - simpl. unfold net_queries_N. lia.
  - unfold max_slot_id. simpl. lia.
Defined.

(** ** Between two requests *)

Lemma clear_slots_empty r s :
  slots_wf s -> lrand48_range r ->
  slots_wf (clear_slots r s) /\
  begin_slot_id (clear_slots r s) = end_slot_id (clear_slots r s).
Proof.
  intros [[B1 B2] B3] R. unfold clear_slots, slots_wf.
  cbn [begin_slot_id end_slot_id]. rewrite max_slot_half.
  unfold max_slot_id in *.
  destruct (Z.gtb_spec (end_slot_id s) 500000000) as [G|G].
  - destruct (init_slots_range r (mk_slots (end_slot_id s) (end_slot_id s)) R)
      as [x [EQ X]].
    rewrite EQ. cbn [begin_slot_id end_slot_id]. lia.
  - cbn [begin_slot_id end_slot_id]. lia.
Qed.

(** X16.  [php_queries_finish] closes a request.  On an initialised
    pool (below the [long long] limit of the generation) it returns, and
    afterwards: every answer generator created during the request is
    dead; no slot is valid, so that an event for any slot is refused
    with status [0] and leaves the event queue alone; both queues are
    empty and well formed, whatever they held; and a second
    [php_queries_finish] aborts.  [php_queries_start] then returns and
    gives the pool of the two free static pages, leaving the window and
    the queues as they are. *)
Theorem php_queries_finish_resets (r : Z) (st : engine_state) :
  qmem.state (e_qmem st) = qmem.st_inited ->
  qmem.qmem_generation (e_qmem st) < LLONG_MAX ->
  slots_wf (e_slots st) -> lrand48_range r ->
  exists st',
    php_queries_finish r st = Some st' /\
    (forall base_self,
        net_ansgen.qmem_req_generation base_self
        <= qmem.qmem_generation (e_qmem st) ->
        net_ansgen_is_alive base_self (e_qmem st') = false) /\
    slots_wf (e_slots st') /\
    (forall slot, is_valid_slot slot (e_slots st') = false) /\
    (forall slot code message res_given,
        create_rpc_error_event (e_slots st') (e_net_events st') slot code
                               message res_given
        = (0, None, e_net_events st')) /\
    (forall ml_flag dl_allocate slot len res_given,
        create_rpc_answer_event ml_flag dl_allocate (e_slots st')
                                (e_net_events st') slot len res_given
        = Some (0, None, e_net_events st')) /\
    net_events_empty (e_net_events st') = true /\
    StaticQueue.wf net_events_N (e_net_events st') /\
    StaticQueue.records net_events_N (e_net_events st') = [] /\
    engine_pop_net_event (e_net_events st') = (None, e_net_events st') /\
    StaticQueue.wf net_queries_N (e_net_queries st') /\
    StaticQueue.records net_queries_N (e_net_queries st') = [] /\
    pop_net_query (e_net_queries st') = (None, e_net_queries st') /\
    (forall r', php_queries_finish r' st' = None) /\
    php_queries_start st'
    = Some (mk_engine_state
              (fresh_pool (qmem.heap_top (e_qmem st))
                          (qmem.qmem_generation (e_qmem st) + 1))
              (e_slots st') (e_net_events st') (e_net_queries st')).
Proof.
  intros S G SW R. destruct st as [v s ne nq].
  cbn [e_qmem e_slots e_net_events e_net_queries] in *.
  destruct v as [pg cm um stt lf ht gen].
  cbn [qmem.state qmem.qmem_generation qmem.heap_top] in *. subst stt.
  destruct (clear_slots_empty r s SW R) as [SW' SE].
  assert (V : forall slot, is_valid_slot slot (clear_slots r s) = false).
  { intros slot. unfold is_valid_slot. rewrite SE.
    destruct (Z.leb_spec (end_slot_id (clear_slots r s)) slot);
      destruct (Z.ltb_spec slot (end_slot_id (clear_slots r s)));
      try reflexivity; lia. }
  unfold php_queries_finish, qmem_clear.
  cbn [e_qmem e_slots e_net_events e_net_queries qmem.state assert bind
       qmem.set_left qmem.set_used_mem qmem.set_state qmem.set_generation
       qmem.qmem_generation qmem.pages qmem.cur_mem qmem.used_mem qmem.left
       qmem.heap_top].
  rewrite (llong_incr_some _ G). cbn [bind].
  eexists. split; [reflexivity|].
  cbn [e_qmem e_slots e_net_events e_net_queries].
  split.
  { intros base_self L. unfold net_ansgen_is_alive.
    cbn [qmem.qmem_generation qmem.set_generation]. apply Z.eqb_neq. lia. }
  split; [exact SW'|]. split; [exact V|]. split.
  { intros slot code message res_given. unfold create_rpc_error_event.
    rewrite (alloc_net_event_invalid _ _ _ _ (V slot)). reflexivity. }
  split.
  { intros ml_flag dl_allocate slot len res_given.
    unfold create_rpc_answer_event.
    rewrite (alloc_net_event_invalid _ _ _ _ (V slot)). reflexivity. }
  split; [reflexivity|]. split.
  { unfold StaticQueue.wf, StaticQueue.clear, StaticQueue.idx, net_events_N.
    cbn [StaticQueue.begin StaticQueue.end_ StaticQueue.cnt].
    split; [lia|]. split; [lia | reflexivity]. }
  split; [reflexivity|]. split; [reflexivity|]. split.
  { unfold StaticQueue.wf, StaticQueue.clear, StaticQueue.idx, net_queries_N.
    cbn [StaticQueue.begin StaticQueue.end_ StaticQueue.cnt].
    split; [lia|]. split; [lia | reflexivity]. }
  split; [reflexivity|]. split; [reflexivity|]. split; reflexivity.
Qed.

Lemma php_queries_finish_resets_witness :
  exists st',
    php_queries_finish 7
      (mk_engine_state (pool arena_inited) (mk_slots 5 9) example_net_events
                       (StaticQueue.new (fun _ => example_query)))
    = Some st' /\
    e_slots st' = mk_slots 9 9 /\
    StaticQueue.records net_events_N (e_net_events st') = [] /\
    php_queries_start st'
    = Some (mk_engine_state (fresh_pool 0 1) (e_slots st') (e_net_events st')
                            (e_net_queries st')).
Proof.
  destruct (php_queries_finish_resets 7
              (mk_engine_state (pool arena_inited) (mk_slots 5 9)
                               example_net_events
                               (StaticQueue.new (fun _ => example_query))))
    as [st' [F [_ [_ [_ [_ [_ [_ [_ [Rc [_ [_ [_ [_ [_ St]]]]]]]]]]]]]]].
  - reflexivity.
  - reflexivity.
  - unfold slots_wf, max_slot_id. simpl. lia.
  - unfold lrand48_range. lia.
  - exists st'. split; [exact F|]. split.
    + injection F as <-. reflexivity.
    + split; [exact Rc | exact St].
Defined.

(** ** The chain of an SQL answer *)

Lemma block_eqb_eq a b : block_eqb a b = true <-> a = b.
Proof.
  destruct a as [i|i], b as [j|j]; simpl;
    try (split; [discriminate | intros H; discriminate H]);
    rewrite Nat.eqb_eq; split; congruence.
Qed.

Lemma ptr_eqb_eq a b : ptr_eqb a b = true <-> a = b.
Proof.
  destruct a as [a1 a2], b as [b1 b2]. unfold ptr_eqb. cbn [fst snd].
  rewrite andb_true_iff, block_eqb_eq, Z.eqb_eq. split.
  - intros [-> ->]. reflexivity.
  - intros [= -> ->]. split; reflexivity.
Qed.

Lemma ptr_eqb_refl a : ptr_eqb a a = true.
Proof. apply ptr_eqb_eq. reflexivity. Qed.

Lemma ptr_eqb_neq a b : a <> b -> ptr_eqb a b = false.
Proof.
  intros D. destruct (ptr_eqb a b) eqn:E; [|reflexivity].
  apply ptr_eqb_eq in E. contradiction.
Qed.

Lemma chain_write_same p f mem : chain_write p f mem p = f (mem p).
Proof. unfold chain_write. rewrite ptr_eqb_refl. reflexivity. Qed.

Lemma chain_write_other p f mem q : q <> p -> chain_write p f mem q = mem q.
Proof. intros D. unfold chain_write. rewrite (ptr_eqb_neq _ _ D). reflexivity. Qed.

(** a block that was just taken is none of the blocks in use *)
Lemma fresh_allocation v p n l q m :
  arena_inv (mk_arena v ((p, n) :: l)) -> In (q, m) l -> 0 < n -> 0 < m ->
  p <> q.
Proof.
  intros I H N M E. subst q.
  pose proof (inv_disjoint _ I) as D. unfold ranges in D. cbn [pool live] in D.
  apply pairwise_disjoint_app_r in D. cbn [pairwise_disjoint] in D.
  destruct D as [D _]. rewrite Forall_forall in D. specialize (D _ H).
  unfold disjoint in D. cbn [fst snd] in D.
  destruct D as [D|[D|D]]; [contradiction D; reflexivity | lia | lia].
Qed.

(** the links the loop follows do not change when another node is written *)
Lemma linked_frame mem mem' ns : forall from rs to,
  linked mem from ns rs to ->
  (forall q, In q (from :: ns) -> chain.next (mem' q) = chain.next (mem q)) ->
  (forall q, In q ns -> chain.data (mem' q) = chain.data (mem q) /\
                        chain.len (mem' q) = chain.len (mem q)) ->
  linked mem' from ns rs to.
Proof.
  induction ns as [|n ns IH]; intros from rs to L Hn Hd; destruct rs as [|r rs];
    cbn [linked] in *; try contradiction.
  - rewrite Hn by (left; reflexivity). exact L.
  - destruct L as [L1 [L2 [L3 L4]]].
    rewrite Hn by (left; reflexivity).
    destruct (Hd n (or_introl eq_refl)) as [D1 D2]. rewrite D1, D2.
    split; [exact L1|]. split; [exact L2|]. split; [exact L3|].
    apply IH.
    + exact L4.
    + intros q H. apply Hn. right. exact H.
    + intros q H. apply Hd. right. exact H.
Qed.

Lemma last_cons {A : Type} (ns : list A) : forall n d,
  last (n :: ns) d = last ns n.
Proof.
  induction ns as [|m ns IH]; intros n d; [reflexivity|].
  change (last (n :: m :: ns) d) with (last (m :: ns) d).
  rewrite (IH m d), (IH m n). reflexivity.
Qed.

Lemma last_in {A : Type} (ns : list A) : forall n, In (last ns n) (n :: ns).
Proof.
  induction ns as [|m ns IH]; intros n; [left; reflexivity|].
  right. rewrite last_cons. apply IH.
Qed.

(** linking a new node behind the last one *)
Lemma linked_snoc mem mem' p r to ns : forall from rs,
  linked mem from ns rs to ->
  ~ In p (from :: ns) ->
  (forall q, In q (from :: ns) -> q <> last ns from ->
             chain.next (mem' q) = chain.next (mem q)) ->
  (forall q, In q ns -> chain.data (mem' q) = chain.data (mem q) /\
                        chain.len (mem' q) = chain.len (mem q)) ->
  NoDup (from :: ns) ->
  chain.next (mem' (last ns from)) = p ->
  chain.next (mem' p) = to ->
  chain.data (mem' p) = r -> chain.len (mem' p) = reader_len r ->
  linked mem' from (ns ++ [p]) (rs ++ [r]) to.
Proof.
  induction ns as [|n ns IH]; intros from rs L Hp Hn Hd ND Hl Hpn Hpd Hpl;
    destruct rs as [|r0 rs]; cbn [linked app] in *; try contradiction.
  - cbn [last] in Hl. split; [exact Hl|]. split; [exact Hpd|].
    split; [exact Hpl | exact Hpn].
  - destruct L as [L1 [L2 [L3 L4]]].
    rewrite last_cons in Hl, Hn.
    assert (FL : from <> last ns n).
    { apply NoDup_cons_iff in ND. destruct ND as [NI _].
      intros E. apply NI. rewrite E. apply last_in. }
    rewrite (Hn from (or_introl eq_refl) FL).
    destruct (Hd n (or_introl eq_refl)) as [D1 D2]. rewrite D1, D2.
    split; [exact L1|]. split; [exact L2|]. split; [exact L3|].
    apply IH.
    + exact L4.
    + intros H. apply Hp. right. exact H.
    + intros q H. apply Hn. right. exact H.
    + intros q H. apply Hd. right. exact H.
    + apply NoDup_cons_iff in ND. destruct ND as [_ ND]. exact ND.
    + exact Hl.
    + exact Hpn.
    + exact Hpd.
    + exact Hpl.
Qed.

(** the loop of [engine_sql_run_query] on linked nodes *)
Lemma chain_callbacks_linked mem chain ns : forall from rs fuel,
  linked mem from ns rs chain ->
  ~ In chain ns ->
  (length ns < fuel)%nat ->
  chain_callbacks fuel mem chain (chain.next (mem from))
  = Some (packets rs).
Proof.
  induction ns as [|n ns IH]; intros from rs fuel L NI F;
    destruct rs as [|r rs]; cbn [linked] in L; try contradiction;
    (destruct fuel as [|fuel]; [cbn [length] in F; lia|]).
  - rewrite L. cbn [chain_callbacks]. rewrite ptr_eqb_refl. reflexivity.
  - destruct L as [L1 [L2 [L3 L4]]]. rewrite L1. cbn [chain_callbacks].
    assert (D : n <> chain) by (intros E; apply NI; left; exact E).
    rewrite (ptr_eqb_neq _ _ D). cbn [negb].
    rewrite (IH n rs fuel L4).
    + unfold packets. cbn [bind map]. rewrite L2, L3. reflexivity.
    + intros H. apply NI. right. exact H.
    + cbn [length] in F. lia.
Qed.

Lemma ptr_eqb_spec a b : reflect (a = b) (ptr_eqb a b).
Proof.
  destruct (ptr_eqb a b) eqn:E; constructor.
  - apply ptr_eqb_eq. exact E.
  - intros H. apply ptr_eqb_eq in H. congruence.
Qed.

(** reading a node after the writes of [chain_append] *)
Ltac read_chain :=
  unfold chain_conn, chain_write;
  repeat match goal with
         | |- context [ptr_eqb ?a ?b] => destruct (ptr_eqb_spec a b)
         end;
  cbn [chain.next chain.prev chain.buf chain.len chain.data chain.set_next
       chain.set_prev chain.set_buf chain.set_len chain.set_data];
  try congruence.

Lemma linked_length mem ns : forall from rs to,
  linked mem from ns rs to -> length ns = length rs.
Proof.
  induction ns as [|n ns IH]; intros from rs to L; destruct rs as [|r rs];
    cbn [linked] in L; try contradiction; [reflexivity|].
  destruct L as [_ [_ [_ L]]]. cbn [length]. f_equal. exact (IH _ _ _ L).
Qed.

Lemma size_of_int_size_t x : size_t_range (size_of_int x).
Proof.
  unfold size_t_range, size_of_int. apply Z.mod_pos_bound.
  rewrite SIZE_MOD_val. reflexivity.
Qed.

Lemma chain_create_ok sizeof_chain a mem chain v0 mem0 :
  arena_inv a -> 0 < sizeof_chain < SIZE_MOD ->
  chain_create sizeof_chain (pool a) mem = Some (chain, v0, mem0) ->
  chain_ok sizeof_chain (mk_arena v0 ((chain, sizeof_chain) :: live a))
           mem0 chain [] [].
Proof.
  intros I Sz H. unfold chain_create in H.
  destruct (qmem_malloc sizeof_chain (pool a)) as [[c w]|] eqn:M; [|discriminate].
  cbn [bind] in H. injection H as <- <- <-.
  assert (R : size_t_range sizeof_chain) by (unfold size_t_range; lia).
  pose proof (qmem_malloc_inv _ _ _ _ I R M) as I1.
  unfold chain_ok. split; [exact I1|]. cbn [linked last live].
  split; [read_chain|]. split; [read_chain|]. split.
  - constructor; [intros []| constructor].
  - constructor; [left; reflexivity | constructor].
Qed.

Lemma chain_append_ok sizeof_chain a mem chain ns rs r v' mem' :
  chain_ok sizeof_chain a mem chain ns rs -> 0 < sizeof_chain < SIZE_MOD ->
  chain_append sizeof_chain chain r (pool a) mem = Some (v', mem') ->
  exists l p,
    chain_ok sizeof_chain (mk_arena v' l) mem' chain (ns ++ [p]) (rs ++ [r]) /\
    qmem.qmem_generation v' = qmem.qmem_generation (pool a).
Proof.
  intros [I [L [P [ND LV]]]] Sz H. unfold chain_append in H.
  destruct (qmem_malloc sizeof_chain (pool a)) as [[p v1]|] eqn:M1;
    [|discriminate].
  cbn [bind] in H.
  destruct (qmem_malloc (size_of_int (reader_len r)) v1) as [[b v2]|] eqn:M2;
    [|discriminate].
  cbn [bind] in H. injection H as <- <-.
  assert (R : size_t_range sizeof_chain) by (unfold size_t_range; lia).
  pose proof (qmem_malloc_inv _ _ _ _ I R M1) as I1.
  pose proof (qmem_malloc_inv (mk_arena v1 ((p, sizeof_chain) :: live a)) _ _ _
                I1 (size_of_int_size_t _) M2) as I2.
  cbn [pool live] in I2.
  assert (Fr : ~ In p (chain :: ns)).
  { intros H. rewrite Forall_forall in LV. specialize (LV _ H).
    exact (fresh_allocation _ _ _ _ _ _ I1 LV (proj1 Sz) (proj1 Sz) eq_refl). }
  assert (Cp : chain <> p) by (intros E; apply Fr; left; exact E).
  assert (Lp : last ns chain <> p).
  { intros E. apply Fr. rewrite <- E. apply last_in. }
  exists ((b, size_of_int (reader_len r)) :: (p, sizeof_chain) :: live a), p.
  split.
  2:{ rewrite (qmem_malloc_generation _ _ _ _ M2).
      exact (qmem_malloc_generation _ _ _ _ M1). }
  unfold chain_ok. split; [exact I2|].
  assert (Pv : chain.prev
                 (chain_write p (chain.set_data r)
                    (chain_write p (chain.set_len (reader_len r))
                       (chain_write p (chain.set_buf b) mem)) chain)
               = last ns chain).
  { rewrite <- P. read_chain. }
  rewrite Pv.
  split; [|split; [|split]].
  - apply (linked_snoc mem _ p r chain ns chain rs L Fr).
    + intros q Hq Hl.
      assert (Qp : q <> p) by (intros E; apply Fr; rewrite <- E; exact Hq).
      read_chain.
    + intros q Hq.
      assert (Qp : q <> p) by (intros E; apply Fr; right; rewrite <- E; exact Hq).
      split; read_chain.
    + exact ND.
    + read_chain.
    + read_chain.
    + read_chain.
    + read_chain.
  - rewrite last_last. read_chain.
  - change (chain :: ns ++ [p]) with ((chain :: ns) ++ [p]).
    apply NoDup_app.
    + exact ND.
    + constructor; [intros [] | constructor].
    + intros x Hx [E|[]]. subst x. exact (Fr Hx).
  - change (chain :: ns ++ [p]) with ((chain :: ns) ++ [p]).
    apply Forall_app. split.
    + eapply Forall_impl; [|exact LV]. intros x Hx. right. right. exact Hx.
    + constructor; [right; left; reflexivity | constructor].
Qed.

Lemma chain_appends_ok sizeof_chain chain rs' : forall a mem ns rs v' mem',
  chain_ok sizeof_chain a mem chain ns rs -> 0 < sizeof_chain < SIZE_MOD ->
  chain_appends sizeof_chain chain rs' (pool a) mem = Some (v', mem') ->
  exists l ns',
    chain_ok sizeof_chain (mk_arena v' l) mem' chain (ns ++ ns') (rs ++ rs') /\
    qmem.qmem_generation v' = qmem.qmem_generation (pool a).
Proof.
  induction rs' as [|r rs' IH]; intros a mem ns rs v' mem' C Sz H;
    cbn [chain_appends] in H.
  - injection H as <- <-. exists (live a), []. rewrite !app_nil_r.
    split; [destruct a; exact C | reflexivity].
  - destruct (chain_append sizeof_chain chain r (pool a) mem)
      as [[v1 mem1]|] eqn:E; [|discriminate].
    cbn [bind] in H.
    destruct (chain_append_ok _ _ _ _ _ _ _ _ _ C Sz E) as [l [p [C1 G1]]].
    destruct (IH (mk_arena v1 l) mem1 _ _ _ _ C1 Sz H) as [l' [ns' [C2 G2]]].
    exists l', (p :: ns'). rewrite <- !app_assoc in C2. cbn [app] in C2.
    split; [exact C2|]. cbn [pool] in G2. rewrite G2. exact G1.
Qed.

Lemma chain_ok_callbacks sizeof_chain a mem chain ns rs fuel :
  chain_ok sizeof_chain a mem chain ns rs ->
  (length rs < fuel)%nat ->
  engine_sql_run_query_ok fuel mem (Some chain) = Some (packets rs).
Proof.
  intros [_ [L [_ [ND _]]]] F. unfold engine_sql_run_query_ok.
  apply (chain_callbacks_linked mem chain ns chain rs fuel L).
  - apply NoDup_cons_iff in ND. exact (proj1 ND).
  - rewrite (linked_length _ _ _ _ _ L). exact F.
Qed.

(** X17.  The chain keeps the packets in order.  In an initialised pool,
    after [chain_create] and any calls of [chain_append] that return,
    the loop of [engine_sql_run_query] over the chain ends, after one
    test of its condition per packet and one more, and has called the
    callback once for every packet, with its bytes and its length, in
    the order in which the packets were appended; on the chain as
    created it calls nothing. *)
Theorem chain_keeps_order (sizeof_chain : Z) (a : arena) (mem : chain_mem)
        (rs : list data_reader_t) (chain : qmem.ptr) (v0 v1 : qmem.vars)
        (mem0 mem1 : chain_mem) :
  arena_inv a -> 0 < sizeof_chain < SIZE_MOD ->
  chain_create sizeof_chain (pool a) mem = Some (chain, v0, mem0) ->
  chain_appends sizeof_chain chain rs v0 mem0 = Some (v1, mem1) ->
  (forall fuel, (length rs < fuel)%nat ->
                engine_sql_run_query_ok fuel mem1 (Some chain)
                = Some (packets rs)) /\
  engine_sql_run_query_ok 1 mem0 (Some chain) = Some [] /\
  qmem.qmem_generation v1 = qmem.qmem_generation (pool a).
Proof.
  intros I Sz Hc Ha.
  pose proof (chain_create_ok _ _ _ _ _ _ I Sz Hc) as C0.
  destruct (chain_appends_ok _ _ _ _ _ _ _ _ _ C0 Sz Ha) as [l [ns [C1 G]]].
  cbn [app pool] in C1, G.
  split; [|split].
  - intros fuel F. exact (chain_ok_callbacks _ _ _ _ _ _ _ C1 F).
  - apply (chain_ok_callbacks _ _ _ _ _ _ 1%nat C0). cbn [length]. lia.
  - rewrite G. unfold chain_create in Hc.
    destruct (qmem_malloc sizeof_chain (pool a)) as [[c w]|] eqn:M;
      [|discriminate].
    cbn [bind] in Hc. injection Hc as _ <- _.
    exact (qmem_malloc_generation _ _ _ _ M).
Qed.

Lemma chain_keeps_order_witness :
  exists chain v0 mem0 v1 mem1,
    chain_create 32 (pool arena_inited) example_chain_mem = Some (chain, v0, mem0) /\
    chain_appends 32 chain ["row 1"; EmptyString; "row 3"]%string v0 mem0 = Some (v1, mem1) /\
    engine_sql_run_query_ok 4 mem1 (Some chain)
    = Some [("row 1", 5); (EmptyString, 0); ("row 3", 5)]%string.
Proof.
  destruct (chain_create 32 (pool arena_inited) example_chain_mem)
    as [[[chain v0] mem0]|] eqn:Hc; [|vm_compute in Hc; discriminate Hc].
  destruct (chain_appends 32 chain ["row 1"; EmptyString; "row 3"]%string v0 mem0)
    as [[v1 mem1]|] eqn:Ha.
  - exists chain, v0, mem0, v1, mem1.
    split; [reflexivity|]. split; [exact Ha|].
    refine (proj1 (chain_keeps_order 32 arena_inited example_chain_mem
                     ["row 1"; EmptyString; "row 3"]%string chain v0 v1 mem0 mem1
                     (proj1 arena_inited_pool_ok) _ Hc Ha) 4%nat _).
    + rewrite SIZE_MOD_val. lia.
    + simpl. lia.
  - exfalso. unfold chain_create in Hc. vm_compute in Hc.
    injection Hc as <- <- <-. vm_compute in Ha. discriminate Ha.
Defined.

(** ** The SQL answer generator *)

Lemma chain_append_generation sizeof_chain chain r v mem v' mem' :
  chain_append sizeof_chain chain r v mem = Some (v', mem') ->
  qmem.qmem_generation v' = qmem.qmem_generation v.
Proof.
  unfold chain_append.
  destruct (qmem_malloc sizeof_chain v) as [[p v1]|] eqn:M1; [|discriminate].
  cbn [bind].
  destruct (qmem_malloc (size_of_int (reader_len r)) v1) as [[b v2]|] eqn:M2;
    [|discriminate].
  cbn [bind]. intros [= <- _].
  rewrite (qmem_malloc_generation _ _ _ _ M2).
  exact (qmem_malloc_generation _ _ _ _ M1).
Qed.

(** the packets of an answer, delivered to a generator that waits for
    them *)
Lemma sql_packets_run sizeof_chain rest rs : forall v mem self,
  net_ansgen.state (sql_ansgen_packet.base self) = st_ansgen_wait ->
  sql_ansgen_packet.state self = sql_ap_wait_ans ->
  net_ansgen_is_alive (sql_ansgen_packet.base self) v = true ->
  sql_deliver_all sizeof_chain (map sql_packet rs ++ rest) v mem self
  = match chain_appends sizeof_chain (sql_ansgen_packet.chain self) rs v mem with
    | Some (v1, mem1) => sql_deliver_all sizeof_chain rest v1 mem1 self
    | None => None
    end.
Proof.
  induction rs as [|r rs IH]; intros v mem self W S A; [reflexivity|].
  cbn [map app sql_deliver_all sql_deliver chain_appends].
  unfold sql_ansgen_packet_add_packet. rewrite W, S, A. cbn [is_wait is_sql_ap assert bind].
  destruct (chain_append sizeof_chain (sql_ansgen_packet.chain self) r v mem)
    as [[v1 mem1]|] eqn:E; [|reflexivity].
  cbn [bind fst snd]. apply IH; [exact W | exact S |].
  unfold net_ansgen_is_alive in *.
  rewrite (chain_append_generation _ _ _ _ _ _ _ E). exact A.
Qed.

(** X18.  An SQL query, answered.  For a generator made by
    [sql_ansgen_packet_create] in an initialised pool: the first call it
    accepts is [set_writer] (any other call aborts); the calls
    [set_writer], [ready], one [packet] for each packet of the answer
    and [done] abort exactly when one of the calls of [chain_append]
    does; and when they return, the generator is done, the answer is
    [nq_ok] and carries the chain, on which the loop of
    [engine_sql_run_query] calls the callback with the packets in the
    order of their arrival, and every further call aborts. *)
Theorem sql_answer_assembled
        (sizeof_answer sizeof_chain : Z) (zeroed : answer.t) (a : arena)
        (mem : chain_mem) (writer : option Z) (rs : list data_reader_t)
        (self : sql_ansgen_packet.t) (v0 : qmem.vars) (mem0 : chain_mem) :
  arena_inv a -> size_t_range sizeof_answer -> 0 < sizeof_chain < SIZE_MOD ->
  sql_ansgen_packet_create sizeof_answer sizeof_chain zeroed (pool a) mem
  = Some (self, v0, mem0) ->
  (forall c, is_set_writer c = false ->
             sql_deliver sizeof_chain c v0 mem0 self = None) /\
  (sql_deliver_all sizeof_chain (sql_query_calls writer rs) v0 mem0 self = None <->
   chain_appends sizeof_chain (sql_ansgen_packet.chain self) rs v0 mem0 = None) /\
  (forall self' v1 mem1,
      sql_deliver_all sizeof_chain (sql_query_calls writer rs) v0 mem0 self
      = Some (self', v1, mem1) ->
      net_ansgen.state (sql_ansgen_packet.base self') = st_ansgen_done /\
      answer.state (net_ansgen.ans (sql_ansgen_packet.base self')) = nq_ok /\
      sql_ansgen_packet.ans_chain self' = Some (sql_ansgen_packet.chain self) /\
      sql_ansgen_packet.writer self' = writer /\
      (forall fuel, (length rs < fuel)%nat ->
                    engine_sql_run_query_ok fuel mem1
                      (sql_ansgen_packet.ans_chain self')
                    = Some (packets rs)) /\
      (forall c, sql_deliver sizeof_chain c v1 mem1 self' = None)).
Proof.
  intros I Sa Sz H. unfold sql_ansgen_packet_create, qmem_malloc0 in H.
  destruct (qmem_malloc sizeof_answer (pool a)) as [[p w]|] eqn:M; [|discriminate].
  cbn [bind] in H.
  destruct (chain_create sizeof_chain w mem) as [[[c w0] m0]|] eqn:Hc;
    [|discriminate].
  cbn [bind] in H. injection H as <- <- <-.
  pose proof (qmem_malloc_inv _ _ _ _ I Sa M) as I1.
  pose proof (chain_create_ok sizeof_chain
                (mk_arena w ((p, sizeof_answer) :: live a)) mem c w0 m0 I1 Sz Hc)
    as C0.
  assert (G0 : qmem.qmem_generation w0 = qmem.qmem_generation (pool a)).
  { unfold chain_create in Hc.
    destruct (qmem_malloc sizeof_chain w) as [[c' w']|] eqn:M'; [|discriminate].
    cbn [bind] in Hc. injection Hc as _ <- _.
    rewrite (qmem_malloc_generation _ _ _ _ M').
    exact (qmem_malloc_generation _ _ _ _ M). }
  cbn [sql_ansgen_packet.chain].
  assert (Run :
    sql_deliver_all sizeof_chain (sql_query_calls writer rs) w0 m0
      (sql_ansgen_packet.mk
         (net_ansgen.mk (qmem.qmem_generation (pool a)) st_ansgen_wait zeroed)
         None sql_ap_init None c)
    = match chain_appends sizeof_chain c rs w0 m0 with
      | Some (v1, mem1) =>
          Some (sql_ansgen_packet.mk
                  (net_ansgen.mk (qmem.qmem_generation (pool a)) st_ansgen_done
                     (answer.mk nq_ok (answer.res zeroed) (answer.res_len zeroed)
                                (answer.desc zeroed)))
                  (Some c) sql_ap_wait_ans writer c, v1, mem1)
      | None => None
      end).
  { unfold sql_query_calls.
    cbn [sql_deliver_all sql_deliver sql_ansgen_packet_set_writer
         sql_ansgen_packet_ready sql_ansgen_packet.base sql_ansgen_packet.state
         sql_ansgen_packet.ans_chain sql_ansgen_packet.writer
         sql_ansgen_packet.chain net_ansgen.state is_wait is_sql_ap assert bind
         fst snd].
    rewrite sql_packets_run;
      [|reflexivity | reflexivity
       |unfold net_ansgen_is_alive; cbn [sql_ansgen_packet.base
          net_ansgen.qmem_req_generation]; rewrite G0; apply Z.eqb_refl].
    cbn [sql_ansgen_packet.chain].
    destruct (chain_appends sizeof_chain c rs w0 m0) as [[v1 mem1]|] eqn:Ha;
      [|reflexivity].
    destruct (chain_appends_ok _ _ _ _ _ _ _ _ _ C0 Sz Ha) as [l [ns [_ G1]]].
    cbn [pool] in G1.
    cbn [sql_deliver_all sql_deliver]. unfold sql_ansgen_packet_done.
    cbn [sql_ansgen_packet.base sql_ansgen_packet.state
         sql_ansgen_packet.ans_chain sql_ansgen_packet.writer
         sql_ansgen_packet.chain net_ansgen.state net_ansgen.ans
         net_ansgen.qmem_req_generation is_wait is_sql_ap assert bind].
    assert (A1 : net_ansgen_is_alive
                   (net_ansgen.mk (qmem.qmem_generation (pool a)) st_ansgen_wait
                                  zeroed) v1 = true).
    { unfold net_ansgen_is_alive. cbn [net_ansgen.qmem_req_generation].
      rewrite G1, G0. apply Z.eqb_refl. }
    rewrite A1. reflexivity. }
  split; [|split].
  - intros [wr| |r|] F; try discriminate F; reflexivity.
  - rewrite Run.
    destruct (chain_appends sizeof_chain c rs w0 m0) as [[v1 mem1]|];
      split; try discriminate; reflexivity.
  - intros self' v1 mem1. rewrite Run.
    destruct (chain_appends sizeof_chain c rs w0 m0) as [[v1' mem1']|] eqn:Ha;
      [|discriminate].
    destruct (chain_appends_ok _ _ _ _ _ _ _ _ _ C0 Sz Ha) as [l [ns [C1 _]]].
    cbn [app] in C1.
    intros [= <- <- <-].
    cbn [sql_ansgen_packet.base sql_ansgen_packet.state
         sql_ansgen_packet.ans_chain sql_ansgen_packet.writer
         sql_ansgen_packet.chain net_ansgen.state net_ansgen.ans answer.state].
    split; [reflexivity|]. split; [reflexivity|]. split; [reflexivity|].
    split; [reflexivity|]. split.
    + intros fuel F. exact (chain_ok_callbacks _ _ _ _ _ _ _ C1 F).
    + intros [wr| |r|]; reflexivity.
Qed.

Lemma sql_answer_assembled_witness :
  exists self v0 mem0 self' v1 mem1,
    sql_ansgen_packet_create 40 32 example_answer (pool arena_inited)
                             example_chain_mem = Some (self, v0, mem0) /\
    sql_deliver_all 32 (sql_query_calls (Some 77) ["a"; "bc"]%string)
                    v0 mem0 self = Some (self', v1, mem1) /\
    engine_sql_run_query_ok 3 mem1 (sql_ansgen_packet.ans_chain self')
    = Some [("a", 1); ("bc", 2)]%string.
Proof.
  destruct (sql_ansgen_packet_create 40 32 example_answer (pool arena_inited)
                                     example_chain_mem)
    as [[[self v0] mem0]|] eqn:Hc; [|vm_compute in Hc; discriminate Hc].
  destruct (sql_deliver_all 32 (sql_query_calls (Some 77) ["a"; "bc"]%string)
                            v0 mem0 self) as [[[self' v1] mem1]|] eqn:Hr.
  - exists self, v0, mem0, self', v1, mem1.
    split; [reflexivity|]. split; [exact Hr|].
    assert (Sa : size_t_range 40)
      by (unfold size_t_range; rewrite SIZE_MOD_val; lia).
    assert (Sz : 0 < 32 < SIZE_MOD) by (rewrite SIZE_MOD_val; lia).
    destruct (proj2 (proj2 (sql_answer_assembled 40 32 example_answer arena_inited
                              example_chain_mem (Some 77) ["a"; "bc"]%string
                              self v0 mem0 (proj1 arena_inited_pool_ok) Sa Sz Hc))
                    self' v1 mem1 Hr) as [_ [_ [_ [_ [W _]]]]].
    apply (W 3%nat). simpl. lia.
  - exfalso. vm_compute in Hc. injection Hc as <- <- <-.
    vm_compute in Hr. discriminate Hr.
Defined.

(** ** A memcached query from its creation to the callback *)

(** X19.  A memcached query, answered.  A generator made by
    [mc_ansgen_packet_create] takes the query type ([1] announces a
    version reply, any other value nothing) and then the reply of the
    kind announced: the calls abort exactly when an append to the
    (empty) buffer does, and otherwise the generator is done and the
    answer is [nq_ok] with exactly the text of the reply and its
    length.  [engine_mc_run_query] then hands that text and length to
    the callback, if there is one, and leaves [last_net_error] as it
    was, whatever an earlier query stored there. *)
Theorem mc_query_answered
        (sizeof_answer sizeof_str_buf : Z) (zeroed : answer.t) (v v0 : qmem.vars)
        (self : mc_ansgen_packet.t) (query_type : Z) (rp : mc_reply) :
  mc_ansgen_packet_create sizeof_answer sizeof_str_buf zeroed v = Some (self, v0) ->
  (query_type = 1 <-> reply_kind rp = ap_version) ->
  exists self1,
    mc_ansgen_packet_set_query_type v0 self query_type = Some (self1, v0) /\
    (mc_deliver_all (reply_fragments rp) v0 self1 = None <->
     str_buf_appends v0 (mk_str_buf None 0 0 EmptyString)
                     (map payload (reply_fragments rp)) = None) /\
    (forall self' v1,
        mc_deliver_all (reply_fragments rp) v0 self1 = Some (self', v1) ->
        base_state self' = st_ansgen_done /\
        net_ansgen.ans (mc_ansgen_packet.base self')
        = answer.mk nq_ok (Some (reply_text rp))
                    (Z.of_nat (String.length (reply_text rp)))
                    (answer.desc zeroed) /\
        (forall callback_given last_net_error,
            engine_mc_run_query (net_ansgen.ans (mc_ansgen_packet.base self'))
                                callback_given last_net_error
            = Some (last_net_error,
                    if callback_given
                    then Some (reply_text rp,
                               Z.of_nat (String.length (reply_text rp)))
                    else None))).
Proof.
  intros H Q. unfold mc_ansgen_packet_create, qmem_malloc0, str_buf_create in H.
  destruct (qmem_malloc sizeof_answer v) as [[p w]|] eqn:M1; [|discriminate].
  cbn [bind] in H.
  destruct (qmem_malloc sizeof_str_buf w) as [[p' w']|] eqn:M2; [|discriminate].
  cbn [bind] in H. injection H as <- <-.
  assert (G : qmem.qmem_generation w' = qmem.qmem_generation v).
  { rewrite (qmem_malloc_generation _ _ _ _ M2).
    exact (qmem_malloc_generation _ _ _ _ M1). }
  set (b := net_ansgen.mk (qmem.qmem_generation v) st_ansgen_wait zeroed).
  set (sb := mk_str_buf None 0 0 EmptyString).
  assert (A : net_ansgen_is_alive b w' = true).
  { unfold net_ansgen_is_alive, b. cbn [net_ansgen.qmem_req_generation].
    rewrite G. apply Z.eqb_refl. }
  set (self1 := mc_ansgen_packet.mk
                  b (if query_type =? 1 then ap_version else ap_any) sb).
  exists self1.
  split.
  { unfold mc_ansgen_packet_set_query_type, self1.
    destruct (query_type =? 1); reflexivity. }
  assert (S : mc_ansgen_packet.state self1 = reply_kind rp \/
              (mc_ansgen_packet.state self1 = ap_any /\
               reply_kind rp <> ap_version)).
  { unfold self1. cbn [mc_ansgen_packet.state].
    destruct (Z.eqb_spec query_type 1) as [E|E].
    - left. symmetry. apply Q. exact E.
    - right. split; [reflexivity|]. intros K. apply E. apply Q. exact K. }
  assert (L : 0 <= len sb) by (unfold sb; cbn [len]; lia).
  assert (W : base_state self1 = st_ansgen_wait) by reflexivity.
  rewrite (mc_reply_run rp w' self1 W A L S).
  change (mc_ansgen_packet.str_buf self1) with sb.
  assert (WF : str_buf_wf sb).
  { unfold str_buf_wf, sb, INT_MAX. cbn [len contents buf_len String.length]. lia. }
  destruct (str_buf_appends w' sb (map payload (reply_fragments rp)))
    as [[sb' w'']|] eqn:E.
  - split; [split; discriminate|].
    intros self' v1 [= <- <-].
    destruct (str_buf_appends_wf _ _ _ _ _ WF E) as [[WL _] [C _]].
    unfold sb in C. cbn [contents String.append] in C.
    unfold base_state, finalized, reply_text, self1, b.
    cbn [mc_ansgen_packet.base net_ansgen.state net_ansgen.ans
         net_ansgen.qmem_req_generation].
    rewrite WL, C.
    split; [reflexivity|]. split; [reflexivity|].
    intros callback_given last_net_error. reflexivity.
  - split; [split; reflexivity|]. intros self' v1 H. discriminate H.
Qed.

Lemma mc_query_answered_witness :
  exists self v0 self1,
    mc_ansgen_packet_create 40 24 example_answer (pool arena_inited)
    = Some (self, v0) /\
    mc_ansgen_packet_set_query_type v0 self 1 = Some (self1, v0) /\
    (mc_deliver_all (reply_fragments (reply_version "VERSION 1.4"%string)) v0 self1
     = None <->
     str_buf_appends v0 (mk_str_buf None 0 0 EmptyString)
       (map payload (reply_fragments (reply_version "VERSION 1.4"%string)))
     = None).
Proof.
  destruct (mc_ansgen_packet_create 40 24 example_answer (pool arena_inited))
    as [[self v0]|] eqn:Hc; [|vm_compute in Hc; discriminate Hc].
  destruct (mc_query_answered 40 24 example_answer (pool arena_inited) v0 self 1
              (reply_version "VERSION 1.4"%string) Hc
              (conj (fun _ => eq_refl) (fun _ => eq_refl)))
    as [self1 [T [R _]]].
  exists self, v0, self1. split; [reflexivity|]. split; [exact T | exact R].
Defined.

(** ** The last net error, continued *)

(** X20.  A query that failed without a text clears the last error.
    [save_last_net_error] with a null pointer stores the empty string
    and leaves the other bytes of the buffer as they are; this is what
    [engine_mc_run_query] does for an answer in state [nq_error] that
    has no text, and it calls no callback. *)
Theorem save_last_net_error_null (buf : list ascii) :
  length buf = last_net_error_size ->
  exists buf',
    save_last_net_error None buf = Some buf' /\
    length buf' = last_net_error_size /\
    c_str buf' = [] /\
    skipn 1 buf' = skipn 1 buf /\
    (forall res callback_given,
        answer.state res = nq_error -> answer.res res = None ->
        engine_mc_run_query res callback_given buf = Some (buf', None)).
Proof.
  intros L. destruct buf as [|c buf]; [discriminate L|].
  exists (zero :: buf). unfold save_last_net_error, poke. cbn [firstn skipn app].
  split; [reflexivity|]. split; [exact L|]. split; [reflexivity|].
  split; [reflexivity|].
  intros res callback_given S R. unfold engine_mc_run_query.
  rewrite S, R. reflexivity.
Qed.

Lemma save_last_net_error_null_witness :
  exists buf',
    save_last_net_error None (repeat letter_a 129) = Some buf' /\
    length buf' = last_net_error_size /\
    c_str buf' = [] /\
    skipn 1 buf' = repeat letter_a 128.
Proof.
  destruct (save_last_net_error_null (repeat letter_a 129) eq_refl)
    as [buf' [E [L [C [K _]]]]].
  exists buf'. split; [exact E|]. split; [exact L|]. split; [exact C | exact K].
Defined.

(** ** [qmem_pstr] *)

Lemma substring_length (s : string) : forall n,
  String.length (substring 0 n s) = Nat.min n (String.length s).
Proof.
  induction s as [|c s IH]; intros [|n]; cbn [substring String.length Nat.min];
    try reflexivity.
  rewrite IH. reflexivity.
Qed.

Lemma substring_whole (s : string) : forall n,
  (String.length s <= n)%nat -> substring 0 n s = s.
Proof.
  induction s as [|c s IH]; intros [|n] H; cbn [substring String.length] in *;
    try reflexivity; try lia.
  rewrite IH by lia. reflexivity.
Qed.

Lemma substring_substring (s : string) : forall n m,
  (n <= m)%nat -> substring 0 n (substring 0 m s) = substring 0 n s.
Proof.
  induction s as [|c s IH]; intros [|n] [|m] H; cbn [substring];
    try reflexivity; try lia.
  rewrite IH by lia. reflexivity.
Qed.

(** X21.  [qmem_pstr] cuts at 4999 bytes.  For a formatted text whose
    length is an [int], in an initialised pool that serves the request,
    the string returned is the text itself when it has fewer than 5000
    bytes and its first 4999 bytes otherwise, with no error; the block
    taken from the pool has one byte more than the string, so at most
    5000 bytes, and [used_mem] grows by that. *)
Theorem qmem_pstr_truncates (formatted : string) (a : arena) :
  arena_inv a ->
  reader_len formatted <= INT_MAX ->
  (qmem_pstr formatted (pool a) = None <->
   qmem_malloc (Z.min (reader_len formatted) 4999 + 1) (pool a) = None) /\
  (forall res text v',
      qmem_pstr formatted (pool a) = Some (res, text, v') ->
      text = (if reader_len formatted <? 5000
              then formatted else substring 0 4999 formatted) /\
      reader_len text = Z.min (reader_len formatted) 4999 /\
      qmem_malloc (reader_len text + 1) (pool a) = Some (res, v') /\
      qmem.used_mem v' = qmem.used_mem (pool a) + reader_len text + 1).
Proof.
  intros I B. pose proof (reader_len_nonneg formatted) as P.
  unfold qmem_pstr.
  assert (R : int_range (reader_len formatted) = true).
  { unfold int_range, INT_MIN, INT_MAX in *. apply andb_true_iff.
    split; apply Z.leb_le; lia. }
  rewrite R. cbn [assert bind].
  assert (LE : (if reader_len formatted >=? 5000 then 5000 - 1
                else reader_len formatted)
               = Z.min (reader_len formatted) 4999).
  { rewrite Z.geb_leb. destruct (Z.leb_spec 5000 (reader_len formatted)); lia. }
  rewrite LE.
  assert (SZ : size_of_int (Z.min (reader_len formatted) 4999 + 1)
               = Z.min (reader_len formatted) 4999 + 1).
  { unfold size_of_int. apply Z.mod_small. rewrite SIZE_MOD_val. lia. }
  rewrite SZ.
  assert (T : substring 0 (Z.to_nat (Z.min (reader_len formatted) 4999))
                (substring 0 (Z.to_nat (5000 - 1)) formatted)
              = (if reader_len formatted <? 5000
                 then formatted else substring 0 4999 formatted)).
  { rewrite substring_substring by lia.
    destruct (Z.ltb_spec (reader_len formatted) 5000) as [Lt|Ge].
    - apply substring_whole. unfold reader_len in *. lia.
    - replace (Z.to_nat (Z.min (reader_len formatted) 4999)) with 4999%nat by lia.
      reflexivity. }
  assert (TL : reader_len (if reader_len formatted <? 5000
                           then formatted else substring 0 4999 formatted)
               = Z.min (reader_len formatted) 4999).
  { destruct (Z.ltb_spec (reader_len formatted) 5000) as [Lt|Ge]; [lia|].
    unfold reader_len in *. rewrite substring_length. lia. }
  destruct (qmem_malloc (Z.min (reader_len formatted) 4999 + 1) (pool a))
    as [[res w]|] eqn:M.
  - cbn [bind]. split; [split; discriminate|].
    intros res' text v' H. rewrite T in H. injection H as <- <- <-.
    split; [reflexivity|]. split; [exact TL|]. split.
    { exact (eq_trans (f_equal (fun n => qmem_malloc (n + 1) (pool a)) TL) M). }
    assert (U : qmem.used_mem w
                = size_add (qmem.used_mem (pool a))
                           (Z.min (reader_len formatted) 4999 + 1)).
    { revert M. unfold qmem_malloc.
      destruct (qmem.lower_bound _ (qmem.left (pool a))) as [[sz q]|].
      - cbv zeta. destruct (sz - _ >? 0); intros [= _ <-]; reflexivity.
      - intros H. apply alloc_at_least_some in H.
        destruct H as [_ [_ [_ ->]]]. reflexivity. }
    rewrite used_plus_fits in U; [| exact I | rewrite max_mem_val; lia].
    rewrite U, Z.add_assoc.
    exact (f_equal (fun n => qmem.used_mem (pool a) + n + 1) (eq_sym TL)).
  - cbn [bind]. split; [split; reflexivity|].
    intros res' text v' H. discriminate H.
Qed.

Lemma qmem_pstr_truncates_witness :
  exists res text v',
    qmem_pstr "connect to db failed"%string (pool arena_inited)
    = Some (res, text, v') /\
    text = "connect to db failed"%string /\
    qmem.used_mem v' = 21.
Proof.
  destruct (qmem_pstr "connect to db failed"%string (pool arena_inited))
    as [[[res text] v']|] eqn:H; [|vm_compute in H; discriminate H].
  exists res, text, v'. split; [reflexivity|].
  destruct (proj2 (qmem_pstr_truncates "connect to db failed"%string arena_inited
                     (proj1 arena_inited_pool_ok) ltac:(vm_compute; discriminate))
                  res text v' H) as [T [_ [_ U]]].
  split; [exact T|]. rewrite T in U. exact U.
Defined.
